(** * go-config: the debounce stage and the location watcher

    A shallow embedding of [pkg/debounce/debounce.go] and of the [watch]
    package (the file watching a single filesystem location), with the
    properties of the specification proved over it.

    Conventions.
    - Time is a logical clock in nanoseconds ([Z]); a [time.Duration] is a [Z].
    - A goroutine blocked in a [select] is driven by a trace: the list of the
      cases the Go runtime resolved, each with the instant it was taken.
    - A Go [int] is 64 bits wide, with two's complement wrap-around.
    - A Go [interface{}] value is an [option]: [None] is the nil interface. *)

From Stdlib Require Import ZArith List Bool Lia.
From Stdlib Require String.
Import String.StringSyntax.
Delimit Scope string_scope with string.
Import ListNotations.
Open Scope Z_scope.

Set Implicit Arguments.

(* ------------------------------------------------------------------------ *)
(** ** Machine integers *)

Module GoInt.

Definition intSize : Z := 64.
Definition half : Z := 2 ^ (intSize - 1).
Definition modulus : Z := 2 ^ intSize.

(** The value of a Go [int] expression whose mathematical value is [z]. *)
Definition wrap (z : Z) : Z := (z + half) mod modulus - half.

(** [count++] *)
Definition incr (c : Z) : Z := wrap (c + 1).

End GoInt.

(* ------------------------------------------------------------------------ *)
(** ** Channels written by a single goroutine *)

Section Channels.
Variable T : Type.

(** What a consumer that drains the channel observes: the values sent, in
    order, and whether the channel has been closed. *)
Record Chan : Type := mkChan { sent : list T; closed : bool }.

Definition make : Chan := mkChan [] false.
Definition send (x : T) (c : Chan) : Chan := mkChan (sent c ++ [x]) (closed c).
Definition close (c : Chan) : Chan := mkChan (sent c) true.
End Channels.

Arguments make {T}.

(* ------------------------------------------------------------------------ *)
(** ** pkg/debounce *)

Module Debounce.

(** *** Timers *)

(** A [*time.Timer]: the instant it fires, and whether the value it sends on
    its channel [C] has already been received. *)
Record Timer : Type := mkTimer { deadline : Z; drained : bool }.

(** [time.NewTimer(d)] called at [now]; a duration that is not positive
    fires at once. *)
Definition NewTimer (now d : Z) : Timer := mkTimer (now + Z.max d 0) false.

(** [debounceTimers]. The fields [intervalChan] and [maxDelayChan] always
    hold the channel of the timer next to them (or nil with it), so that a
    timer and its channel are one field here. *)
Record debounceTimers : Type := mkTimers {
  interval : Z;
  maxDelay : Z;
  intervalTimer : option Timer;
  maxDelayTimer : option Timer
}.

Definition resetInterval (now : Z) (t : debounceTimers) : debounceTimers :=
  mkTimers (interval t) (maxDelay t)
           (Some (NewTimer now (interval t))) (maxDelayTimer t).

Definition clearInterval (t : debounceTimers) : debounceTimers :=
  match intervalTimer t with
  | None => t
  | Some _ => mkTimers (interval t) (maxDelay t) None (maxDelayTimer t)
  end.

Definition setMaxDelay (now : Z) (t : debounceTimers) : debounceTimers :=
  match maxDelayTimer t with
  | None =>
      if negb (maxDelay t =? 0)
      then mkTimers (interval t) (maxDelay t) (intervalTimer t)
                    (Some (NewTimer now (maxDelay t)))
      else t
  | Some _ => t
  end.

Definition clearMaxDelay (t : debounceTimers) : debounceTimers :=
  match maxDelayTimer t with
  | None => t
  | Some _ => mkTimers (interval t) (maxDelay t) (intervalTimer t) None
  end.

(** Receiving from a timer's channel takes its only value. *)
Definition drain (tm : option Timer) : option Timer :=
  match tm with
  | Some x => Some (mkTimer (deadline x) true)
  | None => None
  end.

Definition recvIntervalChan (t : debounceTimers) : debounceTimers :=
  mkTimers (interval t) (maxDelay t) (drain (intervalTimer t)) (maxDelayTimer t).

Definition recvMaxDelayChan (t : debounceTimers) : debounceTimers :=
  mkTimers (interval t) (maxDelay t) (intervalTimer t) (drain (maxDelayTimer t)).

(** A timer that may still deliver: it exists and its value was not taken. *)
Definition running (tm : option Timer) : bool :=
  match tm with
  | Some x => negb (drained x)
  | None => false
  end.

(** A receive from the timer's channel can proceed at [now]; a receive from
    a nil channel never does. *)
Definition fired (now : Z) (tm : option Timer) : bool :=
  match tm with
  | Some x => negb (drained x) && (deadline x <=? now)
  | None => false
  end.

(** *** The cases of the worker's [select] *)

Inductive Select (V : Type) : Type :=
| InValue (v : V)   (* case v, ok := <-in, with ok *)
| InClosed          (* case v, ok := <-in, with !ok *)
| IntervalC         (* case <-t.intervalChan *)
| MaxDelayC.        (* case <-t.maxDelayChan *)

Arguments InClosed {V}.
Arguments IntervalC {V}.
Arguments MaxDelayC {V}.

(** A trace: the cases taken by the successive iterations, each with the
    instant of the iteration. *)
Definition Trace (V : Type) : Type := list (Z * Select V).

(** The state of a worker goroutine: its accumulator, its timers and its
    output channel. *)
Record Worker (A T : Type) : Type := mkWorker {
  acc : A;
  timers : debounceTimers;
  out : Chan T
}.

Definition start (A T : Type) (a : A) (interval maxDelay : Z) : Worker A T :=
  mkWorker a (mkTimers interval maxDelay None None) make.

Arguments start {A T} a interval maxDelay.

(** The skeleton shared by the four workers: [for { select { ... } }], left
    by [break loop], then the code after the loop. An empty trace leaves the
    goroutine blocked in [select]; nothing runs after the goroutine ends. *)
Section Loop.
Variables A T V : Type.
Variable body : Z -> Select V -> Worker A T -> Worker A T * bool.
Variable after : Worker A T -> Worker A T.

Fixpoint run_loop (tr : Trace V) (w : Worker A T) : Worker A T :=
  match tr with
  | [] => w
  | (now, c) :: tr' =>
      let '(w', brk) := body now c w in
      if brk then after w' else run_loop tr' w'
  end.
End Loop.

(** *** New: the signal variant *)

(** One iteration of the loop; the boolean is [true] on [break loop]. *)
Definition New_select (now : Z) (c : Select unit) (w : Worker bool unit)
  : Worker bool unit * bool :=
  let pending := acc w in
  let t := timers w in
  let o := out w in
  match c with
  | InValue _ =>
      let t := clearInterval t in
      let pending := true in
      let t := resetInterval now t in
      let t := setMaxDelay now t in
      (mkWorker pending t o, false)
  | InClosed =>
      let t := clearInterval t in
      let t := clearInterval t in
      (mkWorker pending t o, true)
  | IntervalC =>
      let t := recvIntervalChan t in
      let o := send tt o in
      let pending := false in
      let t := clearMaxDelay t in
      (mkWorker pending t o, false)
  | MaxDelayC =>
      let t := recvMaxDelayChan t in
      let '(pending, o) :=
        if pending then (false, send tt o) else (pending, o) in
      let t := clearMaxDelay t in
      let t := clearInterval t in
      (mkWorker pending t o, false)
  end.

(** After the loop. *)
Definition New_exit (w : Worker bool unit) : Worker bool unit :=
  let o := if acc w then send tt (out w) else out w in
  mkWorker (acc w) (timers w) (close o).

Definition New_loop : Trace unit -> Worker bool unit -> Worker bool unit :=
  run_loop New_select New_exit.

Definition New (interval maxDelay : Z) (tr : Trace unit) : Worker bool unit :=
  New_loop tr (start false interval maxDelay).

(** *** NewGrouped *)

Section Values.
(** The dynamic values sent through [interface{}] channels. *)
Variable V : Type.

Definition iface : Type := option V.

Definition NewGrouped_select (now : Z) (c : Select iface)
           (w : Worker (list iface) (list iface))
  : Worker (list iface) (list iface) * bool :=
  let pending := acc w in
  let t := timers w in
  let o := out w in
  match c with
  | InValue v =>
      let t := clearInterval t in
      let pending := pending ++ [v] in
      let t := resetInterval now t in
      let t := setMaxDelay now t in
      (mkWorker pending t o, false)
  | InClosed =>
      let t := clearInterval t in
      let t := clearInterval t in
      (mkWorker pending t o, true)
  | IntervalC =>
      let t := recvIntervalChan t in
      let o := send pending o in
      let pending := [] in
      let t := clearMaxDelay t in
      (mkWorker pending t o, false)
  | MaxDelayC =>
      let t := recvMaxDelayChan t in
      let o := send pending o in
      let pending := [] in
      let t := clearMaxDelay t in
      let t := clearInterval t in
      (mkWorker pending t o, false)
  end.

Definition NewGrouped_exit (w : Worker (list iface) (list iface))
  : Worker (list iface) (list iface) :=
  let o := if negb (Nat.eqb (length (acc w)) 0)
           then send (acc w) (out w) else out w in
  mkWorker (acc w) (timers w) (close o).

Definition NewGrouped_loop : Trace iface -> Worker (list iface) (list iface) -> Worker (list iface) (list iface) :=
  run_loop NewGrouped_select NewGrouped_exit.

Definition NewGrouped (interval maxDelay : Z) (tr : Trace iface)
  : Worker (list iface) (list iface) :=
  NewGrouped_loop tr (start [] interval maxDelay).

(** *** NewLast *)

Definition is_nil (x : iface) : bool :=
  match x with None => true | Some _ => false end.

Definition NewLast_select (now : Z) (c : Select iface)
           (w : Worker iface iface) : Worker iface iface * bool :=
  let last := acc w in
  let t := timers w in
  let o := out w in
  match c with
  | InValue v =>
      let t := clearInterval t in
      let last := v in
      let t := resetInterval now t in
      let t := setMaxDelay now t in
      (mkWorker last t o, false)
  | InClosed =>
      let t := clearInterval t in
      let t := clearInterval t in
      (mkWorker last t o, true)
  | IntervalC =>
      let t := recvIntervalChan t in
      let o := send last o in
      let last := None in
      let t := clearMaxDelay t in
      (mkWorker last t o, false)
  | MaxDelayC =>
      let t := recvMaxDelayChan t in
      let o := if negb (is_nil last) then send last o else o in
      let last := None in
      let t := clearMaxDelay t in
      let t := clearInterval t in
      (mkWorker last t o, false)
  end.

Definition NewLast_exit (w : Worker iface iface) : Worker iface iface :=
  let o := if negb (is_nil (acc w)) then send (acc w) (out w) else out w in
  mkWorker (acc w) (timers w) (close o).

Definition NewLast_loop : Trace iface -> Worker iface iface -> Worker iface iface :=
  run_loop NewLast_select NewLast_exit.

Definition NewLast (interval maxDelay : Z) (tr : Trace iface)
  : Worker iface iface :=
  NewLast_loop tr (start None interval maxDelay).

End Values.

(** *** NewCounted *)

Definition NewCounted_select (now : Z) (c : Select unit) (w : Worker Z Z)
  : Worker Z Z * bool :=
  let count := acc w in
  let t := timers w in
  let o := out w in
  match c with
  | InValue _ =>
      let t := clearInterval t in
      let count := GoInt.incr count in
      let t := resetInterval now t in
      let t := setMaxDelay now t in
      (mkWorker count t o, false)
  | InClosed =>
      let t := clearInterval t in
      let t := clearInterval t in
      (mkWorker count t o, true)
  | IntervalC =>
      let t := recvIntervalChan t in
      let o := send count o in
      let count := 0 in
      let t := clearMaxDelay t in
      (mkWorker count t o, false)
  | MaxDelayC =>
      let t := recvMaxDelayChan t in
      let o := send count o in
      let count := 0 in
      let t := clearMaxDelay t in
      let t := clearInterval t in
      (mkWorker count t o, false)
  end.

Definition NewCounted_exit (w : Worker Z Z) : Worker Z Z :=
  let o := if negb (acc w =? 0) then send (acc w) (out w) else out w in
  mkWorker (acc w) (timers w) (close o).

Definition NewCounted_loop : Trace unit -> Worker Z Z -> Worker Z Z :=
  run_loop NewCounted_select NewCounted_exit.

Definition NewCounted (interval maxDelay : Z) (tr : Trace unit) : Worker Z Z :=
  NewCounted_loop tr (start 0 interval maxDelay).


(** *** What the runtime does with the timers *)

(** The timer calls of one iteration. They are the same in the four workers
    (lemmas [*_select_timers] below). *)
Definition timers_select (V : Type) (now : Z) (c : Select V) (t : debounceTimers)
  : debounceTimers :=
  match c with
  | InValue _ => setMaxDelay now (resetInterval now (clearInterval t))
  | InClosed => clearInterval (clearInterval t)
  | IntervalC => clearMaxDelay (recvIntervalChan t)
  | MaxDelayC => clearInterval (clearMaxDelay (recvMaxDelayChan t))
  end.

Definition is_break (V : Type) (c : Select V) : bool :=
  match c with
  | InClosed => true
  | _ => false
  end.

(** The case can be chosen by [select] at [now]: a timer case needs a value
    in the timer's channel. *)
Definition ready (V : Type) (now : Z) (c : Select V) (t : debounceTimers) : bool :=
  match c with
  | IntervalC => fired now (intervalTimer t)
  | MaxDelayC => fired now (maxDelayTimer t)
  | _ => true
  end.

(** The runtime can produce the trace: each case was ready when taken, and
    no case is taken after the goroutine has left the loop. *)
Fixpoint enabled (V : Type) (tr : Trace V) (t : debounceTimers) : bool :=
  match tr with
  | [] => true
  | (now, c) :: tr' =>
      ready now c t &&
      (if is_break c
       then match tr' with [] => true | _ :: _ => false end
       else enabled tr' (timers_select now c t))
  end.

(** The instant at which a timer delivers, if it still can. *)
Definition due (tm : option Timer) : option Z :=
  match tm with
  | Some x => if drained x then None else Some (deadline x)
  | None => None
  end.

Definition not_after (now : Z) (d : option Z) : bool :=
  match d with
  | Some x => now <=? x
  | None => true
  end.

(** The trace is chronological and no iteration is late: the goroutine is
    never held up outside [select] (its consumer is always receiving), so an
    iteration happens no later than the first instant at which a timer can
    deliver. *)
Fixpoint timely (V : Type) (clock : Z) (tr : Trace V) (t : debounceTimers) : bool :=
  match tr with
  | [] => true
  | (now, c) :: tr' =>
      (clock <=? now) &&
      not_after now (due (intervalTimer t)) &&
      not_after now (due (maxDelayTimer t)) &&
      timely now tr' (timers_select now c t)
  end.

Definition is_input (V : Type) (e : Z * Select V) : bool :=
  match snd e with
  | InValue _ => true
  | InClosed => true
  | _ => false
  end.

(** The input schedule of a trace: what the producer did, and when. *)
Definition inputs (V : Type) (tr : Trace V) : Trace V := filter (@is_input V) tr.

(** The values received, in arrival order. *)
Fixpoint received (V : Type) (tr : Trace V) : list V :=
  match tr with
  | [] => []
  | (_, InValue v) :: tr' => v :: received tr'
  | (_, InClosed) :: _ => []
  | _ :: tr' => received tr'
  end.

(** The same schedule fed to a worker whose input is [struct{}]. *)
Definition erase_case (V : Type) (c : Select V) : Select unit :=
  match c with
  | InValue _ => InValue tt
  | InClosed => InClosed
  | IntervalC => IntervalC
  | MaxDelayC => MaxDelayC
  end.

Definition erase (V : Type) (tr : Trace V) : Trace unit :=
  map (fun e => (fst e, erase_case (snd e))) tr.

(** [n] inputs sent one after the other, all at instant [now]. *)
Definition burst (V : Type) (now : Z) (v : V) (n : nat) : Trace V :=
  repeat (now, InValue v) n.


(** *** Vocabulary of the statements *)

(** The timers after a trace. *)
Definition timers_run (V : Type) (tr : Trace V) (t : debounceTimers) : debounceTimers :=
  fold_left (fun t e => timers_select (fst e) (snd e) t) tr t.

(** No case of the trace leaves the loop. *)
Definition no_close (V : Type) (tr : Trace V) : bool :=
  forallb (fun e => negb (is_break (snd e))) tr.

(** A deadline is armed: a timer of the worker may still deliver. *)
Definition armed (t : debounceTimers) : bool :=
  running (intervalTimer t) || running (maxDelayTimer t).

(** The timers of a worker that has just been constructed. *)
Definition timers0 (interval maxDelay : Z) : debounceTimers :=
  mkTimers interval maxDelay None None.


(** Closing the input of a worker that is in its loop: one final value is
    sent exactly when the accumulator is not empty, the output is closed, and
    it was open until then. [run] is the worker from its construction,
    [nonempty] the test the code makes on its accumulator and [value] what it
    sends for it. *)
Definition final_flush (A T V : Type) (run : Trace V -> Worker A T)
           (nonempty : A -> bool) (value : A -> T) : Prop :=
  forall (pre : Trace V) (now : Z) (rest : Trace V),
    no_close pre = true ->
    let w := run pre in
    let w' := run (pre ++ (now, InClosed) :: rest) in
    closed (out w) = false /\
    sent (out w') = sent (out w) ++ (if nonempty (acc w) then [value (acc w)] else []) /\
    closed (out w') = true.


(** [len(l)], as a mathematical integer. *)
Definition len (V : Type) (l : list V) : Z := Z.of_nat (length l).

(** The last element of a burst (nil for an empty one). *)
Definition last_of (V : Type) (l : list (iface V)) : iface V := last l None.

(** What the signal worker keeps of a burst. *)
Definition pending_flag (V : Type) (l : list V) : bool :=
  match l with [] => false | _ :: _ => true end.


(** The worker flushes at the case [e] taken after the trace [pre]: it sends
    one value, and no deadline is left armed. *)
Definition flushed_at (A T V : Type) (run : Trace V -> Worker A T)
           (pre : Trace V) (e : Z * Select V) : Prop :=
  (exists x, sent (out (run (pre ++ [e]))) = sent (out (run pre)) ++ [x]) /\
  armed (timers (run (pre ++ [e]))) = false.

(** The max-delay case taken over a pending accumulator sends its value,
    resets it and leaves both timers nil. *)
Definition max_delay_flushes (A T V : Type)
           (body : Z -> Select V -> Worker A T -> Worker A T * bool)
           (nonempty : A -> bool) (value : A -> T) (empty : A) : Prop :=
  forall (now : Z) (w : Worker A T),
    nonempty (acc w) = true ->
    let w' := fst (body now MaxDelayC w) in
    sent (out w') = sent (out w) ++ [value (acc w)] /\
    acc w' = empty /\
    intervalTimer (timers w') = None /\
    maxDelayTimer (timers w') = None.

(** A burst cannot hold the output back for longer than [maxDelay]: if an
    input arrives at [tau0] with no max-delay timer set, and the run goes on
    to a case taken later than [tau0 + maxDelay], then in between, no later
    than [tau0 + maxDelay], the worker has flushed. [adm] restricts the
    values sent by the producer. *)
Definition max_delay_bounds (A T V : Type) (run : Trace V -> Worker A T)
           (t0 : debounceTimers) (adm : V -> Prop) : Prop :=
  forall (pre : Trace V) (tau0 : Z) (v : V) (mid : Trace V) (tau1 : Z)
         (c : Select V) (clock : Z),
    let tr := pre ++ (tau0, InValue v) :: mid ++ [(tau1, c)] in
    enabled tr t0 = true ->
    timely clock tr t0 = true ->
    (forall now u, In (now, InValue u) tr -> adm u) ->
    maxDelayTimer (timers (run pre)) = None ->
    tau0 + maxDelay t0 < tau1 ->
    exists (m1 : Trace V) (tauk : Z) (ck : Select V) (m2 : Trace V),
      mid = m1 ++ (tauk, ck) :: m2 /\
      tauk <= tau0 + maxDelay t0 /\
      flushed_at run (pre ++ (tau0, InValue v) :: m1) (tauk, ck).


(** The worker never has a max-delay timer. *)
Definition never_armed (A T V : Type) (run : Trace V -> Worker A T) : Prop :=
  forall tr : Trace V, maxDelayTimer (timers (run tr)) = None.

(** The worker sends only when the input is closed, or at the interval case
    taken right after an input that is at least [interval] old. *)
Definition flush_only_when_quiet (A T V : Type) (run : Trace V -> Worker A T)
           (t0 : debounceTimers) : Prop :=
  forall (pre : Trace V) (now : Z) (c : Select V),
    enabled (pre ++ [(now, c)]) t0 = true ->
    sent (out (run (pre ++ [(now, c)]))) <> sent (out (run pre)) ->
    c = InClosed \/
    (c = IntervalC /\
     exists (pre' : Trace V) (tau : Z) (v : V),
       pre = pre' ++ [(tau, InValue v)] /\ tau + Z.max (interval t0) 0 <= now).

(** The schedule of the test of the counted worker without max delay: ten
    events one millisecond apart from 0, ten more from 12 ms on, and the close
    right after the last one. *)
Definition ms : Z := 1000000.

Definition ticks (from n : nat) : Trace unit :=
  map (fun i => (Z.of_nat i * ms, InValue tt)) (seq from n).

Definition two_bursts : Trace unit :=
  ticks 0 10 ++ ticks 12 10 ++ [(21 * ms, InClosed)].

(** Ten events three milliseconds apart from 0 and, after a pause of six,
    ten more from 33 ms on, and the close one millisecond after the last. *)
Definition sparse_schedule : Trace unit :=
  map (fun k => (Z.of_nat (3 * k) * ms, InValue tt)) (seq 0 10) ++
  map (fun k => (Z.of_nat (3 * k) * ms, InValue tt)) (seq 11 10) ++
  [(61 * ms, InClosed)].

(** An event at [i] ms and the interval case taken 2 ms later. *)
Definition tick_then_timer (i : nat) : Trace unit :=
  [(Z.of_nat i * ms, InValue tt); ((Z.of_nat i + 2) * ms, IntervalC)].

(** A run on that schedule, each interval case taken at its deadline (the
    interval is 2 ms); the close comes before the last deadline. *)
Definition sparse_run : Trace unit :=
  flat_map (fun k => tick_then_timer (3 * k)) (seq 0 10) ++
  flat_map (fun k => tick_then_timer (3 * k)) (seq 11 9) ++
  [(60 * ms, InValue tt); (61 * ms, InClosed)].


(** *** The pending inputs *)

(** The inputs at the head of a trace, up to its first case that is not an
    input. *)
Fixpoint leading_values (V : Type) (tr : Trace V) : list V :=
  match tr with
  | (_, InValue v) :: tr' => v :: leading_values tr'
  | _ => []
  end.

(** The pending inputs of a worker in its loop: those received since the
    last timer case (all of them when no timer case was taken), in arrival
    order. It is read off the trace, not off the worker. *)
Definition since_flush (V : Type) (tr : Trace V) : list V :=
  rev (leading_values (rev tr)).

(** One value, made of the pending inputs, when there are some. *)
Definition one_if_any (V T : Type) (value : list V -> T) (p : list V) : option T :=
  match p with
  | [] => None
  | _ :: _ => Some (value p)
  end.

(** One value, the latest pending input, when it is not nil. *)
Definition latest_if_not_nil (V : Type) (p : list (iface V)) : option (iface V) :=
  if is_nil (last_of p) then None else Some (last_of p).

(** Closing the input of a worker that is in its loop, in terms of what the
    worker has received: with [p] the pending inputs, the worker sends the
    value [flushed p] if there is one and nothing otherwise, then closes its
    output, which was open until then. [fits] bounds the pending inputs. *)
Definition close_flushes (A T V : Type) (run : Trace V -> Worker A T)
           (fits : list V -> Prop) (flushed : list V -> option T) : Prop :=
  forall (pre : Trace V) (now : Z) (rest : Trace V),
    no_close pre = true ->
    fits (since_flush pre) ->
    let w := run pre in
    let w' := run (pre ++ (now, InClosed) :: rest) in
    closed (out w) = false /\
    sent (out w') =
      sent (out w) ++ (match flushed (since_flush pre) with
                       | Some x => [x]
                       | None => []
                       end) /\
    closed (out w') = true.


(** *** Bursts and pauses *)

(** The timers of a worker constructed without max delay and with the
    interval [i]: no max-delay timer is set. *)
Definition plain (i : Z) (t : debounceTimers) : Prop :=
  interval t = i /\ maxDelay t = 0 /\ maxDelayTimer t = None.

(** Events sent at the instants [taus], in this order. *)
Definition sends (taus : list Z) : Trace unit :=
  map (fun tau => (tau, InValue tt)) taus.

(** Each instant of [taus] comes less than [interval] after the one before
    it, [prev] for the first. *)
Fixpoint dense (interval prev : Z) (taus : list Z) : Prop :=
  match taus with
  | [] => True
  | tau :: rest => tau < prev + interval /\ dense interval tau rest
  end.

(** The schedule of a producer that sends a burst at the instants
    [a :: b1], pauses, sends a second burst at the instants [c :: b2], and
    closes the channel at [stop]. *)
Definition burst_pause_burst (a : Z) (b1 : list Z) (c : Z) (b2 : list Z) (stop : Z)
  : Trace unit :=
  sends (a :: b1) ++ sends (c :: b2) ++ [(stop, InClosed)].

(** The events of each burst are less than [interval] apart, and the pause
    between the bursts exceeds [interval]. *)
Definition paused_once (interval a : Z) (b1 : list Z) (c : Z) (b2 : list Z) : Prop :=
  dense interval a b1 /\ last b1 a + interval < c /\ dense interval c b2.

End Debounce.

(* ------------------------------------------------------------------------ *)
(** ** pkg/watch *)

Module Watch.

(** *** Paths and the filesystem *)

(** A path in the form [filepath.Clean] gives it: whether it is rooted, and
    its elements below the root [/] (or below [.] when it is not rooted). *)
Record Path : Type := mkPath { isAbs : bool; elems : list String.string }.

Definition root : Path := mkPath true [].

(** [filepath.Dir]: all but the last element; the root and [.] are their own
    parent. *)
Definition Dir (p : Path) : Path := mkPath (isAbs p) (removelast (elems p)).

Fixpoint elems_eqb (a b : list String.string) : bool :=
  match a, b with
  | [], [] => true
  | x :: a', y :: b' => String.eqb x y && elems_eqb a' b'
  | _, _ => false
  end.

(** [==] on paths. *)
Definition path_eqb (p q : Path) : bool :=
  Bool.eqb (isAbs p) (isAbs q) && elems_eqb (elems p) (elems q).

(** [os.FileInfo]; [ident] stands for the device and inode numbers, which
    is all that [os.SameFile] compares. *)
Record FileInfo : Type := mkInfo {
  IsDir : bool;
  ident : Z;
  Size : Z;
  ModTime : Z
}.

(** The filesystem at one instant, as [os.Stat] sees it: [None] is a nil
    [FileInfo] with an error. *)
Definition FS : Type := Path -> option FileInfo.

(** [os.SameFile]; a nil argument gives [false]. *)
Definition SameFile (a b : option FileInfo) : bool :=
  match a, b with
  | Some x, Some y => ident x =? ident y
  | _, _ => false
  end.

Definition is_dir (fs : FS) (p : Path) : bool :=
  match fs p with
  | Some info => IsDir info
  | None => false
  end.

(** *** fsnotify *)

(** [fsnotify.Op], a bit mask. *)
Definition Create : Z := 1.
Definition Write : Z := 2.
Definition Remove : Z := 4.
Definition Rename : Z := 8.
Definition Chmod : Z := 16.

Record Event : Type := mkEvent { Name : Path; Op : Z }.

(** [*fsnotify.Watcher]: the paths it watches. [Add] fails on a path that
    does not exist. *)
Definition Watcher : Type := list Path.

Definition Add (fs : FS) (p : Path) (n : Watcher) : Watcher * bool :=
  match fs p with
  | Some _ => (p :: n, true)
  | None => (n, false)
  end.

Definition RemoveWatch (p : Path) (n : Watcher) : Watcher :=
  filter (fun q => negb (path_eqb p q)) n.

(** *** The watcher *)

Inductive EventType : Type := Created | Updated | Deleted.

Record FileWatcher : Type := mkWatcher {
  filename : Path;
  fileInfo : option FileInfo;
  watcher : Watcher;
  updateCh : Chan EventType
}.

(** [NewFileWatcherWithContext], from the absolute form of the file name
    (the result of [filepath.Abs]) and the filesystem at that instant. *)
Definition NewFileWatcher (fs : FS) (target : Path) : FileWatcher :=
  let info := fs target in
  let fi := match info with
            | Some i => if negb (IsDir i) then info else None
            | None => None
            end in
  mkWatcher target fi [] make.

Definition Info (w : FileWatcher) : option FileInfo := fileInfo w.

Definition handleEvent (fs : FS) (w : FileWatcher) : FileWatcher :=
  mkWatcher (filename w) (fs (filename w)) (watcher w) (send Updated (updateCh w)).

Definition handleCreateEvent (fs : FS) (w : FileWatcher) : FileWatcher :=
  let newFileInfo := fs (filename w) in
  match newFileInfo, fileInfo w with
  | Some _, None =>
      mkWatcher (filename w) newFileInfo (watcher w) (send Created (updateCh w))
  | _, _ => w
  end.

Definition handleDeleteEvent (fs : FS) (w : FileWatcher) : FileWatcher :=
  let newFileInfo := fs (filename w) in
  match newFileInfo, fileInfo w with
  | None, Some _ =>
      mkWatcher (filename w) None (watcher w) (send Deleted (updateCh w))
  | _, _ => w
  end.

(** [watchLocation]: the loop has no bound of its own, so it runs on fuel;
    [None] is a loop that has not returned yet. *)
Fixpoint watchLocation_loop (fuel : nat) (fs : FS) (watchPath watchTarget : Path)
  : option (Path * Path) :=
  match fuel with
  | O => None
  | S fuel' =>
      if is_dir fs watchPath
      then Some (watchPath, watchTarget)
      else watchLocation_loop fuel' fs (Dir watchPath) watchPath
  end.

Definition watchLocation (fuel : nat) (fs : FS) (path : Path) : option (Path * Path) :=
  watchLocation_loop fuel fs path path.

(** [watchParents], on fuel as well; the errors of [Add] are dropped. *)
Fixpoint watchParents (fuel : nat) (fs : FS) (n : Watcher) (path : Path)
  : option Watcher :=
  match fuel with
  | O => None
  | S fuel' =>
      let next := Dir path in
      if path_eqb next path
      then Some n
      else watchParents fuel' fs (fst (Add fs next n)) next
  end.

(** Fuel that is enough for both walks whenever they end at all
    (lemmas [watchLocation_fuel] and [watchParents_total]). *)
Definition walk_fuel (p : Path) : nat := S (length (elems p)).

(** [n] steps upward from [p]. *)
Definition up (n : nat) (p : Path) : Path := Nat.iter n Dir p.

(** *** The goroutine [run] *)

(** Where the goroutine is: at the top of the outer loop, blocked in the
    [select] of the watch loop (with the locals of the outer iteration), or
    returned. *)
Inductive Pc : Type :=
| AtOuter
| AtSelect (path target : Path) (targetStat : option FileInfo)
| Returned.

Record State : Type := mkState { fw : FileWatcher; pc : Pc }.

(** What the goroutine meets next: the filesystem as it is when the outer
    loop resolves the location, or the case taken by [select] together with
    the filesystem as the handlers see it. *)
Inductive Env : Type :=
| Resolve (fs : FS)
| OnEvent (fs : FS) (ev : Event)
| OnError
| OnDone.

Definition with_watcher (n : Watcher) (w : FileWatcher) : FileWatcher :=
  mkWatcher (filename w) (fileInfo w) n (updateCh w).

(** The outer loop, from its top to the [select]. *)
Definition resolve (fs : FS) (w : FileWatcher) : option State :=
  match watchLocation (walk_fuel (filename w)) fs (filename w) with
  | None => None
  | Some (path, target) =>
      let targetStat := fs target in
      let '(n, ok) := Add fs path (watcher w) in
      if negb ok
      then Some (mkState (with_watcher n w) AtOuter)
      else
        match watchParents (walk_fuel path) fs n path with
        | None => None
        | Some n' => Some (mkState (with_watcher n' w) (AtSelect path target targetStat))
        end
  end.

(** [break watchloop]: the watch is removed and the outer loop starts over. *)
Definition break_watchloop (path : Path) (w : FileWatcher) : State :=
  mkState (with_watcher (RemoveWatch path (watcher w)) w) AtOuter.

(** [case ev := <-w.watcher.Events] *)
Definition on_event (fs : FS) (ev : Event) (w : FileWatcher)
           (path target : Path) (targetStat : option FileInfo) : State :=
  if negb (Z.land (Op ev) Remove =? 0) then
    let w := handleDeleteEvent fs w in
    break_watchloop path w
  else if negb (Z.land (Op ev) Create =? 0) then
    let w := handleCreateEvent fs w in
    if negb (path_eqb target (filename w))
    then break_watchloop path w
    else mkState w (AtSelect path target targetStat)
  else
    let evTargetStat := fs (Name ev) in
    if SameFile targetStat evTargetStat then
      if negb (path_eqb target (filename w))
      then break_watchloop path w
      else mkState (handleEvent fs w) (AtSelect path target targetStat)
    else mkState w (AtSelect path target targetStat).

(** One step of [run]; [None] when the goroutine cannot meet [e] where it
    is, or never gets out of a walk. *)
Definition step (st : State) (e : Env) : option State :=
  match pc st, e with
  | AtOuter, Resolve fs => resolve fs (fw st)
  | AtSelect path target targetStat, OnEvent fs ev =>
      Some (on_event fs ev (fw st) path target targetStat)
  | AtSelect path _ _, OnError => Some (break_watchloop path (fw st))
  | AtSelect _ _ _, OnDone =>
      let w := fw st in
      Some (mkState (mkWatcher (filename w) (fileInfo w) []
                               (close (updateCh w))) Returned)
  | _, _ => None
  end.

Fixpoint run (es : list Env) (st : State) : option State :=
  match es with
  | [] => Some st
  | e :: es' =>
      match step st e with
      | Some st' => run es' st'
      | None => None
      end
  end.

(** The events a consumer has read so far. *)
Definition events (st : State) : list EventType := sent (updateCh (fw st)).


(** *** Filesystems of the package's tests *)

(** A filesystem given by its entries. *)
Fixpoint lookup (entries : list (Path * FileInfo)) (p : Path) : option FileInfo :=
  match entries with
  | [] => None
  | (q, info) :: rest => if path_eqb q p then Some info else lookup rest p
  end.

Definition fs_of (entries : list (Path * FileInfo)) : FS := lookup entries.

Definition abs (l : list String.string) : Path := mkPath true l.

Definition d_path : Path := abs ["path"%string].
Definition d_to : Path := abs ["path"%string; "to"%string].
Definition f_target : Path := abs ["path"%string; "to"%string; "file.yaml"%string].
Definition f_other : Path := abs ["path"%string; "to"%string; "other_file.yaml"%string].

Definition dirs : list (Path * FileInfo) :=
  [(root, mkInfo true 1 4096 0); (d_path, mkInfo true 2 4096 0);
   (d_to, mkInfo true 3 4096 0)].

(** [path/to] exists, the target does not. *)
Definition fs_absent : FS := fs_of dirs.

(** The target has just been created, empty. *)
Definition fs_created : FS := fs_of ((f_target, mkInfo false 10 0 5) :: dirs).

(** Four bytes have been appended to the target. *)
Definition fs_written : FS := fs_of ((f_target, mkInfo false 10 4 6) :: dirs).

(** A sibling of the target has been created. *)
Definition fs_sibling : FS :=
  fs_of ((f_other, mkInfo false 11 0 7) :: (f_target, mkInfo false 10 4 6) :: dirs).

(** Only [path] exists. *)
Definition fs_shallow : FS :=
  fs_of [(root, mkInfo true 1 4096 0); (d_path, mkInfo true 2 4096 0)].


(** *** Vocabulary of the statements *)

(** The same event twice in a row, for the two events that report a
    transition. *)
Definition stutter (x y : EventType) : bool :=
  match x, y with
  | Created, Created => true
  | Deleted, Deleted => true
  | _, _ => false
  end.

Fixpoint no_stutter (l : list EventType) : bool :=
  match l with
  | [] => true
  | x :: r =>
      match r with
      | y :: _ => negb (stutter x y) && no_stutter r
      | [] => true
      end
  end.

(** What one step of the goroutine does to the stream and to the recorded
    [fileInfo]: nothing is sent and [fileInfo] stays, or exactly one event is
    sent. [Created] goes with [fileInfo] nil before and the target present
    (and recorded) after; [Deleted] with [fileInfo] recorded before and the
    target absent (and [fileInfo] nil) after; [Updated] refreshes
    [fileInfo]. *)
Definition transition (st : State) (e : Env) (st' : State) : Prop :=
  filename (fw st') = filename (fw st) /\
  ((events st' = events st /\ fileInfo (fw st') = fileInfo (fw st)) \/
   (events st' = events st ++ [Created] /\
    fileInfo (fw st) = None /\ fileInfo (fw st') <> None /\
    exists fs ev, e = OnEvent fs ev /\ fileInfo (fw st') = fs (filename (fw st))) \/
   (events st' = events st ++ [Updated] /\
    exists fs ev, e = OnEvent fs ev /\ fileInfo (fw st') = fs (filename (fw st))) \/
   (events st' = events st ++ [Deleted] /\
    fileInfo (fw st) <> None /\ fileInfo (fw st') = None /\
    exists fs ev, e = OnEvent fs ev /\ fs (filename (fw st)) = None)).

(** The last event sent. *)
Definition last_event (l : list EventType) : option EventType :=
  last (map Some l) None.

(** The recorded [fileInfo] agrees with the last transition reported. *)
Definition recorded (st : State) : Prop :=
  match last_event (events st) with
  | Some Created => fileInfo (fw st) <> None
  | Some Deleted => fileInfo (fw st) = None
  | _ => True
  end.

(** A watcher that has just been constructed, its goroutine at the top of
    the outer loop. *)
Definition init (fs : FS) (target : Path) : State :=
  mkState (NewFileWatcher fs target) AtOuter.

End Watch.

(* ------------------------------------------------------------------------ *)
(** ** More vocabulary for the debounce workers *)

Module DebounceSpec.
Import Debounce.

(** The sum of the counts sent. *)
Definition total (l : list Z) : Z := fold_right Z.add 0 l.

(** [s] is [l] with some elements left out. *)
Fixpoint subseq (X : Type) (s l : list X) : Prop :=
  match s, l with
  | [], _ => True
  | _ :: _, [] => False
  | x :: s', y :: l' => (x = y /\ subseq s' l') \/ subseq s l'
  end.

Definition is_value (V : Type) (e : Z * Select V) : Prop :=
  exists v, snd e = InValue v.

(** The interval case taken at [now] after the trace [pre] comes right after
    an input that is at least [interval] old. *)
Definition quiet_since (V : Type) (interval : Z) (pre : Trace V) (now : Z) : Prop :=
  exists (pre' : Trace V) (tau : Z) (v : V),
    pre = pre' ++ [(tau, InValue v)] /\ tau + Z.max interval 0 <= now.

(** The max-delay case taken at [now] after the trace [pre] ends a burst
    that began at least [maxDelay] ago: the input at [tau] came when no
    max-delay timer was set, and only inputs followed it. *)
Definition burst_since (V : Type) (t0 : debounceTimers) (pre : Trace V) (now : Z)
  : Prop :=
  exists (p1 : Trace V) (tau : Z) (v : V) (p2 : Trace V),
    pre = p1 ++ (tau, InValue v) :: p2 /\
    Forall (@is_value V) p2 /\
    due (maxDelayTimer (timers_run p1 t0)) = None /\
    tau + Z.max (maxDelay t0) 0 <= now.

(** The worker sends only when its input is closed, when the interval has
    elapsed since the last input, or when the burst is [maxDelay] old. *)
Definition sends_only_when_due (A T V : Type) (run : Trace V -> Worker A T)
           (t0 : debounceTimers) : Prop :=
  forall (pre : Trace V) (now : Z) (c : Select V),
    enabled (pre ++ [(now, c)]) t0 = true ->
    sent (out (run (pre ++ [(now, c)]))) <> sent (out (run pre)) ->
    c = InClosed \/
    (c = IntervalC /\ quiet_since (interval t0) pre now) \/
    (c = MaxDelayC /\ burst_since t0 pre now).

End DebounceSpec.

(* ------------------------------------------------------------------------ *)
(** ** More of the watch package *)

Module WatchSpec.
Import Watch.

(** [EventType] as the integer it is ([iota + 1]). *)
Definition code (e : EventType) : Z :=
  match e with
  | Created => 1
  | Updated => 2
  | Deleted => 3
  end.

Definition eventTypes : list String.string :=
  ["Invalid"%string; "Created"%string; "Updated"%string; "Deleted"%string].

(** [EventType.String], on any integer of the type; [None] is the panic of
    an index out of range. *)
Definition String (e : Z) : option String.string :=
  if e <? 0 then None else nth_error eventTypes (Z.to_nat e).

(** The goroutine waits for notifications with the directory it anchors on
    registered, that directory and the expected child being on the way up
    from the watched file name, one step apart (or both the file name). *)
Definition resolved (st : State) : Prop :=
  match pc st with
  | AtSelect path target _ =>
      In path (watcher (fw st)) /\
      exists n,
        path = up n (filename (fw st)) /\
        (n = O -> target = filename (fw st)) /\
        (forall j, n = S j -> target = up j (filename (fw st)))
  | _ => True
  end.

(** The first event of a stream, against what the watcher recorded when it
    was constructed. *)
Definition first_event_fits (info0 : option FileInfo) (l : list EventType) : Prop :=
  match l with
  | [] => True
  | e :: _ =>
      match info0 with
      | None => e <> Deleted
      | Some _ => e <> Created
      end
  end.

End WatchSpec.

Module WatchRuns.
Import Watch.

(** A notification that is not a removal. *)
Definition not_removal (e : Env) : Prop :=
  exists fs ev, e = OnEvent fs ev /\ Z.land (Op ev) Remove = 0.

End WatchRuns.

(* ------------------------------------------------------------------------ *)
(** ** The configuration loader *)

Module Config.

(** [time.Millisecond] and [time.Second], in nanoseconds. *)
Definition Millisecond : Z := 1000000.
Definition Second : Z := 1000 * Millisecond.

Definition DefaultDebounceInterval : Z := 1000 * Millisecond.
Definition DefaultDebounceMaxDelay : Z := 3 * Second.

Section Loader.

(** What the loader does not own: the files, the memory in which the
    configuration objects live, whatever the handlers keep. *)
Variable World : Type.

(** An [interface{}] holding a pointer to a configuration struct. *)
Variable Ref : Type.
Variable nil : Ref.

(** An [error] that is not nil. *)
Variable Err : Type.

(** The content of a file. *)
Variable Bytes : Type.

(** The collaborators: [cloneStruct] (reflection and [copier.Copy]),
    [ioutil.ReadFile], and [yaml.Unmarshal] with the option
    [yaml.DisallowUnknownFields] or without it. *)
Variable cloneStruct : Ref -> World -> Ref * World.
Variable ReadFile : Watch.Path -> World -> Bytes + Err.
Variable Unmarshal : Bytes -> Ref -> bool -> World -> option Err * World.

Definition ReloadFn : Type := Ref -> World -> World.
Definition ErrorFn : Type := Err -> World -> World.
Definition ValidationFn : Type := Ref -> World -> (Ref * option Err) * World.

Record Loader : Type := mkLoader {
  filename : Watch.Path;
  defaultConfig : Ref;
  config : option Ref;              (* atomic.Value; [None] before any Store *)
  watcher : Watch.FileWatcher;
  reloadHandlers : list ReloadFn;
  errorHandlers : list ErrorFn;
  validationHandlers : list ValidationFn;
  strictParsing : bool;
  keepLastValid : bool;
  debounceInterval : Z;
  debounceMaxDelay : Z
}.

Definition Option : Type := Loader -> Loader.

Definition ReloadHandler (f : ReloadFn) : Option := fun c =>
  mkLoader (filename c) (defaultConfig c) (config c) (watcher c)
           (reloadHandlers c ++ [f]) (errorHandlers c) (validationHandlers c)
           (strictParsing c) (keepLastValid c) (debounceInterval c) (debounceMaxDelay c).

Definition ErrorHandler (f : ErrorFn) : Option := fun c =>
  mkLoader (filename c) (defaultConfig c) (config c) (watcher c)
           (reloadHandlers c) (errorHandlers c ++ [f]) (validationHandlers c)
           (strictParsing c) (keepLastValid c) (debounceInterval c) (debounceMaxDelay c).

Definition ValidationHandler (f : ValidationFn) : Option := fun c =>
  mkLoader (filename c) (defaultConfig c) (config c) (watcher c)
           (reloadHandlers c) (errorHandlers c) (validationHandlers c ++ [f])
           (strictParsing c) (keepLastValid c) (debounceInterval c) (debounceMaxDelay c).

Definition OptStrictParsing : Option := fun c =>
  mkLoader (filename c) (defaultConfig c) (config c) (watcher c)
           (reloadHandlers c) (errorHandlers c) (validationHandlers c)
           true (keepLastValid c) (debounceInterval c) (debounceMaxDelay c).

Definition OptKeepLatestOnFailure : Option := fun c =>
  mkLoader (filename c) (defaultConfig c) (config c) (watcher c)
           (reloadHandlers c) (errorHandlers c) (validationHandlers c)
           (strictParsing c) true (debounceInterval c) (debounceMaxDelay c).

Definition OptDebounceInterval (v : Z) : Option := fun c =>
  mkLoader (filename c) (defaultConfig c) (config c) (watcher c)
           (reloadHandlers c) (errorHandlers c) (validationHandlers c)
           (strictParsing c) (keepLastValid c) v (debounceMaxDelay c).

Definition OptDebounceMaxDelay (v : Z) : Option := fun c =>
  mkLoader (filename c) (defaultConfig c) (config c) (watcher c)
           (reloadHandlers c) (errorHandlers c) (validationHandlers c)
           (strictParsing c) (keepLastValid c) (debounceInterval c) v.

(** [c.config.Store(cfg)] *)
Definition Store (cfg : Ref) (c : Loader) : Loader :=
  mkLoader (filename c) (defaultConfig c) (Some cfg) (watcher c)
           (reloadHandlers c) (errorHandlers c) (validationHandlers c)
           (strictParsing c) (keepLastValid c) (debounceInterval c) (debounceMaxDelay c).

Definition Get (c : Loader) : option Ref := config c.

Definition GetDefaults (c : Loader) : Ref := defaultConfig c.

Definition loadConfigFile (c : Loader) (file : Watch.Path) (cfg : Ref) (w : World)
  : option Err * World :=
  match ReadFile file w with
  | inr err => (Some err, w)
  | inl content => Unmarshal content cfg (strictParsing c) w
  end.

Definition notifyReloadHandlers (c : Loader) (cfg : Ref) (w : World) : World :=
  fold_left (fun w handler => handler cfg w) (reloadHandlers c) w.

Definition handleError (c : Loader) (err : Err) (w : World) : World :=
  fold_left (fun w handler => handler err w) (errorHandlers c) w.

(** The loop of [applyValidations] over the handlers that are left. *)
Fixpoint validate_all (hs : list ValidationFn) (cfg : Ref) (w : World)
  : (Ref * option Err) * World :=
  match hs with
  | [] => ((cfg, None), w)
  | validate :: hs' =>
      let '((cfg', err), w') := validate cfg w in
      match err with
      | Some e => ((nil, Some e), w')
      | None => validate_all hs' cfg' w'
      end
  end.

Definition applyValidations (c : Loader) (cfg : Ref) (w : World)
  : (Ref * option Err) * World :=
  validate_all (validationHandlers c) cfg w.

Definition reloadConfig (c : Loader) (w : World) : Loader * World :=
  let '(cfg, w) := cloneStruct (defaultConfig c) w in
  let '(err, w) := loadConfigFile c (filename c) cfg w in
  match err with
  | Some e =>
      let w := handleError c e w in
      if keepLastValid c then (c, w)
      else
        let '(cfg, w) := cloneStruct (defaultConfig c) w in
        let '(_, w) := applyValidations c cfg w in
        let c := Store cfg c in
        (c, notifyReloadHandlers c cfg w)
  | None =>
      let '(_, w) := applyValidations c cfg w in
      let c := Store cfg c in
      (c, notifyReloadHandlers c cfg w)
  end.

(** [NewLoader], once the file name has been made absolute, the watcher
    created and the defaults normalized to a pointer; the goroutines it
    starts are not part of this function. *)
Definition NewLoader (file : Watch.Path) (fw : Watch.FileWatcher)
           (defaults : Ref) (opts : list Option) (w : World) : Loader * World :=
  let c := mkLoader file defaults None fw [] [] [] false false
                    DefaultDebounceInterval DefaultDebounceInterval in
  let c := fold_left (fun c opt => opt c) opts c in
  let '(cfg, w) := cloneStruct (defaultConfig c) w in
  let '(err, w) := loadConfigFile c file cfg w in
  let w := match err with
           | Some e => handleError c e w
           | None => w
           end in
  let '(_, w) := applyValidations c cfg w in
  (Store cfg c, w).

(** Whether [NewLoader] puts a debounce stage between the watcher and the
    reloads. *)
Definition debounced (c : Loader) : bool := negb (debounceInterval c =? 0).

(** A sequence of reloads. *)
Fixpoint reloads (n : nat) (c : Loader) (w : World) : Loader * World :=
  match n with
  | O => (c, w)
  | S n' => let '(c', w') := reloadConfig c w in reloads n' c' w'
  end.

(** The options of the package, by name. *)
Inductive Opt : Type :=
| OnReload (f : ReloadFn)
| OnError (f : ErrorFn)
| OnValidation (f : ValidationFn)
| Strict
| KeepLatest
| Interval (v : Z)
| MaxDelay (v : Z).

Definition option_of (o : Opt) : Option :=
  match o with
  | OnReload f => ReloadHandler f
  | OnError f => ErrorHandler f
  | OnValidation f => ValidationHandler f
  | Strict => OptStrictParsing
  | KeepLatest => OptKeepLatestOnFailure
  | Interval v => OptDebounceInterval v
  | MaxDelay v => OptDebounceMaxDelay v
  end.

(** The loop of [NewLoader] over its options. *)
Definition configure (os : list Opt) (c : Loader) : Loader :=
  fold_left (fun c opt => opt c) (map option_of os) c.

(** What a list of options says of each setting. *)
Fixpoint reload_fns (os : list Opt) : list ReloadFn :=
  match os with
  | [] => []
  | OnReload f :: r => f :: reload_fns r
  | _ :: r => reload_fns r
  end.

Fixpoint error_fns (os : list Opt) : list ErrorFn :=
  match os with
  | [] => []
  | OnError f :: r => f :: error_fns r
  | _ :: r => error_fns r
  end.

Fixpoint validation_fns (os : list Opt) : list ValidationFn :=
  match os with
  | [] => []
  | OnValidation f :: r => f :: validation_fns r
  | _ :: r => validation_fns r
  end.

Fixpoint last_interval (os : list Opt) (d : Z) : Z :=
  match os with
  | [] => d
  | Interval v :: r => last_interval r v
  | _ :: r => last_interval r d
  end.

Fixpoint last_max_delay (os : list Opt) (d : Z) : Z :=
  match os with
  | [] => d
  | MaxDelay v :: r => last_max_delay r v
  | _ :: r => last_max_delay r d
  end.

Definition has_strict (os : list Opt) : bool :=
  existsb (fun o => match o with Strict => true | _ => false end) os.

Definition has_keep_latest (os : list Opt) : bool :=
  existsb (fun o => match o with KeepLatest => true | _ => false end) os.

(** [cfg] is an object made by [cloneStruct] from [d]. *)
Definition is_clone_of (d cfg : Ref) : Prop :=
  exists w, fst (cloneStruct d w) = cfg.

End Loader.

End Config.

(* ------------------------------------------------------------------------ *)
(** * Properties *)

(** ** Machine integers *)

Lemma wrap_small z : - GoInt.half <= z < GoInt.half -> GoInt.wrap z = z.
Proof.
  intros H. unfold GoInt.wrap. rewrite Z.mod_small; [lia|].
  unfold GoInt.half, GoInt.modulus, GoInt.intSize in *. simpl in *. lia.
Qed.

Lemma wrap_wrap_add z k : GoInt.wrap (GoInt.wrap z + k) = GoInt.wrap (z + k).
Proof.
  unfold GoInt.wrap.
  replace ((z + GoInt.half) mod GoInt.modulus - GoInt.half + k + GoInt.half)
    with ((z + GoInt.half) mod GoInt.modulus + k) by lia.
  replace (z + k + GoInt.half) with ((z + GoInt.half) + k) by lia.
  rewrite Zplus_mod_idemp_l. reflexivity.
Qed.

Lemma incr_small c : 0 <= c -> c + 1 < GoInt.half -> GoInt.incr c = c + 1.
Proof.
  intros H0 H1. unfold GoInt.incr. apply wrap_small.
  unfold GoInt.half, GoInt.intSize in *. simpl in *. lia.
Qed.

(** ** The debounce workers *)

Import Debounce.

(** *** Timers *)

Lemma due_running tm : running tm = true <-> exists d, due tm = Some d.
Proof.
  destruct tm as [[d b]|]; simpl; [destruct b; simpl|].
  - split; [discriminate|intros [? ?]; discriminate].
  - split; eauto.
  - split; [discriminate|intros [? ?]; discriminate].
Qed.

Lemma due_none_running tm : due tm = None <-> running tm = false.
Proof.
  destruct tm as [[d b]|]; simpl; [destruct b; simpl|]; split; congruence.
Qed.

Lemma fired_due now tm :
  fired now tm = true <-> exists d, due tm = Some d /\ d <= now.
Proof.
  destruct tm as [[d b]|]; simpl; [destruct b; simpl|].
  - split; [discriminate|intros (? & ? & _); discriminate].
  - rewrite Z.leb_le. split.
    + intros H; exists d; auto.
    + intros (d' & Hd & Hle). inversion Hd; subst; auto.
  - split; [discriminate|intros (? & ? & _); discriminate].
Qed.

Lemma fired_running now tm : fired now tm = true -> running tm = true.
Proof.
  intros H. apply due_running. apply fired_due in H. destruct H as (d & H & _); eauto.
Qed.

(** Fields of the timers after each method. *)
Lemma clearInterval_fields t :
  interval (clearInterval t) = interval t /\
  maxDelay (clearInterval t) = maxDelay t /\
  intervalTimer (clearInterval t) = None /\
  maxDelayTimer (clearInterval t) = maxDelayTimer t.
Proof. unfold clearInterval. destruct (intervalTimer t) eqn:E; simpl; auto. Qed.

Lemma clearMaxDelay_fields t :
  interval (clearMaxDelay t) = interval t /\
  maxDelay (clearMaxDelay t) = maxDelay t /\
  intervalTimer (clearMaxDelay t) = intervalTimer t /\
  maxDelayTimer (clearMaxDelay t) = None.
Proof. unfold clearMaxDelay. destruct (maxDelayTimer t) eqn:E; simpl; auto. Qed.

Lemma setMaxDelay_fields now t :
  interval (setMaxDelay now t) = interval t /\
  maxDelay (setMaxDelay now t) = maxDelay t /\
  intervalTimer (setMaxDelay now t) = intervalTimer t /\
  maxDelayTimer (setMaxDelay now t) =
    match maxDelayTimer t with
    | Some x => Some x
    | None => if maxDelay t =? 0 then None else Some (NewTimer now (maxDelay t))
    end.
Proof.
  unfold setMaxDelay. destruct (maxDelayTimer t) eqn:E; simpl; auto.
  destruct (maxDelay t =? 0); simpl; auto.
Qed.

(** The timers after each case of the [select]. *)
Lemma timers_select_InValue V now (v : V) t :
  let t' := timers_select now (InValue v) t in
  interval t' = interval t /\ maxDelay t' = maxDelay t /\
  intervalTimer t' = Some (NewTimer now (interval t)) /\
  maxDelayTimer t' =
    match maxDelayTimer t with
    | Some x => Some x
    | None => if maxDelay t =? 0 then None else Some (NewTimer now (maxDelay t))
    end.
Proof.
  simpl. destruct (clearInterval_fields t) as (Hi & Hm & _ & Hmt).
  destruct (setMaxDelay_fields now (resetInterval now (clearInterval t)))
    as (H1 & H2 & H3 & H4).
  rewrite H1, H2, H3, H4. simpl. rewrite Hi, Hm, Hmt. auto.
Qed.

Lemma timers_select_IntervalC V now t :
  let t' := timers_select now (@IntervalC V) t in
  interval t' = interval t /\ maxDelay t' = maxDelay t /\
  intervalTimer t' = drain (intervalTimer t) /\ maxDelayTimer t' = None.
Proof.
  simpl. destruct (clearMaxDelay_fields (recvIntervalChan t)) as (H1 & H2 & H3 & H4).
  rewrite H1, H2, H3, H4. simpl. auto.
Qed.

Lemma timers_select_MaxDelayC V now t :
  let t' := timers_select now (@MaxDelayC V) t in
  interval t' = interval t /\ maxDelay t' = maxDelay t /\
  intervalTimer t' = None /\ maxDelayTimer t' = None.
Proof.
  simpl.
  destruct (clearInterval_fields (clearMaxDelay (recvMaxDelayChan t))) as (H1 & H2 & H3 & H4).
  destruct (clearMaxDelay_fields (recvMaxDelayChan t)) as (G1 & G2 & G3 & G4).
  rewrite H1, H2, H3, H4, G1, G2, G4. simpl. auto.
Qed.

Lemma timers_select_InClosed V now t :
  let t' := timers_select now (@InClosed V) t in
  interval t' = interval t /\ maxDelay t' = maxDelay t /\
  intervalTimer t' = None /\ maxDelayTimer t' = maxDelayTimer t.
Proof.
  simpl.
  destruct (clearInterval_fields (clearInterval t)) as (H1 & H2 & H3 & H4).
  destruct (clearInterval_fields t) as (G1 & G2 & G3 & G4).
  rewrite H1, H2, H3, H4, G1, G2, G4. auto.
Qed.

Lemma drain_due tm : due (drain tm) = None.
Proof. destruct tm as [[d b]|]; reflexivity. Qed.

Lemma timers_select_config V now (c : Select V) t :
  interval (timers_select now c t) = interval t /\
  maxDelay (timers_select now c t) = maxDelay t.
Proof.
  destruct c.
  - destruct (timers_select_InValue now v t) as (? & ? & _); auto.
  - destruct (timers_select_InClosed V now t) as (? & ? & _); auto.
  - destruct (timers_select_IntervalC V now t) as (? & ? & _); auto.
  - destruct (timers_select_MaxDelayC V now t) as (? & ? & _); auto.
Qed.

(** *** Traces *)

Lemma timers_run_app V (pre tr : Trace V) t :
  timers_run (pre ++ tr) t = timers_run tr (timers_run pre t).
Proof. unfold timers_run. apply fold_left_app. Qed.

Lemma timers_run_snoc V (pre : Trace V) now c t :
  timers_run (pre ++ [(now, c)]) t = timers_select now c (timers_run pre t).
Proof. rewrite timers_run_app. reflexivity. Qed.

Lemma timers_run_config V (tr : Trace V) t :
  interval (timers_run tr t) = interval t /\ maxDelay (timers_run tr t) = maxDelay t.
Proof.
  revert t. induction tr as [|[now c] tr IH]; intros t; simpl; auto.
  destruct (IH (timers_select now c t)) as (H1 & H2).
  destruct (timers_select_config now c t) as (G1 & G2).
  unfold timers_run in *. simpl. rewrite H1, H2. auto.
Qed.

Lemma no_close_app V (pre tr : Trace V) :
  no_close (pre ++ tr) = no_close pre && no_close tr.
Proof. unfold no_close. apply forallb_app. Qed.

Lemma enabled_app V (pre : Trace V) e tr t :
  enabled (pre ++ e :: tr) t = true ->
  no_close pre = true /\ enabled pre t = true /\
  enabled (e :: tr) (timers_run pre t) = true.
Proof.
  revert t. induction pre as [|[now c] pre IH]; intros t H.
  - simpl. auto.
  - simpl in H. apply andb_prop in H. destruct H as [Hr H].
    destruct (is_break c) eqn:Hb.
    + destruct pre; simpl in H; discriminate.
    + apply IH in H. destruct H as (H1 & H2 & H3).
      simpl. rewrite Hb, Hr, H1, H2. simpl. auto.
Qed.

Lemma enabled_prefix V (pre tr : Trace V) t :
  enabled (pre ++ tr) t = true -> enabled pre t = true.
Proof.
  destruct tr as [|e tr].
  - rewrite app_nil_r. auto.
  - intros H. apply enabled_app in H. tauto.
Qed.

Lemma enabled_no_close V (pre : Trace V) e t :
  enabled (pre ++ [e]) t = true -> no_close pre = true.
Proof. intros H. apply enabled_app in H. tauto. Qed.

Lemma timely_app V (pre tr : Trace V) clock t :
  timely clock (pre ++ tr) t = true ->
  exists clock', clock <= clock' /\ timely clock' tr (timers_run pre t) = true.
Proof.
  revert clock t. induction pre as [|[now c] pre IH]; intros clock t H.
  - exists clock. split; [lia|auto].
  - simpl in H. repeat (apply andb_prop in H; destruct H as [H ?]).
    apply Z.leb_le in H.
    match goal with G : timely now _ _ = true |- _ => apply IH in G;
      destruct G as (clock' & Hle & G) end.
    exists clock'. split; [lia|auto].
Qed.

Lemma timely_head V clock now (c : Select V) tr t :
  timely clock ((now, c) :: tr) t = true ->
  clock <= now /\
  (forall d, due (intervalTimer t) = Some d -> now <= d) /\
  (forall d, due (maxDelayTimer t) = Some d -> now <= d) /\
  timely now tr (timers_select now c t) = true.
Proof.
  simpl. intros H. repeat (apply andb_prop in H; destruct H as [H ?]).
  apply Z.leb_le in H. repeat split; auto.
  - intros d Hd. rewrite Hd in *. simpl in *. apply Z.leb_le; auto.
  - intros d Hd. rewrite Hd in *. simpl in *. apply Z.leb_le; auto.
Qed.

(** *** The loop *)

Section LoopFacts.
Variables A T V : Type.
Variable body : Z -> Select V -> Worker A T -> Worker A T * bool.
Variable after : Worker A T -> Worker A T.
Hypothesis body_timers : forall now c w,
  timers (fst (body now c w)) = timers_select now c (timers w).
Hypothesis body_break : forall now c w, snd (body now c w) = is_break c.

Lemma run_loop_cons now c tr w :
  run_loop body after ((now, c) :: tr) w =
  if is_break c then after (fst (body now c w))
  else run_loop body after tr (fst (body now c w)).
Proof.
  simpl. rewrite <- (body_break now c w). destruct (body now c w); reflexivity.
Qed.

Lemma run_loop_app pre tr w :
  no_close pre = true ->
  run_loop body after (pre ++ tr) w = run_loop body after tr (run_loop body after pre w).
Proof.
  revert w. induction pre as [|[now c] pre IH]; intros w H; [reflexivity|].
  simpl in H. apply andb_prop in H. destruct H as [Hb H].
  rewrite <- app_comm_cons, !run_loop_cons.
  destruct (is_break c); [discriminate|]. apply IH; auto.
Qed.

Lemma run_loop_snoc pre now c w :
  no_close pre = true ->
  run_loop body after (pre ++ [(now, c)]) w =
  let w' := run_loop body after pre w in
  if is_break c then after (fst (body now c w')) else fst (body now c w').
Proof.
  intros H. rewrite run_loop_app by auto. rewrite run_loop_cons. reflexivity.
Qed.

Lemma run_loop_timers pre w :
  no_close pre = true ->
  timers (run_loop body after pre w) = timers_run pre (timers w).
Proof.
  revert w. induction pre as [|[now c] pre IH]; intros w H; [reflexivity|].
  simpl in H. apply andb_prop in H. destruct H as [Hb H].
  rewrite run_loop_cons. destruct (is_break c); [discriminate|].
  rewrite IH by auto. unfold timers_run. simpl. rewrite body_timers. reflexivity.
Qed.

End LoopFacts.

(** The four workers make the same timer calls. *)
Lemma New_select_timers now c w :
  timers (fst (New_select now c w)) = timers_select now c (timers w).
Proof. destruct c; simpl; auto. destruct (acc w); reflexivity. Qed.

Lemma New_select_break now c w : snd (New_select now c w) = is_break c.
Proof. destruct c; simpl; auto. destruct (acc w); reflexivity. Qed.

Lemma NewGrouped_select_timers V now c (w : Worker (list (iface V)) _) :
  timers (fst (NewGrouped_select now c w)) = timers_select now c (timers w).
Proof. destruct c; reflexivity. Qed.

Lemma NewGrouped_select_break V now c (w : Worker (list (iface V)) _) :
  snd (NewGrouped_select now c w) = is_break c.
Proof. destruct c; reflexivity. Qed.

Lemma NewLast_select_timers V now c (w : Worker (iface V) _) :
  timers (fst (NewLast_select now c w)) = timers_select now c (timers w).
Proof. destruct c; reflexivity. Qed.

Lemma NewLast_select_break V now c (w : Worker (iface V) _) :
  snd (NewLast_select now c w) = is_break c.
Proof. destruct c; reflexivity. Qed.

Lemma NewCounted_select_timers now c w :
  timers (fst (NewCounted_select now c w)) = timers_select now c (timers w).
Proof. destruct c; reflexivity. Qed.

Lemma NewCounted_select_break now c w : snd (NewCounted_select now c w) = is_break c.
Proof. destruct c; reflexivity. Qed.

(** *** Closing the input *)

Section FinalFlush.
Variables A T V : Type.
Variable body : Z -> Select V -> Worker A T -> Worker A T * bool.
Variable after : Worker A T -> Worker A T.
Variable nonempty : A -> bool.
Variable value : A -> T.
Hypothesis body_break : forall now c w, snd (body now c w) = is_break c.
Hypothesis body_open : forall now c w,
  closed (out (fst (body now c w))) = closed (out w).
Hypothesis body_closed_in : forall now w,
  acc (fst (body now InClosed w)) = acc w /\ out (fst (body now InClosed w)) = out w.
Hypothesis after_spec : forall w,
  sent (out (after w)) =
    sent (out w) ++ (if nonempty (acc w) then [value (acc w)] else []) /\
  closed (out (after w)) = true.

Lemma run_loop_open pre w :
  no_close pre = true -> closed (out w) = false ->
  closed (out (run_loop body after pre w)) = false.
Proof.
  revert w. induction pre as [|[now c] pre IH]; intros w H Hw; [exact Hw|].
  simpl in H. apply andb_prop in H. destruct H as [Hb H].
  rewrite run_loop_cons by auto. destruct (is_break c); [discriminate|].
  apply IH; auto. rewrite body_open. exact Hw.
Qed.

Lemma final_flush_loop (a : A) interval maxDelay :
  final_flush (fun tr => run_loop body after tr (start a interval maxDelay))
              nonempty value.
Proof.
  intros pre now rest Hpre. cbv zeta.
  rewrite run_loop_app by auto. rewrite run_loop_cons by auto. simpl is_break. cbv iota.
  set (w := run_loop body after pre (start a interval maxDelay)).
  destruct (after_spec (fst (body now InClosed w))) as (Hs & Hc).
  destruct (body_closed_in now w) as (Ha & Ho).
  rewrite Ha, Ho in Hs.
  split; [|split; auto].
  apply run_loop_open; auto.
Qed.

End FinalFlush.

Lemma New_final_flush interval maxDelay :
  final_flush (New interval maxDelay) (fun pending => pending) (fun _ => tt).
Proof.
  apply final_flush_loop.
  - apply New_select_break.
  - intros now c w. destruct c; simpl; auto. destruct (acc w); reflexivity.
  - intros; simpl; auto.
  - intros w. unfold New_exit. simpl. destruct (acc w); simpl; auto.
    rewrite app_nil_r; auto.
Qed.

Lemma NewGrouped_final_flush V interval maxDelay :
  final_flush (NewGrouped (V:=V) interval maxDelay)
              (fun pending => negb (Nat.eqb (length pending) 0)) (fun pending => pending).
Proof.
  apply final_flush_loop.
  - apply NewGrouped_select_break.
  - intros now c w. destruct c; reflexivity.
  - intros; simpl; auto.
  - intros w. unfold NewGrouped_exit. simpl.
    destruct (negb (Nat.eqb (length (acc w)) 0)); simpl; auto. rewrite app_nil_r; auto.
Qed.

Lemma NewLast_final_flush V interval maxDelay :
  final_flush (NewLast (V:=V) interval maxDelay)
              (fun last => negb (is_nil last)) (fun last => last).
Proof.
  apply final_flush_loop.
  - apply NewLast_select_break.
  - intros now c [a t o]. destruct c; simpl; auto. destruct a; reflexivity.
  - intros; simpl; auto.
  - intros [a t o]. unfold NewLast_exit. simpl.
    destruct a; simpl; auto. rewrite app_nil_r; auto.
Qed.

Lemma NewCounted_final_flush interval maxDelay :
  final_flush (NewCounted interval maxDelay)
              (fun count => negb (count =? 0)) (fun count => count).
Proof.
  apply final_flush_loop.
  - apply NewCounted_select_break.
  - intros now c w. destruct c; reflexivity.
  - intros; simpl; auto.
  - intros w. unfold NewCounted_exit. simpl.
    destruct (negb (acc w =? 0)); simpl; auto. rewrite app_nil_r; auto.
Qed.

(** *** The grouped worker *)

Section LoopAfterClose.
Variables A T V : Type.
Variable body : Z -> Select V -> Worker A T -> Worker A T * bool.
Variable after : Worker A T -> Worker A T.
Hypothesis body_break : forall now c w, snd (body now c w) = is_break c.

Lemma run_loop_after_close pre tr w :
  no_close pre = false ->
  run_loop body after (pre ++ tr) w = run_loop body after pre w.
Proof.
  revert w. induction pre as [|[now c] pre IH]; intros w H; [discriminate|].
  rewrite <- app_comm_cons, !run_loop_cons by auto.
  simpl in H. destruct (is_break c); [reflexivity|]. simpl in H. apply IH; auto.
Qed.

Hypothesis body_open : forall now c w,
  closed (out (fst (body now c w))) = closed (out w).
Hypothesis after_closed : forall w, closed (out (after w)) = true.

Lemma run_loop_closed pre w :
  closed (out w) = false ->
  closed (out (run_loop body after pre w)) = negb (no_close pre).
Proof.
  revert w. induction pre as [|[now c] pre IH]; intros w H; [exact H|].
  rewrite run_loop_cons by auto. simpl. destruct (is_break c); simpl.
  - apply after_closed.
  - apply IH. rewrite body_open. exact H.
Qed.

End LoopAfterClose.

Lemma NewGrouped_select_open V now c (w : Worker (list (iface V)) _) :
  closed (out (fst (NewGrouped_select now c w))) = closed (out w).
Proof. destruct c; reflexivity. Qed.

Lemma NewGrouped_exit_closed V (w : Worker (list (iface V)) _) :
  closed (out (NewGrouped_exit w)) = true.
Proof. reflexivity. Qed.

Lemma NewGrouped_conserves V tr (w : Worker (list (iface V)) (list (iface V))) :
  let w1 := NewGrouped_loop tr w in
  concat (sent (out w1)) ++ (if closed (out w1) then [] else acc w1) =
  concat (sent (out w)) ++ (if closed (out w) then [] else acc w ++ received tr)
  \/ closed (out w) = true.
Proof.
  revert w. induction tr as [|[now c] tr IH]; intros w; cbv zeta.
  - destruct (closed (out w)) eqn:E; auto. left. simpl. rewrite E, app_nil_r. auto.
  - destruct (closed (out w)) eqn:E; auto. left.
    unfold NewGrouped_loop. rewrite run_loop_cons by apply NewGrouped_select_break.
    destruct c; simpl is_break; cbv iota.
    + destruct (IH (fst (NewGrouped_select now (InValue v) w))) as [H|H].
      * unfold NewGrouped_loop in H. cbv zeta in H. rewrite H. simpl. rewrite E.
        rewrite <- app_assoc. reflexivity.
      * simpl in H. congruence.
    + unfold NewGrouped_exit. simpl.
      destruct (acc w) as [|x l]; simpl.
      * rewrite app_nil_r. reflexivity.
      * rewrite concat_app. simpl. rewrite !app_nil_r. reflexivity.
    + destruct (IH (fst (NewGrouped_select now IntervalC w))) as [H|H].
      * unfold NewGrouped_loop in H. cbv zeta in H. rewrite H. simpl. rewrite E.
        rewrite concat_app. simpl. rewrite app_nil_r, <- app_assoc. reflexivity.
      * simpl in H. congruence.
    + destruct (IH (fst (NewGrouped_select now MaxDelayC w))) as [H|H].
      * unfold NewGrouped_loop in H. cbv zeta in H. rewrite H. simpl. rewrite E.
        rewrite concat_app. simpl. rewrite app_nil_r, <- app_assoc. reflexivity.
      * simpl in H. congruence.
Qed.

(** C6. At every point of every run of the grouped worker, the values sent
    so far, concatenated, followed by the accumulator, are the inputs
    received so far in arrival order: the accumulator is the list of the
    inputs received since the previous flush. An input is appended to it and
    sends nothing; a timer case sends exactly the accumulator and leaves it
    empty; the close of the input sends it if it is not empty; nothing happens
    after the close. *)
Theorem grouped_emits_burst (V : Type) (interval maxDelay : Z)
        (pre : Trace (iface V)) (now : Z) (c : Select (iface V)) :
  let w := NewGrouped interval maxDelay pre in
  let w' := NewGrouped interval maxDelay (pre ++ [(now, c)]) in
  concat (sent (out w)) ++ (if closed (out w) then [] else acc w) = received pre /\
  (if closed (out w) then w' = w
   else match c with
        | InValue v => sent (out w') = sent (out w) /\ acc w' = acc w ++ [v]
        | InClosed =>
            sent (out w') =
              sent (out w) ++ (match acc w with [] => [] | _ :: _ => [acc w] end)
        | _ => sent (out w') = sent (out w) ++ [acc w] /\ acc w' = []
        end).
Proof.
  cbv zeta. split.
  - destruct (NewGrouped_conserves pre (start [] interval maxDelay)) as [H|H];
      [|discriminate].
    exact H.
  - unfold NewGrouped, NewGrouped_loop.
    rewrite (run_loop_closed (@NewGrouped_select V) (@NewGrouped_exit V)) by
      (auto using NewGrouped_select_break, NewGrouped_select_open).
    destruct (no_close pre) eqn:E; simpl negb; cbv iota.
    + rewrite run_loop_snoc by (auto using NewGrouped_select_break).
      cbv zeta.
      set (w := run_loop (@NewGrouped_select V) (@NewGrouped_exit V) pre _).
      destruct c; simpl; auto.
      destruct (acc w); simpl; auto using app_nil_r.
    + apply run_loop_after_close; auto using NewGrouped_select_break.
Qed.

(** *** A deadline is armed only over a pending accumulator *)

Lemma armed_after_timer V now (c : Select V) t :
  c = IntervalC \/ c = MaxDelayC -> armed (timers_select now c t) = false.
Proof.
  intros [-> | ->]; unfold armed.
  - destruct (timers_select_IntervalC V now t) as (_ & _ & Hi & Hm).
    rewrite Hi, Hm. simpl. rewrite orb_false_r.
    apply due_none_running. apply drain_due.
  - destruct (timers_select_MaxDelayC V now t) as (_ & _ & Hi & Hm).
    rewrite Hi, Hm. reflexivity.
Qed.

Lemma armed_after_close V now t :
  armed (timers_select now (@InClosed V) t) = true -> armed t = true.
Proof.
  unfold armed. destruct (timers_select_InClosed V now t) as (_ & _ & Hi & Hm).
  rewrite Hi, Hm. simpl. intros ->. apply orb_true_r.
Qed.

Lemma ready_armed V now (c : Select V) t :
  c = IntervalC \/ c = MaxDelayC -> ready now c t = true -> armed t = true.
Proof.
  unfold armed. intros [-> | ->]; simpl; intros H; apply fired_running in H;
    rewrite H; auto using orb_true_r.
Qed.

Lemma enabled_cons V now (c : Select V) tr t :
  enabled ((now, c) :: tr) t = true ->
  ready now c t = true /\
  (if is_break c then tr = [] else enabled tr (timers_select now c t) = true).
Proof.
  simpl. intros H. apply andb_prop in H. destruct H as [Hr H]. split; auto.
  destruct (is_break c); auto. destruct tr; [auto|discriminate].
Qed.

Lemma Forall_snoc (X : Type) (P : X -> Prop) l x :
  Forall P l -> P x -> Forall P (l ++ [x]).
Proof. intros H1 H2. apply Forall_app. auto. Qed.

Lemma NewGrouped_pending V (tr : Trace (iface V)) :
  forall w : Worker (list (iface V)) (list (iface V)),
    enabled tr (timers w) = true ->
    (armed (timers w) = true -> acc w <> []) ->
    Forall (fun l => l <> []) (sent (out w)) ->
    let w1 := NewGrouped_loop tr w in
    Forall (fun l => l <> []) (sent (out w1)) /\
    (armed (timers w1) = true -> acc w1 <> []).
Proof.
  induction tr as [|[now c] tr IH]; intros w He Hinv Hs; cbv zeta; [auto|].
  apply enabled_cons in He. destruct He as [Hr He].
  unfold NewGrouped_loop. rewrite run_loop_cons by apply NewGrouped_select_break.
  pose proof (NewGrouped_select_timers now c w) as Ht.
  destruct c; simpl is_break in *; cbv iota in *.
  - apply IH.
    + rewrite Ht. exact He.
    + intros _. simpl. destruct (acc w); discriminate.
    + exact Hs.
  - subst tr. unfold NewGrouped_exit. simpl. split.
    + destruct (acc w) eqn:E; simpl; auto.
      apply Forall_snoc; auto. discriminate.
    + intros Ha. apply Hinv. apply (@armed_after_close (iface V) now). exact Ha.
  - assert (Ha : acc w <> []).
    { apply Hinv. eapply ready_armed; [|exact Hr]. auto. }
    apply IH.
    + rewrite Ht. exact He.
    + rewrite Ht, armed_after_timer by auto. discriminate.
    + simpl. apply Forall_snoc; auto.
  - assert (Ha : acc w <> []).
    { apply Hinv. eapply ready_armed; [|exact Hr]. auto. }
    apply IH.
    + rewrite Ht. exact He.
    + rewrite Ht, armed_after_timer by auto. discriminate.
    + simpl. apply Forall_snoc; auto.
Qed.

Lemma NewCounted_pending (tr : Trace unit) :
  forall w : Worker Z Z,
    enabled tr (timers w) = true ->
    0 <= acc w ->
    acc w + Z.of_nat (length tr) < GoInt.half ->
    (armed (timers w) = true -> 1 <= acc w) ->
    Forall (fun n => 1 <= n) (sent (out w)) ->
    let w1 := NewCounted_loop tr w in
    Forall (fun n => 1 <= n) (sent (out w1)) /\
    (armed (timers w1) = true -> 1 <= acc w1).
Proof.
  induction tr as [|[now c] tr IH]; intros w He H0 Hb Hinv Hs; cbv zeta; [auto|].
  apply enabled_cons in He. destruct He as [Hr He].
  unfold NewCounted_loop. rewrite run_loop_cons by apply NewCounted_select_break.
  pose proof (NewCounted_select_timers now c w) as Ht.
  change (length ((now, c) :: tr)) with (S (length tr)) in Hb.
  rewrite Nat2Z.inj_succ in Hb.
  destruct c; simpl is_break in *; cbv iota in *.
  - assert (Hi : GoInt.incr (acc w) = acc w + 1) by (apply incr_small; lia).
    apply IH.
    + rewrite Ht. exact He.
    + simpl. lia.
    + simpl. lia.
    + intros _. simpl. lia.
    + exact Hs.
  - subst tr. unfold NewCounted_exit. simpl. split.
    + destruct (acc w =? 0) eqn:E; simpl; auto.
      apply Forall_snoc; auto. apply Z.eqb_neq in E. lia.
    + intros Ha. apply Hinv. apply (@armed_after_close unit now). exact Ha.
  - assert (Ha : 1 <= acc w).
    { apply Hinv. eapply ready_armed; [|exact Hr]. auto. }
    apply IH.
    + rewrite Ht. exact He.
    + simpl. lia.
    + simpl. lia.
    + rewrite Ht, armed_after_timer by auto. discriminate.
    + simpl. apply Forall_snoc; auto.
  - assert (Ha : 1 <= acc w).
    { apply Hinv. eapply ready_armed; [|exact Hr]. auto. }
    apply IH.
    + rewrite Ht. exact He.
    + simpl. lia.
    + simpl. lia.
    + rewrite Ht, armed_after_timer by auto. discriminate.
    + simpl. apply Forall_snoc; auto.
Qed.

(** C10, as the code has it. In every run the runtime can produce, every list
    sent by the grouped worker is non-empty and, whenever a deadline is armed,
    its accumulator is non-empty; the same holds of the counted worker (every
    count sent is at least 1, and the counter is at least 1 whenever a
    deadline is armed) as long as fewer than 2^63 cases have been taken, the
    range of the counter. *)
Theorem armed_means_pending (V : Type) (interval maxDelay : Z)
        (tr : Trace (iface V)) (tru : Trace unit) :
  (enabled tr (timers0 interval maxDelay) = true ->
   let w := NewGrouped interval maxDelay tr in
   Forall (fun l => l <> []) (sent (out w)) /\
   (armed (timers w) = true -> acc w <> [])) /\
  (enabled tru (timers0 interval maxDelay) = true ->
   Z.of_nat (length tru) < GoInt.half ->
   let w := NewCounted interval maxDelay tru in
   Forall (fun n => 1 <= n) (sent (out w)) /\
   (armed (timers w) = true -> 1 <= acc w)).
Proof.
  split.
  - intros He. apply NewGrouped_pending; simpl; auto. discriminate.
  - intros He Hb. apply NewCounted_pending; simpl; auto; try lia. discriminate.
Qed.

Lemma armed_means_pending_witness :
  let tr := [(0, InValue (Some 7%nat)); (1, InValue None); (3, IntervalC);
             (4, InValue (Some 8%nat)); (4, InClosed)] in
  enabled tr (timers0 2 20) = true /\
  Forall (fun l => l <> []) (sent (out (NewGrouped 2 20 tr))) /\
  Z.of_nat (length (erase tr)) < GoInt.half /\
  Forall (fun n => 1 <= n) (sent (out (NewCounted 2 20 (erase tr)))).
Proof.
  intros tr.
  destruct (armed_means_pending 2 20 tr (erase tr)) as (Hg & Hc).
  split; [reflexivity|].
  split; [exact (proj1 (Hg eq_refl))|].
  split; [reflexivity|].
  exact (proj1 (Hc eq_refl eq_refl)).
Defined.

(** A burst longer than the range of the counter. *)

Lemma wrap_range z : - GoInt.half <= GoInt.wrap z < GoInt.half.
Proof.
  unfold GoInt.wrap.
  assert (0 <= (z + GoInt.half) mod GoInt.modulus < GoInt.modulus)
    by (apply Z.mod_pos_bound; reflexivity).
  unfold GoInt.half, GoInt.modulus, GoInt.intSize in *. simpl in *. lia.
Qed.

Lemma burst_S V now (v : V) n : burst now v (S n) = (now, InValue v) :: burst now v n.
Proof. reflexivity. Qed.

Lemma enabled_burst_close V now now' (v : V) n t :
  enabled (burst now v n ++ [(now', InClosed)]) t = true.
Proof.
  revert t. induction n as [|n IH]; intros t; [reflexivity|].
  rewrite burst_S, <- app_comm_cons.
  change (enabled (burst now v n ++ [(now', InClosed)])
                  (timers_select now (InValue v) t) = true).
  apply IH.
Qed.

Lemma NewCounted_burst now n rest :
  forall a t o,
    - GoInt.half <= a < GoInt.half ->
    exists t',
      NewCounted_loop (burst now tt n ++ rest) (mkWorker a t o) =
      NewCounted_loop rest (mkWorker (GoInt.wrap (a + Z.of_nat n)) t' o).
Proof.
  induction n as [|n IH]; intros a t o Ha.
  - exists t. simpl. rewrite Z.add_0_r, wrap_small by exact Ha. reflexivity.
  - rewrite burst_S, <- app_comm_cons.
    unfold NewCounted_loop. rewrite run_loop_cons by apply NewCounted_select_break.
    simpl is_break. cbv iota.
    destruct (IH (GoInt.incr a)
                 (timers (fst (NewCounted_select now (InValue tt) (mkWorker a t o)))) o
                 (wrap_range (a + 1))) as (t' & H).
    exists t'. unfold NewCounted_loop in H.
    change (fst (NewCounted_select now (InValue tt) (mkWorker a t o)))
      with (mkWorker (GoInt.incr a)
              (timers (fst (NewCounted_select now (InValue tt) (mkWorker a t o)))) o).
    rewrite H. unfold GoInt.incr. rewrite wrap_wrap_add.
    rewrite Nat2Z.inj_succ. do 3 f_equal. lia.
Qed.

Lemma counted_wraps_to_negative :
  let tru := burst 0 tt (Z.to_nat GoInt.half) ++ [(0, InClosed)] in
  enabled tru (timers0 2 0) = true /\
  sent (out (NewCounted 2 0 tru)) = [- GoInt.half] /\
  ~ Forall (fun n => 1 <= n) (sent (out (NewCounted 2 0 tru))).
Proof.
  cbv zeta.
  assert (H : sent (out (NewCounted 2 0
                (burst 0 tt (Z.to_nat GoInt.half) ++ [(0, InClosed)]))) = [- GoInt.half]).
  { unfold NewCounted.
    change (start 0 2 0) with (mkWorker (T:=Z) 0 (timers0 2 0) make).
    destruct (NewCounted_burst 0 (Z.to_nat GoInt.half) [(0, InClosed)]
                (timers0 2 0) (make (T:=Z)) (a:=0)) as (t' & H).
    { split; [apply Z.opp_nonpos_nonneg|]; reflexivity || discriminate. }
    rewrite H. rewrite Z2Nat.id by discriminate.
    replace (GoInt.wrap (0 + GoInt.half)) with (- GoInt.half) by (vm_compute; reflexivity).
    reflexivity. }
  split; [apply enabled_burst_close|].
  split; [exact H|].
  rewrite H. intros F. apply Forall_inv in F. revert F.
  vm_compute. intros G. apply G. reflexivity.
Qed.

(** *** The four workers on a common schedule *)

Lemma timers_select_erase V now (c : Select V) t :
  timers_select now (erase_case c) t = timers_select now c t.
Proof. destruct c; reflexivity. Qed.

Lemma is_break_erase V (c : Select V) : is_break (erase_case c) = is_break c.
Proof. destruct c; reflexivity. Qed.

Lemma enabled_erase V (tr : Trace V) t : enabled (erase tr) t = enabled tr t.
Proof.
  revert t. induction tr as [|[now c] tr IH]; intros t; [reflexivity|].
  simpl. rewrite is_break_erase, timers_select_erase, IH.
  f_equal. destruct c; try reflexivity. destruct tr; reflexivity.
Qed.

Lemma sim_Counted V (tr : Trace (iface V)) :
  forall (wc : Worker Z Z) (wg : Worker (list (iface V)) (list (iface V))),
    timers wc = timers wg ->
    acc wc = len (acc wg) ->
    len (acc wg) + Z.of_nat (length tr) < GoInt.half ->
    sent (out wc) = map (@len _) (sent (out wg)) ->
    let wc1 := NewCounted_loop (erase tr) wc in
    let wg1 := NewGrouped_loop tr wg in
    sent (out wc1) = map (@len _) (sent (out wg1)) /\ timers wc1 = timers wg1.
Proof.
  induction tr as [|[now c] tr IH]; intros wc wg Ht Ha Hb Hs; cbv zeta; [auto|].
  change (erase ((now, c) :: tr)) with ((now, erase_case c) :: erase tr).
  unfold NewCounted_loop, NewGrouped_loop.
  rewrite run_loop_cons by apply NewCounted_select_break.
  rewrite run_loop_cons by apply NewGrouped_select_break.
  rewrite is_break_erase.
  change (length ((now, c) :: tr)) with (S (length tr)) in Hb.
  rewrite Nat2Z.inj_succ in Hb.
  assert (H0 : 0 <= len (acc wg)) by apply Nat2Z.is_nonneg.
  pose proof (NewCounted_select_timers now (erase_case c) wc) as Htc.
  pose proof (NewGrouped_select_timers now c wg) as Htg.
  rewrite timers_select_erase, Ht, <- Htg in Htc.
  destruct c; simpl is_break; cbv iota.
  - apply IH; [ exact Htc | | | exact Hs ].
    + simpl. rewrite Ha, incr_small by lia.
      unfold len. rewrite length_app. simpl. lia.
    + simpl. unfold len in *. rewrite length_app. simpl. lia.
  - unfold NewCounted_exit, NewGrouped_exit. simpl. split.
    + rewrite Ha. unfold len at 1 2.
      destruct (acc wg) as [|x l] eqn:E; simpl length.
      * simpl. exact Hs.
      * replace (Z.of_nat (S (length l)) =? 0) with false
          by (symmetry; apply Z.eqb_neq; lia).
        simpl. rewrite map_app, Hs. reflexivity.
    + simpl in Htc, Htg. exact Htc.
  - apply IH; [ exact Htc | reflexivity | | ].
    + simpl. unfold len. simpl. lia.
    + simpl. rewrite map_app, Hs, Ha. reflexivity.
  - apply IH; [ exact Htc | reflexivity | | ].
    + simpl. unfold len. simpl. lia.
    + simpl. rewrite map_app, Hs, Ha. reflexivity.
Qed.

Lemma sim_New V (tr : Trace (iface V)) :
  forall (wn : Worker bool unit) (wg : Worker (list (iface V)) (list (iface V))),
    enabled tr (timers wg) = true ->
    (armed (timers wg) = true -> acc wg <> []) ->
    timers wn = timers wg ->
    acc wn = pending_flag (acc wg) ->
    sent (out wn) = map (fun _ => tt) (sent (out wg)) ->
    let wn1 := New_loop (erase tr) wn in
    let wg1 := NewGrouped_loop tr wg in
    sent (out wn1) = map (fun _ => tt) (sent (out wg1)) /\ timers wn1 = timers wg1.
Proof.
  induction tr as [|[now c] tr IH]; intros wn wg He Hinv Ht Ha Hs; cbv zeta; [auto|].
  change (erase ((now, c) :: tr)) with ((now, erase_case c) :: erase tr).
  apply enabled_cons in He. destruct He as [Hr He].
  unfold New_loop, NewGrouped_loop.
  rewrite run_loop_cons by apply New_select_break.
  rewrite run_loop_cons by apply NewGrouped_select_break.
  rewrite is_break_erase.
  pose proof (New_select_timers now (erase_case c) wn) as Htc.
  pose proof (NewGrouped_select_timers now c wg) as Htg.
  rewrite timers_select_erase, Ht, <- Htg in Htc.
  destruct c; simpl is_break in *; cbv iota in *.
  - apply IH; [ rewrite Htg; exact He | | exact Htc | | exact Hs ].
    + intros _. simpl. destruct (acc wg); discriminate.
    + simpl. destruct (acc wg); reflexivity.
  - unfold New_exit, NewGrouped_exit. simpl. split.
    + rewrite Ha. destruct (acc wg) as [|x l]; simpl; auto.
      rewrite map_app, Hs. reflexivity.
    + simpl in Htc, Htg. exact Htc.
  - apply IH; [ rewrite Htg; exact He | | exact Htc | reflexivity | ].
    + rewrite Htg, armed_after_timer by auto. discriminate.
    + simpl. rewrite map_app, Hs. reflexivity.
  - assert (Hne : acc wg <> []).
    { apply Hinv. eapply ready_armed; [|exact Hr]. auto. }
    assert (Hp : acc wn = true).
    { rewrite Ha. destruct (acc wg); [congruence|reflexivity]. }
    apply IH; [ rewrite Htg; exact He | | exact Htc | | ].
    + rewrite Htg, armed_after_timer by auto. discriminate.
    + simpl. rewrite Hp. reflexivity.
    + simpl. rewrite Hp. simpl. rewrite map_app, Hs. reflexivity.
Qed.

Lemma last_of_snoc V (l : list (iface V)) v : last_of (l ++ [v]) = v.
Proof. apply last_last. Qed.

Lemma last_of_non_nil V (l : list (iface V)) :
  l <> [] -> Forall (fun v => v <> None) l -> last_of l <> None.
Proof.
  intros Hne Hall. destruct (exists_last Hne) as (l' & x & ->).
  rewrite last_of_snoc. apply Forall_app in Hall. destruct Hall as [_ Hx].
  inversion Hx; auto.
Qed.

Lemma sim_Last V (tr : Trace (iface V)) :
  forall (wl : Worker (iface V) (iface V))
         (wg : Worker (list (iface V)) (list (iface V))),
    enabled tr (timers wg) = true ->
    (forall now, ~ In (now, InValue None) tr) ->
    (armed (timers wg) = true -> acc wg <> []) ->
    Forall (fun v => v <> None) (acc wg) ->
    timers wl = timers wg ->
    acc wl = last_of (acc wg) ->
    sent (out wl) = map (@last_of V) (sent (out wg)) ->
    let wl1 := NewLast_loop tr wl in
    let wg1 := NewGrouped_loop tr wg in
    sent (out wl1) = map (@last_of V) (sent (out wg1)) /\ timers wl1 = timers wg1.
Proof.
  induction tr as [|[now c] tr IH]; intros wl wg He Hnn Hinv Hall Ht Ha Hs;
    cbv zeta; [auto|].
  apply enabled_cons in He. destruct He as [Hr He].
  unfold NewLast_loop, NewGrouped_loop.
  rewrite run_loop_cons by apply NewLast_select_break.
  rewrite run_loop_cons by apply NewGrouped_select_break.
  pose proof (NewLast_select_timers now c wl) as Htc.
  pose proof (NewGrouped_select_timers now c wg) as Htg.
  rewrite Ht, <- Htg in Htc.
  assert (Hnn' : forall now', ~ In (now', InValue None) tr).
  { intros now' Hin. apply (Hnn now'). right. exact Hin. }
  destruct c; simpl is_break in *; cbv iota in *.
  - assert (Hv : v <> None).
    { intros ->. apply (Hnn now). left. reflexivity. }
    apply IH; [ rewrite Htg; exact He | exact Hnn' | | | exact Htc | | exact Hs ].
    + intros _. simpl. destruct (acc wg); discriminate.
    + simpl. apply Forall_snoc; auto.
    + simpl. symmetry. apply last_of_snoc.
  - unfold NewLast_exit, NewGrouped_exit. simpl. split.
    + rewrite Ha. destruct (acc wg) as [|x l] eqn:E.
      * simpl. exact Hs.
      * assert (Hl : last_of (x :: l) <> None)
          by (apply last_of_non_nil; [discriminate|exact Hall]).
        destruct (last_of (x :: l)) eqn:El; [|congruence].
        simpl. rewrite map_app, Hs. simpl. rewrite El. reflexivity.
    + simpl in Htc, Htg. exact Htc.
  - apply IH; [ rewrite Htg; exact He | exact Hnn' | | | exact Htc | reflexivity | ].
    + rewrite Htg, armed_after_timer by auto. discriminate.
    + simpl. constructor.
    + simpl. rewrite map_app, Hs, Ha. reflexivity.
  - assert (Hne : acc wg <> []).
    { apply Hinv. eapply ready_armed; [|exact Hr]. auto. }
    assert (Hl : last_of (acc wg) <> None) by (apply last_of_non_nil; auto).
    apply IH; [ rewrite Htg; exact He | exact Hnn' | | | exact Htc | reflexivity | ].
    + rewrite Htg, armed_after_timer by auto. discriminate.
    + simpl. constructor.
    + simpl. rewrite Ha. destruct (last_of (acc wg)) eqn:El; [|congruence].
      simpl. rewrite map_app, Hs. simpl. rewrite El. reflexivity.
Qed.




(** *** The max-delay deadline *)

(** While the max-delay timer runs, no case is taken after its deadline; a
    run that goes beyond the deadline has taken a timer case before it. *)
Lemma max_delay_deadline V (mid : Trace V) :
  forall t clock D tau1 c,
    due (maxDelayTimer t) = Some D ->
    enabled (mid ++ [(tau1, c)]) t = true ->
    timely clock (mid ++ [(tau1, c)]) t = true ->
    D < tau1 ->
    exists m1 tauk ck m2,
      mid = m1 ++ (tauk, ck) :: m2 /\ tauk <= D /\
      (ck = IntervalC \/ ck = MaxDelayC) /\
      Forall (fun e => exists u, snd e = InValue u) m1.
Proof.
  induction mid as [|[now e] mid IH]; intros t clock D tau1 c Hd He Ht Hlt.
  - simpl app in Ht. apply timely_head in Ht. destruct Ht as (_ & _ & Hm & _).
    specialize (Hm D Hd). lia.
  - rewrite <- app_comm_cons in He, Ht.
    apply timely_head in Ht. destruct Ht as (_ & _ & Hm & Ht).
    specialize (Hm D Hd).
    apply enabled_cons in He. destruct He as [_ He].
    destruct e as [u| | |]; simpl is_break in He; cbv iota in He.
    + destruct (IH (timers_select now (InValue u) t) now D tau1 c) as
          (m1 & tauk & ck & m2 & Hmid & Hle & Hck & Hall); auto.
      { destruct (timers_select_InValue now u t) as (_ & _ & _ & Hmd).
        rewrite Hmd. destruct (maxDelayTimer t); [exact Hd|discriminate]. }
      exists ((now, InValue u) :: m1), tauk, ck, m2.
      rewrite Hmid. repeat split; auto.
      constructor; [exists u; reflexivity|exact Hall].
    + destruct mid; discriminate.
    + exists [], now, IntervalC, mid. repeat split; auto.
    + exists [], now, MaxDelayC, mid. repeat split; auto.
Qed.

Section MaxDelay.
Variables A T V : Type.
Variable body : Z -> Select V -> Worker A T -> Worker A T * bool.
Variable after : Worker A T -> Worker A T.
Variable good : A -> Prop.
Variable adm : V -> Prop.
Hypothesis body_timers : forall now c w,
  timers (fst (body now c w)) = timers_select now c (timers w).
Hypothesis body_break : forall now c w, snd (body now c w) = is_break c.
Hypothesis timer_sends : forall now c w,
  c = IntervalC \/ c = MaxDelayC -> good (acc w) ->
  exists x, sent (out (fst (body now c w))) = sent (out w) ++ [x].
Hypothesis input_good : forall now v w,
  adm v -> good (acc (fst (body now (InValue v) w))).

Lemma max_delay_bounds_loop (a : A) interval maxDelay :
  0 < maxDelay ->
  max_delay_bounds (fun tr => run_loop body after tr (start a interval maxDelay))
                   (timers0 interval maxDelay) adm.
Proof.
  intros Hpos pre tau0 v mid tau1 c clock tr He Ht Hadm Hnone Hlt.
  set (run := fun tr => run_loop body after tr (start a interval maxDelay)) in *.
  subst tr.
  pose proof He as He0.
  apply enabled_app in He. destruct He as (Hpre & _ & He).
  apply timely_app in Ht. destruct Ht as (clock' & _ & Ht).
  set (tp := timers_run pre (timers0 interval maxDelay)) in *.
  assert (Htp : timers (run pre) = tp).
  { unfold run. rewrite run_loop_timers by auto. reflexivity. }
  assert (Hcfg : maxDelay = Debounce.maxDelay tp).
  { unfold tp. destruct (timers_run_config pre (timers0 interval maxDelay)) as (_ & ->).
    reflexivity. }
  apply enabled_cons in He. destruct He as [_ He]. simpl is_break in He. cbv iota in He.
  apply timely_head in Ht. destruct Ht as (_ & _ & _ & Ht).
  destruct (@max_delay_deadline V mid (timers_select tau0 (InValue v) tp) tau0
              (tau0 + maxDelay) tau1 c) as
      (m1 & tauk & ck & m2 & Hmid & Hle & Hck & Hall); auto.
  { destruct (timers_select_InValue tau0 v tp) as (_ & _ & _ & Hmd).
    assert (Hn' : maxDelayTimer tp = None) by (rewrite <- Htp; exact Hnone).
    rewrite Hmd, Hn', <- Hcfg.
    replace (maxDelay =? 0) with false by (symmetry; apply Z.eqb_neq; lia).
    simpl. rewrite Z.max_l by lia. reflexivity. }
  exists m1, tauk, ck, m2. split; [exact Hmid|]. split; [exact Hle|].
  (* the trace up to the flush *)
  set (P := pre ++ (tau0, InValue v) :: m1).
  assert (HP : no_close P = true).
  { subst mid. apply (@enabled_no_close V P (tauk, ck) (timers0 interval maxDelay)).
    apply (@enabled_prefix V _ (m2 ++ [(tau1, c)])).
    unfold P. rewrite <- !app_assoc. rewrite <- !app_comm_cons.
    rewrite <- app_assoc in He0. exact He0. }
  assert (Hlast : exists P' now' u, P = P' ++ [(now', InValue u)] /\ adm u).
  { destruct (@exists_last _ ((tau0, InValue v) :: m1)) as (l & [now' e] & Hl);
      [discriminate|].
    assert (Hin : In (now', e) ((tau0, InValue v) :: m1)).
    { rewrite Hl. apply in_or_app. right. left. reflexivity. }
    assert (He' : exists u, e = InValue u).
    { destruct Hin as [Hin|Hin].
      - exists v. congruence.
      - rewrite Forall_forall in Hall. apply (Hall _ Hin). }
    destruct He' as (u & ->).
    exists (pre ++ l), now', u. split.
    - unfold P. rewrite Hl, app_assoc. reflexivity.
    - apply (Hadm now'). subst mid. apply in_or_app. right.
      destruct Hin as [Hin|Hin]; [left; exact Hin|right].
      apply in_or_app. left. apply in_or_app. left. exact Hin. }
  destruct Hlast as (P' & now' & u & HPeq & Hu).
  assert (Hgood : good (acc (run P))).
  { rewrite HPeq in HP |- *. rewrite no_close_app in HP.
    apply andb_prop in HP. destruct HP as [HP' _].
    unfold run. rewrite run_loop_snoc by auto. simpl. apply input_good. exact Hu. }
  assert (Hnb : is_break ck = false) by (destruct Hck as [-> | ->]; reflexivity).
  split.
  - unfold run. rewrite run_loop_snoc by auto. cbv zeta. rewrite Hnb.
    apply timer_sends; auto.
  - unfold run. rewrite run_loop_timers.
    + rewrite timers_run_app. simpl. apply armed_after_timer. exact Hck.
    + exact body_timers.
    + exact body_break.
    + rewrite no_close_app, HP. simpl. rewrite Hnb. reflexivity.
Qed.

End MaxDelay.

Lemma New_max_delay_bounds interval maxDelay :
  0 < maxDelay ->
  max_delay_bounds (New interval maxDelay) (timers0 interval maxDelay) (fun _ => True).
Proof.
  apply (@max_delay_bounds_loop bool unit unit New_select New_exit
           (fun pending => pending = true) (fun _ => True)).
  - apply New_select_timers.
  - apply New_select_break.
  - intros now c w [-> | ->] Hp; simpl.
    + exists tt. reflexivity.
    + rewrite Hp. exists tt. reflexivity.
  - intros; reflexivity.
Qed.

Lemma NewGrouped_max_delay_bounds V interval maxDelay :
  0 < maxDelay ->
  max_delay_bounds (NewGrouped (V:=V) interval maxDelay) (timers0 interval maxDelay)
                   (fun _ => True).
Proof.
  apply (@max_delay_bounds_loop _ _ _ (@NewGrouped_select V) (@NewGrouped_exit V)
           (fun _ => True) (fun _ => True)).
  - apply NewGrouped_select_timers.
  - apply NewGrouped_select_break.
  - intros now c w [-> | ->] _; simpl; eauto.
  - intros; exact I.
Qed.

Lemma NewCounted_max_delay_bounds interval maxDelay :
  0 < maxDelay ->
  max_delay_bounds (NewCounted interval maxDelay) (timers0 interval maxDelay)
                   (fun _ => True).
Proof.
  apply (@max_delay_bounds_loop _ _ _ NewCounted_select NewCounted_exit
           (fun _ => True) (fun _ => True)).
  - apply NewCounted_select_timers.
  - apply NewCounted_select_break.
  - intros now c w [-> | ->] _; simpl; eauto.
  - intros; exact I.
Qed.

Lemma NewLast_max_delay_bounds V interval maxDelay :
  0 < maxDelay ->
  max_delay_bounds (NewLast (V:=V) interval maxDelay) (timers0 interval maxDelay)
                   (fun v => v <> None).
Proof.
  apply (@max_delay_bounds_loop _ _ _ (@NewLast_select V) (@NewLast_exit V)
           (fun last => last <> None) (fun v => v <> None)).
  - apply NewLast_select_timers.
  - apply NewLast_select_break.
  - intros now c [a t o] [-> | ->] Hp; simpl in *.
    + eauto.
    + destruct a; [|congruence]. simpl. eauto.
  - intros now v w Hv. exact Hv.
Qed.

(** C4, as the code has it. With [maxDelay > 0], in each worker the
    max-delay case taken over a pending accumulator sends its value, resets
    it and leaves both timers nil; and a burst that begins at [tau0] cannot
    hold the output back beyond [tau0 + maxDelay]: a run of a worker that is
    never late and goes beyond that instant has flushed by then. For the
    last-value worker this needs the inputs not to be the nil interface. *)
Theorem max_delay_ends_burst (V : Type) (interval maxDelay : Z) :
  0 < maxDelay ->
  (max_delay_flushes New_select (fun pending => pending) (fun _ => tt) false /\
   max_delay_flushes (@NewGrouped_select V)
                     (fun pending => negb (Nat.eqb (length pending) 0))
                     (fun pending => pending) [] /\
   max_delay_flushes (@NewLast_select V)
                     (fun last => negb (is_nil last)) (fun last => last) None /\
   max_delay_flushes NewCounted_select
                     (fun count => negb (count =? 0)) (fun count => count) 0) /\
  max_delay_bounds (New interval maxDelay) (timers0 interval maxDelay)
                   (fun _ => True) /\
  max_delay_bounds (NewGrouped (V:=V) interval maxDelay) (timers0 interval maxDelay)
                   (fun _ => True) /\
  max_delay_bounds (NewCounted interval maxDelay) (timers0 interval maxDelay)
                   (fun _ => True) /\
  max_delay_bounds (NewLast (V:=V) interval maxDelay) (timers0 interval maxDelay)
                   (fun v => v <> None).
Proof.
  intros Hpos. split; [|auto using New_max_delay_bounds, NewGrouped_max_delay_bounds,
                         NewCounted_max_delay_bounds, NewLast_max_delay_bounds].
  assert (Hc : forall t, intervalTimer (clearInterval (clearMaxDelay (recvMaxDelayChan t))) = None /\
                         maxDelayTimer (clearInterval (clearMaxDelay (recvMaxDelayChan t))) = None).
  { intros t. destruct (timers_select_MaxDelayC unit 0 t) as (_ & _ & H1 & H2). auto. }
  split; [|split; [|split]]; intros now [a t o] Hne; simpl in Hne.
  - subst a. simpl. split; [|split; [|apply Hc]]; reflexivity.
  - simpl. split; [|split; [|apply Hc]]; reflexivity.
  - destruct a; [|discriminate]. simpl. split; [|split; [|apply Hc]]; reflexivity.
  - simpl. split; [|split; [|apply Hc]]; reflexivity.
Qed.

Lemma max_delay_ends_burst_witness :
  let mid := [(1, InValue tt); (2, InValue tt); (3, InValue tt); (4, InValue tt);
              (5, MaxDelayC)] in
  let tr := (0, InValue tt) :: mid ++ [(6, InValue tt)] in
  0 < 5 /\
  enabled tr (timers0 2 5) = true /\
  timely 0 tr (timers0 2 5) = true /\
  exists m1 tauk ck m2,
    mid = m1 ++ (tauk, ck) :: m2 /\ tauk <= 0 + 5 /\
    flushed_at (NewCounted 2 5) ((0, InValue tt) :: m1) (tauk, ck).
Proof.
  intros mid tr.
  split; [reflexivity|]. split; [reflexivity|]. split; [reflexivity|].
  destruct (@max_delay_ends_burst unit 2 5 eq_refl) as (_ & _ & _ & H & _).
  apply (H [] 0 tt mid 6 (InValue tt) 0); first [reflexivity | intros; exact I].
Defined.

(** The last-value worker fed the nil interface: the max-delay case sends
    nothing, and the run goes beyond the deadline without any output. *)
Lemma last_nil_burst_never_flushed :
  let tr : Trace (iface nat) :=
    [(0, InValue None); (1, InValue None); (2, InValue None); (3, InValue None);
     (4, InValue None); (5, MaxDelayC); (6, InValue None)] in
  enabled tr (timers0 2 5) = true /\
  timely 0 tr (timers0 2 5) = true /\
  sent (out (NewLast 2 5 tr)) = [] /\
  ~ max_delay_bounds (NewLast (V:=nat) 2 5) (timers0 2 5) (fun _ => True).
Proof.
  cbv zeta. split; [reflexivity|]. split; [reflexivity|]. split; [reflexivity|].
  intros H.
  destruct (H [] 0 None
              [(1, InValue None); (2, InValue None); (3, InValue None);
               (4, InValue None); (5, MaxDelayC)] 6 (InValue None) 0)
    as (m1 & tauk & ck & m2 & Hmid & _ & Hf);
    try reflexivity; try (intros; exact I).
  destruct Hf as ((x & Hx) & _).
  do 5 (destruct m1 as [|e m1]; simpl in Hmid;
        [ inversion Hmid; subst tauk ck; vm_compute in Hx; discriminate Hx
        | injection Hmid as He Hmid; subst e ]).
  destruct m1; discriminate Hmid.
Qed.

(** *** Without a max delay *)

Lemma timers_select_no_max V now (c : Select V) t :
  maxDelay t = 0 -> maxDelayTimer t = None ->
  maxDelayTimer (timers_select now c t) = None.
Proof.
  intros H0 Hn. destruct c.
  - destruct (timers_select_InValue now v t) as (_ & _ & _ & H).
    rewrite H, Hn, H0. reflexivity.
  - destruct (timers_select_InClosed V now t) as (_ & _ & _ & H). congruence.
  - destruct (timers_select_IntervalC V now t) as (_ & _ & _ & H). exact H.
  - destruct (timers_select_MaxDelayC V now t) as (_ & _ & _ & H). exact H.
Qed.

Lemma timers_run_no_max V (tr : Trace V) t :
  maxDelay t = 0 -> maxDelayTimer t = None -> maxDelayTimer (timers_run tr t) = None.
Proof.
  revert t. induction tr as [|[now c] tr IH]; intros t H0 Hn; [exact Hn|].
  unfold timers_run in *. simpl. apply IH.
  - destruct (timers_select_config now c t) as (_ & H). congruence.
  - apply timers_select_no_max; auto.
Qed.

Section NoMaxDelay.
Variables A T V : Type.
Variable body : Z -> Select V -> Worker A T -> Worker A T * bool.
Variable after : Worker A T -> Worker A T.
Hypothesis body_timers : forall now c w,
  timers (fst (body now c w)) = timers_select now c (timers w).
Hypothesis body_break : forall now c w, snd (body now c w) = is_break c.
Hypothesis after_timers : forall w, timers (after w) = timers w.
Hypothesis input_silent : forall now v w,
  sent (out (fst (body now (InValue v) w))) = sent (out w).

Lemma never_armed_from tr :
  forall w, maxDelay (timers w) = 0 -> maxDelayTimer (timers w) = None ->
            maxDelayTimer (timers (run_loop body after tr w)) = None.
Proof.
  induction tr as [|[now c] tr IH]; intros w H0 Hn; [exact Hn|].
  rewrite run_loop_cons by auto.
  assert (Hn' : maxDelayTimer (timers (fst (body now c w))) = None)
    by (rewrite body_timers; apply timers_select_no_max; auto).
  destruct (is_break c).
  - rewrite after_timers. exact Hn'.
  - apply IH; auto. rewrite body_timers.
    destruct (timers_select_config now c (timers w)) as (_ & H). congruence.
Qed.

Lemma never_armed_loop (a : A) interval :
  never_armed (fun tr => run_loop body after tr (start a interval 0)).
Proof. intros tr. apply never_armed_from; reflexivity. Qed.

Lemma flush_only_when_quiet_loop (a : A) interval :
  flush_only_when_quiet (fun tr => run_loop body after tr (start a interval 0))
                        (timers0 interval 0).
Proof.
  intros pre now c He Hs.
  apply enabled_app in He. destruct He as (Hpre & _ & He).
  apply enabled_cons in He. destruct He as [Hr _].
  rewrite run_loop_snoc in Hs by auto. cbv zeta in Hs.
  destruct c as [v| | |]; simpl is_break in Hs; cbv iota in Hs.
  - rewrite input_silent in Hs. congruence.
  - left. reflexivity.
  - right. split; [reflexivity|].
    simpl in Hr. apply fired_due in Hr. destruct Hr as (d & Hd & Hle).
    destruct (@exists_last _ pre) as (pre' & [tau e] & ->).
    { intros ->. discriminate Hd. }
    rewrite timers_run_snoc in Hd.
    set (tp := timers_run pre' (timers0 interval 0)) in *.
    destruct e as [v| | |].
    + exists pre', tau, v. split; [reflexivity|].
      destruct (timers_select_InValue tau v tp) as (_ & _ & Ht & _).
      rewrite Ht in Hd. simpl in Hd.
      destruct (timers_run_config pre' (timers0 interval 0)) as (Hc & _).
      fold tp in Hc. rewrite Hc in Hd. simpl in Hd.
      injection Hd as <-. simpl. exact Hle.
    + destruct (timers_select_InClosed V tau tp) as (_ & _ & Ht & _).
      rewrite Ht in Hd. discriminate Hd.
    + destruct (timers_select_IntervalC V tau tp) as (_ & _ & Ht & _).
      rewrite Ht, drain_due in Hd. discriminate Hd.
    + destruct (timers_select_MaxDelayC V tau tp) as (_ & _ & Ht & _).
      rewrite Ht in Hd. discriminate Hd.
  - exfalso. simpl in Hr. apply fired_due in Hr. destruct Hr as (d & Hd & _).
    rewrite timers_run_no_max in Hd by reflexivity. discriminate Hd.
Qed.

End NoMaxDelay.

(** *** The instants of a run *)

Lemma timely_times V (tr : Trace V) :
  forall clock t, timely clock tr t = true -> Forall (fun e => clock <= fst e) tr.
Proof.
  induction tr as [|[now c] tr IH]; intros clock t H; [constructor|].
  apply timely_head in H. destruct H as (Hle & _ & _ & H).
  constructor; [exact Hle|].
  apply IH in H. eapply Forall_impl; [|exact H]. simpl. intros; lia.
Qed.

Lemma inputs_times V (tr : Trace V) clock :
  Forall (fun e => clock <= fst e) tr -> Forall (fun e => clock <= fst e) (inputs tr).
Proof.
  intros H. unfold inputs. rewrite Forall_forall in *.
  intros e He. apply filter_In in He. apply H. tauto.
Qed.

(** *** The pending inputs *)

Lemma since_flush_input V (pre : Trace V) now v :
  since_flush (pre ++ [(now, InValue v)]) = since_flush pre ++ [v].
Proof. unfold since_flush. rewrite rev_unit. reflexivity. Qed.

Lemma since_flush_timer V (pre : Trace V) now c :
  (forall v, c <> InValue v) -> since_flush (pre ++ [(now, c)]) = [].
Proof.
  intros H. unfold since_flush. rewrite rev_unit.
  destruct c as [v| | |]; [destruct (H v eq_refl)| | |]; reflexivity.
Qed.

Lemma wrap_zero k : 0 <= k < GoInt.modulus -> GoInt.wrap k = 0 -> k = 0.
Proof.
  intros Hk H. unfold GoInt.wrap in H.
  assert (Hh : GoInt.modulus = 2 * GoInt.half) by reflexivity.
  assert (H0 : 0 < GoInt.half) by reflexivity.
  destruct (Z_lt_ge_dec k GoInt.half) as [Hlt|Hge].
  - rewrite Z.mod_small in H by lia. lia.
  - replace (k + GoInt.half) with (k - GoInt.half + 1 * GoInt.modulus) in H by lia.
    rewrite Z_mod_plus_full, Z.mod_small in H by lia. lia.
Qed.

Lemma len_snoc (X : Type) (l : list X) x : len (l ++ [x]) = len l + 1.
Proof. unfold len. rewrite length_app. simpl. lia. Qed.

(** The accumulator of a worker in its loop is what it keeps of the inputs
    received since the last timer case. *)
Section Pending.
Variables A T V : Type.
Variable body : Z -> Select V -> Worker A T -> Worker A T * bool.
Variable after : Worker A T -> Worker A T.
Variable keep : list V -> A.
Hypothesis body_break : forall now c w, snd (body now c w) = is_break c.
Hypothesis keep_input : forall now v w p,
  acc w = keep p -> acc (fst (body now (InValue v) w)) = keep (p ++ [v]).
Hypothesis keep_interval : forall now w, acc (fst (body now IntervalC w)) = keep [].
Hypothesis keep_max_delay : forall now w, acc (fst (body now MaxDelayC w)) = keep [].

Lemma acc_pending pre w :
  no_close pre = true -> acc w = keep [] ->
  acc (run_loop body after pre w) = keep (since_flush pre).
Proof.
  intros Hpre Hw. induction pre as [|[now c] pre IH] using rev_ind; [exact Hw|].
  rewrite no_close_app in Hpre. apply andb_prop in Hpre. destruct Hpre as [Hpre Hc].
  rewrite run_loop_snoc by auto. cbv zeta.
  destruct c as [v| | |]; simpl is_break; cbv iota.
  - rewrite since_flush_input. apply keep_input. auto.
  - discriminate Hc.
  - rewrite since_flush_timer by discriminate. apply keep_interval.
  - rewrite since_flush_timer by discriminate. apply keep_max_delay.
Qed.

End Pending.

Lemma New_pending interval maxDelay (pre : Trace unit) :
  no_close pre = true ->
  acc (New interval maxDelay pre) = pending_flag (since_flush pre).
Proof.
  intros H. unfold New, New_loop.
  apply (@acc_pending bool unit unit New_select New_exit (@pending_flag unit));
    auto using New_select_break.
  - intros now v w p _. simpl. destruct p; reflexivity.
  - intros now w. simpl. destruct (acc w); reflexivity.
Qed.

Lemma NewGrouped_since_flush V interval maxDelay (pre : Trace (iface V)) :
  no_close pre = true ->
  acc (NewGrouped interval maxDelay pre) = since_flush pre.
Proof.
  intros H. unfold NewGrouped, NewGrouped_loop.
  apply (@acc_pending _ _ _ (@NewGrouped_select V) (@NewGrouped_exit V) (fun p => p));
    auto using NewGrouped_select_break.
  intros now v w p Hw. simpl. rewrite Hw. reflexivity.
Qed.

Lemma NewLast_since_flush V interval maxDelay (pre : Trace (iface V)) :
  no_close pre = true ->
  acc (NewLast interval maxDelay pre) = last_of (since_flush pre).
Proof.
  intros H. unfold NewLast, NewLast_loop.
  apply (@acc_pending _ _ _ (@NewLast_select V) (@NewLast_exit V) (@last_of V));
    auto using NewLast_select_break.
  intros now v w p _. simpl. symmetry. apply last_of_snoc.
Qed.

Lemma NewCounted_since_flush interval maxDelay (pre : Trace unit) :
  no_close pre = true ->
  acc (NewCounted interval maxDelay pre) = GoInt.wrap (len (since_flush pre)).
Proof.
  intros H. unfold NewCounted, NewCounted_loop.
  apply (@acc_pending _ _ _ NewCounted_select NewCounted_exit
           (fun p => GoInt.wrap (len p)));
    auto using NewCounted_select_break.
  intros now v w p Hw. simpl. rewrite Hw. unfold GoInt.incr.
  rewrite wrap_wrap_add, len_snoc. reflexivity.
Qed.

Lemma New_close_flushes interval maxDelay :
  close_flushes (New interval maxDelay) (fun _ => True) (one_if_any (fun _ => tt)).
Proof.
  intros pre now rest Hpre _. cbv zeta.
  destruct (@New_final_flush interval maxDelay pre now rest Hpre) as (Ho & Hs & Hc).
  split; [exact Ho|]. split; [|exact Hc].
  rewrite Hs, New_pending by exact Hpre.
  destruct (since_flush pre); reflexivity.
Qed.

Lemma NewGrouped_close_flushes V interval maxDelay :
  close_flushes (NewGrouped (V:=V) interval maxDelay) (fun _ => True)
                (one_if_any (fun p => p)).
Proof.
  intros pre now rest Hpre _. cbv zeta.
  destruct (@NewGrouped_final_flush V interval maxDelay pre now rest Hpre)
    as (Ho & Hs & Hc).
  split; [exact Ho|]. split; [|exact Hc].
  rewrite Hs, NewGrouped_since_flush by exact Hpre.
  destruct (since_flush pre); reflexivity.
Qed.

Lemma NewLast_close_flushes V interval maxDelay :
  close_flushes (NewLast (V:=V) interval maxDelay) (fun _ => True)
                (@latest_if_not_nil V).
Proof.
  intros pre now rest Hpre _. cbv zeta.
  destruct (@NewLast_final_flush V interval maxDelay pre now rest Hpre)
    as (Ho & Hs & Hc).
  split; [exact Ho|]. split; [|exact Hc].
  rewrite Hs, NewLast_since_flush by exact Hpre.
  unfold latest_if_not_nil. destruct (is_nil (last_of (since_flush pre))); reflexivity.
Qed.

Lemma NewCounted_close_flushes interval maxDelay :
  close_flushes (NewCounted interval maxDelay) (fun p => len p < GoInt.modulus)
                (one_if_any (fun p => GoInt.wrap (len p))).
Proof.
  intros pre now rest Hpre Hfit. cbv zeta.
  destruct (@NewCounted_final_flush interval maxDelay pre now rest Hpre)
    as (Ho & Hs & Hc).
  split; [exact Ho|]. split; [|exact Hc].
  rewrite Hs, NewCounted_since_flush by exact Hpre.
  destruct (since_flush pre) as [|v p] eqn:E; [reflexivity|].
  destruct (GoInt.wrap (len (v :: p)) =? 0) eqn:E0; [|reflexivity].
  exfalso. apply Z.eqb_eq in E0. apply wrap_zero in E0.
  - unfold len in E0. simpl length in E0. lia.
  - split; [unfold len; lia|exact Hfit].
Qed.

(** C2, as the code has it. Closing the input of a worker that is in its
    loop, with [p] the inputs received since the last timer case: the signal
    worker
    sends one signal, the grouped worker the list [p] and the counted worker
    the size of [p] (fewer than 2^64 inputs, the range of its counter)
    exactly when [p] is not empty; the last-value worker sends the latest
    input of [p] exactly when that input is not nil; nothing else is sent,
    and the output, open until then, is closed. Closing the input of a worker
    that has received nothing gives an output with no value, closed. *)
Theorem close_flushes_pending_once (V : Type) (interval maxDelay : Z) :
  (close_flushes (New interval maxDelay) (fun _ => True) (one_if_any (fun _ => tt)) /\
   close_flushes (NewGrouped (V:=V) interval maxDelay) (fun _ => True)
                 (one_if_any (fun p => p)) /\
   close_flushes (NewCounted interval maxDelay) (fun p => len p < GoInt.modulus)
                 (one_if_any (fun p => GoInt.wrap (len p))) /\
   close_flushes (NewLast (V:=V) interval maxDelay) (fun _ => True)
                 (@latest_if_not_nil V)) /\
  (forall now (rest : Trace unit) (rest' : Trace (iface V)),
     out (New interval maxDelay ((now, InClosed) :: rest)) = mkChan [] true /\
     out (NewGrouped interval maxDelay ((now, InClosed) :: rest')) = mkChan [] true /\
     out (NewLast interval maxDelay ((now, InClosed) :: rest')) = mkChan [] true /\
     out (NewCounted interval maxDelay ((now, InClosed) :: rest)) = mkChan [] true).
Proof.
  split.
  - auto using New_close_flushes, NewGrouped_close_flushes, NewLast_close_flushes,
      NewCounted_close_flushes.
  - intros now rest rest'. repeat split; reflexivity.
Qed.

Lemma close_flushes_pending_once_witness :
  let pre : Trace unit :=
    [(0, InValue tt); (2, IntervalC); (3, InValue tt); (4, InValue tt)] in
  let pre' : Trace (iface nat) :=
    [(0, InValue (Some 7%nat)); (2, IntervalC); (3, InValue (Some 8%nat));
     (4, InValue (Some 9%nat))] in
  (no_close pre = true /\ no_close pre' = true /\
   len (since_flush pre) < GoInt.modulus) /\
  out (New 2 20 (pre ++ [(5, InClosed)])) = mkChan [tt; tt] true /\
  out (NewGrouped 2 20 (pre' ++ [(5, InClosed)])) =
    mkChan [[Some 7%nat]; [Some 8%nat; Some 9%nat]] true /\
  out (NewCounted 2 20 (pre ++ [(5, InClosed)])) = mkChan [1; 2] true /\
  out (NewLast 2 20 (pre' ++ [(5, InClosed)])) = mkChan [Some 7%nat; Some 9%nat] true /\
  out (NewLast (V:=nat) 2 20 [(5, InClosed)]) = mkChan [] true.
Proof.
  intros pre pre'.
  assert (Hf : len (since_flush pre) < GoInt.modulus) by reflexivity.
  split; [repeat split; reflexivity|].
  destruct (close_flushes_pending_once nat 2 20) as ((H1 & H2 & H3 & H4) & H0).
  destruct (H1 pre 5 [] eq_refl I) as (_ & Hs1 & Hc1).
  destruct (H2 pre' 5 [] eq_refl I) as (_ & Hs2 & Hc2).
  destruct (H3 pre 5 [] eq_refl Hf) as (_ & Hs3 & Hc3).
  destruct (H4 pre' 5 [] eq_refl I) as (_ & Hs4 & Hc4).
  destruct (H0 5 [] []) as (_ & _ & H5 & _).
  assert (E : forall (X : Type) (c : Chan X) l, sent c = l -> closed c = true ->
                                             c = mkChan l true).
  { intros X [s b] l. simpl. intros -> ->. reflexivity. }
  split; [apply E; [exact Hs1|exact Hc1]|].
  split; [apply E; [exact Hs2|exact Hc2]|].
  split; [apply E; [exact Hs3|exact Hc3]|].
  split; [apply E; [exact Hs4|exact Hc4]|].
  exact H5.
Defined.

Lemma since_flush_burst V now (v : V) n : since_flush (burst now v n) = repeat v n.
Proof.
  induction n as [|n IH]; [reflexivity|].
  unfold burst in *. cbn [repeat]. rewrite repeat_cons, since_flush_input, IH.
  symmetry. apply repeat_cons.
Qed.

(** A nil input is pending, with both deadlines armed, and closing the input
    sends nothing; 2^64 events are pending, and closing the input sends
    nothing. *)
Lemma close_drops_pending :
  (let pre : Trace (iface nat) := [(0, InValue None)] in
   enabled (pre ++ [(1, InClosed)]) (timers0 2 20) = true /\
   since_flush pre = [None] /\
   running (intervalTimer (timers (NewLast 2 20 pre))) = true /\
   running (maxDelayTimer (timers (NewLast 2 20 pre))) = true /\
   out (NewLast 2 20 (pre ++ [(1, InClosed)])) = mkChan [] true) /\
  (let pre := burst 0 tt (Z.to_nat GoInt.modulus) in
   enabled (pre ++ [(0, InClosed)]) (timers0 2 0) = true /\
   len (since_flush pre) = GoInt.modulus /\
   out (NewCounted 2 0 (pre ++ [(0, InClosed)])) = mkChan [] true).
Proof.
  split; cbv zeta.
  - repeat split; reflexivity.
  - split; [apply enabled_burst_close|]. split.
    + rewrite since_flush_burst. unfold len. rewrite repeat_length.
      apply Z2Nat.id. discriminate.
    + unfold NewCounted.
      change (start 0 2 0) with (mkWorker (T:=Z) 0 (timers0 2 0) make).
      destruct (NewCounted_burst 0 (Z.to_nat GoInt.modulus) [(0, InClosed)]
                  (timers0 2 0) (make (T:=Z)) (a:=0)) as (t' & H).
      { split; [apply Z.opp_nonpos_nonneg|]; reflexivity || discriminate. }
      rewrite H. rewrite Z2Nat.id by discriminate.
      replace (GoInt.wrap (0 + GoInt.modulus)) with 0 by (vm_compute; reflexivity).
      reflexivity.
Qed.

(** *** Two bursts and a pause, without max delay *)

Lemma plain_select V i now (c : Select V) t :
  plain i t -> plain i (timers_select now c t).
Proof.
  intros (Hi & H0 & Hn).
  destruct (timers_select_config now c t) as (H1 & H2).
  repeat split; try congruence. apply timers_select_no_max; auto.
Qed.

Lemma due_after_input V i now (v : V) t :
  plain i t -> 0 < i ->
  due (intervalTimer (timers_select now (InValue v) t)) = Some (now + i).
Proof.
  intros (Hi & _) Hpos.
  destruct (timers_select_InValue now v t) as (_ & _ & H & _).
  rewrite H, Hi. simpl. f_equal. lia.
Qed.

Lemma due_after_interval V now t :
  due (intervalTimer (timers_select now (@IntervalC V) t)) = None.
Proof.
  destruct (timers_select_IntervalC V now t) as (_ & _ & H & _).
  rewrite H. apply drain_due.
Qed.

Lemma plain_not_fired i now t : plain i t -> fired now (maxDelayTimer t) = false.
Proof. intros (_ & _ & Hn). rewrite Hn. reflexivity. Qed.

(** An input that the producer sends before the interval timer is due is
    the next case of a run that is never late. *)
Lemma head_is_input V i (tr : Trace V) t clock tau v rest :
  plain i t ->
  enabled tr t = true ->
  timely clock tr t = true ->
  (forall d, due (intervalTimer t) = Some d -> tau < d) ->
  inputs tr = (tau, InValue v) :: rest ->
  exists tr',
    tr = (tau, InValue v) :: tr' /\ inputs tr' = rest /\
    enabled tr' (timers_select tau (InValue v) t) = true /\
    timely tau tr' (timers_select tau (InValue v) t) = true.
Proof.
  intros Hp He Ht Hd Hin.
  destruct tr as [|[now c] tr']; [discriminate Hin|].
  apply enabled_cons in He. destruct He as [Hr He].
  apply timely_head in Ht. destruct Ht as (_ & _ & _ & Ht).
  destruct c as [v'| | |]; simpl is_break in He; cbv iota in He.
  - change (inputs ((now, InValue v') :: tr')) with ((now, InValue v') :: inputs tr') in Hin.
    injection Hin as -> -> Hin. exists tr'. auto.
  - change (inputs ((now, @InClosed V) :: tr')) with ((now, @InClosed V) :: inputs tr')
      in Hin.
    discriminate Hin.
  - exfalso.
    change (inputs ((now, @IntervalC V) :: tr')) with (inputs tr') in Hin.
    simpl in Hr. apply fired_due in Hr. destruct Hr as (d & Ed & Hle).
    specialize (Hd _ Ed).
    pose proof (inputs_times (timely_times _ _ _ Ht)) as Hall.
    rewrite Hin in Hall. apply Forall_inv in Hall. simpl in Hall. lia.
  - exfalso. simpl in Hr. rewrite (plain_not_fired now Hp) in Hr. discriminate Hr.
Qed.

(** An input that the producer sends after the interval timer is due comes
    after the interval case, taken at the deadline, in a run that is never
    late. *)
Lemma head_is_timer V i (tr : Trace V) t clock d tau c0 rest :
  plain i t ->
  enabled tr t = true ->
  timely clock tr t = true ->
  due (intervalTimer t) = Some d ->
  d < tau ->
  inputs tr = (tau, c0) :: rest ->
  exists tr',
    tr = (d, IntervalC) :: tr' /\ inputs tr' = (tau, c0) :: rest /\
    enabled tr' (timers_select d (@IntervalC V) t) = true /\
    timely d tr' (timers_select d (@IntervalC V) t) = true.
Proof.
  intros Hp He Ht Ed Hlt Hin.
  destruct tr as [|[now c] tr']; [discriminate Hin|].
  apply enabled_cons in He. destruct He as [Hr He].
  apply timely_head in Ht. destruct Ht as (_ & Hi & _ & Ht).
  specialize (Hi _ Ed).
  destruct c as [v'| | |]; simpl is_break in He; cbv iota in He.
  - exfalso.
    change (inputs ((now, InValue v') :: tr')) with ((now, InValue v') :: inputs tr') in Hin.
    injection Hin as -> _ _. lia.
  - exfalso.
    change (inputs ((now, @InClosed V) :: tr')) with ((now, @InClosed V) :: inputs tr')
      in Hin.
    injection Hin as -> _ _. lia.
  - change (inputs ((now, @IntervalC V) :: tr')) with (inputs tr') in Hin.
    simpl in Hr. apply fired_due in Hr. destruct Hr as (d' & Ed' & Hle).
    assert (d' = d) by congruence. subst d'.
    assert (now = d) by lia. subst now.
    exists tr'. auto.
  - exfalso. simpl in Hr. rewrite (plain_not_fired now Hp) in Hr. discriminate Hr.
Qed.

Lemma last_cons (x d : Z) l : last (x :: l) d = last l x.
Proof.
  revert x d. induction l as [|y l IH]; intros x d; [reflexivity|].
  change (last (x :: y :: l) d) with (last (y :: l) d).
  rewrite (IH y d). symmetry. apply IH.
Qed.

(** A burst whose events are less than [interval] apart is taken as it
    comes: no timer case falls within it. *)
Lemma burst_prefix i taus :
  forall prev (tr : Trace unit) t clock rest,
    0 < i ->
    plain i t ->
    enabled tr t = true ->
    timely clock tr t = true ->
    due (intervalTimer t) = Some (prev + i) ->
    dense i prev taus ->
    inputs tr = sends taus ++ rest ->
    exists tr' t' clock',
      tr = sends taus ++ tr' /\ inputs tr' = rest /\
      plain i t' /\
      enabled tr' t' = true /\
      timely clock' tr' t' = true /\
      due (intervalTimer t') = Some (last taus prev + i).
Proof.
  induction taus as [|tau taus IH]; intros prev tr t clock rest Hpos Hp He Ht Ed Hd Hin.
  - exists tr, t, clock. simpl in *. repeat split; auto; apply Hp.
  - destruct Hd as [Hlt Hd].
    change (sends (tau :: taus) ++ rest) with ((tau, InValue tt) :: sends taus ++ rest) in Hin.
    destruct (@head_is_input unit i tr t clock tau tt (sends taus ++ rest) Hp He Ht)
      as (tr1 & -> & Hin1 & He1 & Ht1); [|exact Hin|].
    { intros d E. rewrite Ed in E. injection E as <-. exact Hlt. }
    destruct (IH tau tr1 (timers_select tau (InValue tt) t) tau rest Hpos)
      as (tr' & t' & clock' & -> & Hin' & Hp' & He' & Ht' & Ed');
      auto using plain_select, due_after_input.
    exists tr', t', clock'. rewrite last_cons. repeat split; auto; apply Hp'.
Qed.

(** The same for a burst that begins when the interval timer is not due
    before its first event. *)
Lemma burst_taken i tau taus (tr : Trace unit) t clock rest :
  0 < i ->
  plain i t ->
  enabled tr t = true ->
  timely clock tr t = true ->
  (forall d, due (intervalTimer t) = Some d -> tau < d) ->
  dense i tau taus ->
  inputs tr = sends (tau :: taus) ++ rest ->
  exists tr' t' clock',
    tr = sends (tau :: taus) ++ tr' /\ inputs tr' = rest /\
    plain i t' /\
    enabled tr' t' = true /\
    timely clock' tr' t' = true /\
    due (intervalTimer t') = Some (last taus tau + i).
Proof.
  intros Hpos Hp He Ht Hd Hde Hin.
  change (sends (tau :: taus) ++ rest) with ((tau, InValue tt) :: sends taus ++ rest) in Hin.
  destruct (@head_is_input unit i tr t clock tau tt (sends taus ++ rest) Hp He Ht Hd Hin)
    as (tr1 & -> & Hin1 & He1 & Ht1).
  destruct (@burst_prefix i taus tau tr1 (timers_select tau (InValue tt) t) tau rest Hpos)
    as (tr' & t' & clock' & -> & Hin' & Hp' & He' & Ht' & Ed');
    auto using plain_select, due_after_input.
  exists tr', t', clock'. repeat split; auto; apply Hp'.
Qed.

(** Once the producer has only the close left to do, the run ends with the
    close, after the interval case at most. *)
Lemma close_is_last i (tr : Trace unit) t stop :
  plain i t ->
  enabled tr t = true ->
  inputs tr = [(stop, InClosed)] ->
  tr = [(stop, InClosed)] \/ exists d, tr = [(d, IntervalC); (stop, InClosed)].
Proof.
  intros Hp He Hin.
  destruct tr as [|[now c] tr']; [discriminate Hin|].
  apply enabled_cons in He. destruct He as [Hr He].
  destruct c as [v| | |]; simpl is_break in He; cbv iota in He.
  - discriminate Hin.
  - subst tr'. left. exact Hin.
  - right. exists now.
    change (inputs ((now, @IntervalC unit) :: tr')) with (inputs tr') in Hin.
    destruct tr' as [|[now' c'] tr'']; [discriminate Hin|].
    apply enabled_cons in He. destruct He as [Hr' He].
    destruct c' as [v| | |]; simpl is_break in He; cbv iota in He.
    + discriminate Hin.
    + subst tr''. f_equal. exact Hin.
    + exfalso. unfold ready in Hr'. apply fired_due in Hr'. destruct Hr' as (d & Ed & _).
      rewrite due_after_interval in Ed. discriminate Ed.
    + exfalso. unfold ready in Hr'.
      rewrite (plain_not_fired now' (plain_select now IntervalC Hp)) in Hr'.
      discriminate Hr'.
  - exfalso. simpl in Hr. rewrite (plain_not_fired now Hp) in Hr. discriminate Hr.
Qed.

Lemma NewCounted_sends taus rest :
  forall a t o,
    - GoInt.half <= a < GoInt.half ->
    exists t',
      NewCounted_loop (sends taus ++ rest) (mkWorker a t o) =
      NewCounted_loop rest (mkWorker (GoInt.wrap (a + len taus)) t' o).
Proof.
  induction taus as [|tau taus IH]; intros a t o Ha.
  - exists t. simpl. unfold len. simpl. rewrite Z.add_0_r, wrap_small by exact Ha.
    reflexivity.
  - change (sends (tau :: taus) ++ rest) with ((tau, InValue tt) :: sends taus ++ rest).
    unfold NewCounted_loop. rewrite run_loop_cons by apply NewCounted_select_break.
    simpl is_break. cbv iota.
    destruct (IH (GoInt.incr a)
                 (timers (fst (NewCounted_select tau (InValue tt) (mkWorker a t o)))) o
                 (wrap_range (a + 1))) as (t' & H).
    exists t'. unfold NewCounted_loop in H.
    change (fst (NewCounted_select tau (InValue tt) (mkWorker a t o)))
      with (mkWorker (GoInt.incr a)
              (timers (fst (NewCounted_select tau (InValue tt) (mkWorker a t o)))) o).
    rewrite H. unfold GoInt.incr. rewrite wrap_wrap_add.
    unfold len. simpl length. rewrite Nat2Z.inj_succ. do 3 f_equal. lia.
Qed.

Lemma len_cons_pos (X : Type) (x : X) l : 0 < len (x :: l).
Proof. unfold len. simpl length. lia. Qed.

(** The counted worker on the run of two bursts. *)
Lemma NewCounted_two_runs i b1 d b2 tail :
  0 < len b1 < GoInt.half ->
  0 < len b2 < GoInt.half ->
  (tail = [] \/ exists d', tail = [(d', IntervalC)]) ->
  forall stop,
    out (NewCounted i 0 (sends b1 ++ (d, IntervalC) :: sends b2 ++ tail ++ [(stop, InClosed)]))
    = mkChan [len b1; len b2] true.
Proof.
  intros H1 H2 Htail stop. unfold NewCounted.
  change (start 0 i 0) with (mkWorker (T:=Z) 0 (timers0 i 0) make).
  assert (Hh : 0 < GoInt.half) by reflexivity.
  destruct (NewCounted_sends b1
              ((d, IntervalC) :: sends b2 ++ tail ++ [(stop, InClosed)])
              (timers0 i 0) (make (T:=Z)) (a:=0)) as (t1 & E1); [lia|].
  rewrite E1. clear E1. rewrite Z.add_0_l, wrap_small by lia.
  unfold NewCounted_loop at 1. rewrite run_loop_cons by apply NewCounted_select_break.
  simpl is_break. cbv iota.
  set (w1 := fst (NewCounted_select d IntervalC (mkWorker (len b1) t1 make))).
  destruct (NewCounted_sends b2 (tail ++ [(stop, InClosed)])
              (timers w1) (out w1) (a:=0)) as (t2 & E2); [lia|].
  change w1 with (mkWorker 0 (timers w1) (out w1)).
  fold NewCounted_loop. rewrite E2. clear E2. rewrite Z.add_0_l, wrap_small by lia.
  assert (Hz : (len b2 =? 0) = false) by (apply Z.eqb_neq; lia).
  destruct Htail as [->|(d' & ->)]; simpl; rewrite ?Hz; reflexivity.
Qed.

Lemma NewCounted_two_bursts i a b1 c b2 stop clock (tr : Trace unit) :
  0 < i ->
  paused_once i a b1 c b2 ->
  len (a :: b1) < GoInt.half ->
  len (c :: b2) < GoInt.half ->
  enabled tr (timers0 i 0) = true ->
  timely clock tr (timers0 i 0) = true ->
  inputs tr = burst_pause_burst a b1 c b2 stop ->
  out (NewCounted i 0 tr) = mkChan [len (a :: b1); len (c :: b2)] true.
Proof.
  intros Hpos (Hd1 & Hpause & Hd2) Hn1 Hn2 He Ht Hin.
  unfold burst_pause_burst in Hin.
  assert (Hp0 : plain i (timers0 i 0)) by (repeat split).
  destruct (@burst_taken i a b1 tr (timers0 i 0) clock
              (sends (c :: b2) ++ [(stop, InClosed)]) Hpos Hp0 He Ht)
    as (tr1 & t1 & k1 & -> & Hin1 & Hp1 & He1 & Ht1 & Ed1); auto.
  { intros d E. discriminate E. }
  change (sends (c :: b2) ++ [(stop, @InClosed unit)])
    with ((c, InValue tt) :: sends b2 ++ [(stop, @InClosed unit)]) in Hin1.
  destruct (@head_is_timer unit i tr1 t1 k1 (last b1 a + i) c (InValue tt)
              (sends b2 ++ [(stop, InClosed)]) Hp1 He1 Ht1 Ed1 Hpause Hin1)
    as (tr2 & -> & Hin2 & He2 & Ht2).
  destruct (@burst_taken i c b2 tr2 (timers_select (last b1 a + i) IntervalC t1)
              (last b1 a + i) [(stop, InClosed)] Hpos
              (plain_select (last b1 a + i) IntervalC Hp1) He2 Ht2)
    as (tr3 & t3 & k3 & -> & Hin3 & Hp3 & He3 & Ht3 & Ed3); auto.
  { intros d E. rewrite due_after_interval in E. discriminate E. }
  pose proof (len_cons_pos a b1). pose proof (len_cons_pos c b2).
  destruct (@close_is_last i tr3 t3 stop Hp3 He3 Hin3) as [->|(d' & ->)].
  - apply (@NewCounted_two_runs i (a :: b1) (last b1 a + i) (c :: b2) []); auto; lia.
  - apply (@NewCounted_two_runs i (a :: b1) (last b1 a + i) (c :: b2) [(d', IntervalC)]);
      eauto; lia.
Qed.

(** C5, as the code has it. A worker constructed with [maxDelay = 0] never
    has a max-delay timer, whatever happens; it sends only when its input is closed,
    or at the interval case taken right after an input that is then at least
    [interval] old (no other input came in between); and the counted worker,
    fed a burst of events less than [interval] apart, then, after a pause
    that exceeds [interval], a second such burst, and closed, sends exactly
    the sizes of the two bursts (10 and 10 for bursts of ten events) and
    closes its output, in every run in which it is never late, whatever the
    instants of the events and of the close. *)
Theorem no_max_delay (V : Type) (interval : Z) :
  (never_armed (New interval 0) /\
   never_armed (NewGrouped (V:=V) interval 0) /\
   never_armed (NewLast (V:=V) interval 0) /\
   never_armed (NewCounted interval 0)) /\
  (flush_only_when_quiet (New interval 0) (timers0 interval 0) /\
   flush_only_when_quiet (NewGrouped (V:=V) interval 0) (timers0 interval 0) /\
   flush_only_when_quiet (NewLast (V:=V) interval 0) (timers0 interval 0) /\
   flush_only_when_quiet (NewCounted interval 0) (timers0 interval 0)) /\
  (forall (a : Z) (b1 : list Z) (c : Z) (b2 : list Z) (stop clock : Z)
          (tr : Trace unit),
     0 < interval ->
     paused_once interval a b1 c b2 ->
     len (a :: b1) < GoInt.half ->
     len (c :: b2) < GoInt.half ->
     enabled tr (timers0 interval 0) = true ->
     timely clock tr (timers0 interval 0) = true ->
     inputs tr = burst_pause_burst a b1 c b2 stop ->
     out (NewCounted interval 0 tr) = mkChan [len (a :: b1); len (c :: b2)] true).
Proof.
  split; [|split].
  - split; [|split; [|split]].
    + apply never_armed_loop; auto using New_select_timers, New_select_break.
    + apply never_armed_loop;
        auto using NewGrouped_select_timers, NewGrouped_select_break.
    + apply never_armed_loop; auto using NewLast_select_timers, NewLast_select_break.
    + apply never_armed_loop;
        auto using NewCounted_select_timers, NewCounted_select_break.
  - split; [|split; [|split]].
    + apply flush_only_when_quiet_loop;
        auto using New_select_timers, New_select_break.
    + apply flush_only_when_quiet_loop;
        auto using NewGrouped_select_timers, NewGrouped_select_break.
    + apply flush_only_when_quiet_loop;
        auto using NewLast_select_timers, NewLast_select_break.
    + apply flush_only_when_quiet_loop;
        auto using NewCounted_select_timers, NewCounted_select_break.
  - intros a b1 c b2 stop clock tr. apply NewCounted_two_bursts.
Qed.

Lemma no_max_delay_witness :
  let b1 := map (fun k => Z.of_nat k * ms) (seq 1 9) in
  let b2 := map (fun k => Z.of_nat k * ms) (seq 13 9) in
  let tr := ticks 0 10 ++ [(11 * ms, IntervalC)] ++ ticks 12 10 ++ [(21 * ms, InClosed)] in
  (0 < 2 * ms /\
   paused_once (2 * ms) 0 b1 (12 * ms) b2 /\
   len (0 :: b1) < GoInt.half /\
   len (12 * ms :: b2) < GoInt.half /\
   enabled tr (timers0 (2 * ms) 0) = true /\
   timely 0 tr (timers0 (2 * ms) 0) = true /\
   inputs tr = burst_pause_burst 0 b1 (12 * ms) b2 (21 * ms) /\
   burst_pause_burst 0 b1 (12 * ms) b2 (21 * ms) = two_bursts) /\
  out (NewCounted (2 * ms) 0 tr) = mkChan [10; 10] true.
Proof.
  intros b1 b2 tr.
  assert (H0 : 0 < 2 * ms) by reflexivity.
  assert (Hp : paused_once (2 * ms) 0 b1 (12 * ms) b2)
    by (repeat split; reflexivity).
  assert (H1 : len (0 :: b1) < GoInt.half) by reflexivity.
  assert (H2 : len (12 * ms :: b2) < GoInt.half) by reflexivity.
  assert (He : enabled tr (timers0 (2 * ms) 0) = true) by (vm_compute; reflexivity).
  assert (Ht : timely 0 tr (timers0 (2 * ms) 0) = true) by (vm_compute; reflexivity).
  assert (Hi : inputs tr = burst_pause_burst 0 b1 (12 * ms) b2 (21 * ms))
    by (vm_compute; reflexivity).
  split.
  - repeat split; auto; vm_compute; reflexivity.
  - destruct (no_max_delay unit (2 * ms)) as (_ & _ & H).
    exact (H 0 b1 (12 * ms) b2 (21 * ms) 0 tr H0 Hp H1 H2 He Ht Hi).
Defined.

(** The schedule of the test, ten events 1 ms apart, a pause of 3 ms and ten
    more, on a worker with an interval of 2 ms that is held up during the
    pause: the eleventh event stops the interval timer before its case is
    taken, and the worker sends 20 once. And ten events 3 ms apart, a pause
    of 6 ms and ten more, on a worker that is never late: it sends 1 twenty
    times. *)
Lemma late_run_merges_bursts :
  (let b1 := map (fun k => Z.of_nat k * ms) (seq 1 9) in
   let b2 := map (fun k => Z.of_nat k * ms) (seq 13 9) in
   paused_once (2 * ms) 0 b1 (12 * ms) b2 /\
   two_bursts = burst_pause_burst 0 b1 (12 * ms) b2 (21 * ms) /\
   inputs two_bursts = two_bursts /\
   enabled two_bursts (timers0 (2 * ms) 0) = true /\
   timely 0 two_bursts (timers0 (2 * ms) 0) = false /\
   out (NewCounted (2 * ms) 0 two_bursts) = mkChan [20] true) /\
  (inputs sparse_run = sparse_schedule /\
   enabled sparse_run (timers0 (2 * ms) 0) = true /\
   timely 0 sparse_run (timers0 (2 * ms) 0) = true /\
   out (NewCounted (2 * ms) 0 sparse_run) = mkChan (repeat 1 20) true).
Proof.
  split; cbv zeta.
  - split; [repeat split; reflexivity|].
    repeat split; vm_compute; reflexivity.
  - repeat split; vm_compute; reflexivity.
Qed.

(* ------------------------------------------------------------------------ *)
(** ** The location watcher *)

Import Watch.

(** *** Paths *)

Lemma length_removelast_lt (X : Type) (l : list X) :
  l <> [] -> (length (removelast l) < length l)%nat.
Proof.
  induction l as [|x l IH]; intros H; [congruence|].
  destruct l as [|y l]; simpl in *; [lia|].
  assert (y :: l <> []) by discriminate. specialize (IH H0). lia.
Qed.

Lemma elems_eqb_refl l : elems_eqb l l = true.
Proof. induction l; simpl; auto. rewrite String.eqb_refl. exact IHl. Qed.

Lemma elems_eqb_eq a b : elems_eqb a b = true <-> a = b.
Proof.
  split; [|intros ->; apply elems_eqb_refl].
  revert b. induction a as [|x a IH]; destruct b as [|y b]; simpl; try discriminate; auto.
  intros H. apply andb_prop in H. destruct H as [H1 H2].
  apply String.eqb_eq in H1. apply IH in H2. congruence.
Qed.

Lemma path_eqb_eq p q : path_eqb p q = true <-> p = q.
Proof.
  unfold path_eqb. destruct p as [a l], q as [b m]. simpl. split.
  - intros H. apply andb_prop in H. destruct H as [H1 H2].
    apply Bool.eqb_prop in H1. apply elems_eqb_eq in H2. congruence.
  - intros H. inversion H; subst. rewrite Bool.eqb_reflx, elems_eqb_refl. reflexivity.
Qed.

Lemma Dir_fixed p : Dir p = p <-> elems p = [].
Proof.
  destruct p as [a l]. unfold Dir. simpl. split.
  - intros H. inversion H as [Hl]. destruct l as [|x l]; [reflexivity|].
    assert (Hlt : (length (removelast (x :: l)) < length (x :: l))%nat)
      by (apply length_removelast_lt; discriminate).
    rewrite Hl in Hlt. lia.
  - intros ->. reflexivity.
Qed.

Lemma Dir_shorter p :
  elems p <> [] -> (length (elems (Dir p)) < length (elems p))%nat.
Proof. intros H. unfold Dir. simpl. apply length_removelast_lt. exact H. Qed.

Lemma up_S n p : up (S n) p = Dir (up n p).
Proof. reflexivity. Qed.

(** *** The two walks end *)

Lemma watchLocation_loop_more fuel :
  forall fs p tgt r k,
    watchLocation_loop fuel fs p tgt = Some r ->
    watchLocation_loop (fuel + k) fs p tgt = Some r.
Proof.
  induction fuel as [|fuel IH]; intros fs p tgt r k H; [discriminate|].
  simpl in *. destruct (is_dir fs p); [exact H|]. apply IH. exact H.
Qed.

Lemma watchLocation_loop_total fuel :
  forall fs p tgt,
    is_dir fs (mkPath (isAbs p) []) = true ->
    (length (elems p) < fuel)%nat ->
    exists a c, watchLocation_loop fuel fs p tgt = Some (a, c) /\ is_dir fs a = true.
Proof.
  induction fuel as [|fuel IH]; intros fs p tgt Hroot Hlen; [lia|].
  simpl. destruct (is_dir fs p) eqn:E; [eauto|].
  assert (Hne : elems p <> []).
  { intros H. destruct p as [a l]. simpl in *. subst l. congruence. }
  apply IH.
  - exact Hroot.
  - pose proof (Dir_shorter _ Hne). lia.
Qed.

Lemma watchParents_more fuel :
  forall fs n p r k,
    watchParents fuel fs n p = Some r -> watchParents (fuel + k) fs n p = Some r.
Proof.
  induction fuel as [|fuel IH]; intros fs n p r k H; [discriminate|].
  simpl in *. destruct (path_eqb (Dir p) p); [exact H|]. apply IH. exact H.
Qed.

Lemma watchParents_total fuel :
  forall fs n p,
    (length (elems p) < fuel)%nat -> exists n', watchParents fuel fs n p = Some n'.
Proof.
  induction fuel as [|fuel IH]; intros fs n p Hlen; [lia|].
  simpl. destruct (path_eqb (Dir p) p) eqn:E; [eauto|].
  assert (Hne : elems p <> []).
  { intros H. apply Dir_fixed in H. apply path_eqb_eq in H. congruence. }
  apply IH. pose proof (Dir_shorter _ Hne). lia.
Qed.

(** C8. For an absolute target, when the root is a directory, the upward
    walk of [watchLocation] returns (with any fuel above the length of the
    path, and the same result for all of them) and what it returns as the
    directory to watch is a directory; the walk of [watchParents] returns for
    every path. *)
Theorem walks_terminate (fs : FS) (path : Path) :
  (isAbs path = true -> is_dir fs root = true ->
   exists anchor child,
     is_dir fs anchor = true /\
     forall fuel, (length (elems path) < fuel)%nat ->
                  watchLocation fuel fs path = Some (anchor, child)) /\
  (forall n : Watcher,
   exists n',
     forall fuel, (length (elems path) < fuel)%nat ->
                  watchParents fuel fs n path = Some n').
Proof.
  split.
  - intros Habs Hroot.
    destruct (@watchLocation_loop_total (walk_fuel path) fs path path)
      as (a & c & H & Hd).
    + rewrite Habs. exact Hroot.
    + unfold walk_fuel. lia.
    + exists a, c. split; [exact Hd|].
      intros fuel Hf. unfold watchLocation.
      replace fuel with (walk_fuel path + (fuel - walk_fuel path))%nat
        by (unfold walk_fuel; lia).
      apply watchLocation_loop_more. exact H.
  - intros n.
    destruct (@watchParents_total (walk_fuel path) fs n path) as (n' & H).
    + unfold walk_fuel. lia.
    + exists n'. intros fuel Hf.
      replace fuel with (walk_fuel path + (fuel - walk_fuel path))%nat
        by (unfold walk_fuel; lia).
      apply watchParents_more. exact H.
Qed.

Lemma walks_terminate_witness :
  isAbs f_target = true /\ is_dir fs_shallow root = true /\
  watchLocation 4 fs_shallow f_target = Some (d_path, d_to) /\
  watchParents 4 fs_shallow [] d_path = Some [root].
Proof.
  destruct (walks_terminate fs_shallow f_target) as (H & _).
  destruct (walks_terminate fs_shallow d_path) as (_ & G).
  split; [reflexivity|]. split; [reflexivity|].
  destruct (H eq_refl eq_refl) as (anchor & child & _ & Hw).
  destruct (G []) as (n' & Hp).
  split.
  - rewrite (Hw 4%nat); [|simpl; lia]. rewrite <- (Hw 4%nat); [|simpl; lia]. reflexivity.
  - rewrite (Hp 4%nat); [|simpl; lia]. rewrite <- (Hp 4%nat); [|simpl; lia]. reflexivity.
Defined.

(** *** The resolved location *)

Lemma watchLocation_loop_spec fuel :
  forall fs path k tgt a c,
    (forall m, (m < k)%nat -> is_dir fs (up m path) = false) ->
    watchLocation_loop fuel fs (up k path) tgt = Some (a, c) ->
    exists n,
      (k <= n)%nat /\ a = up n path /\ is_dir fs a = true /\
      (forall m, (m < n)%nat -> is_dir fs (up m path) = false) /\
      (n = k -> c = tgt) /\
      (forall j, n = S j -> (k <= j)%nat -> c = up j path).
Proof.
  induction fuel as [|fuel IH]; intros fs path k tgt a c Hk H; [discriminate|].
  simpl in H. destruct (is_dir fs (up k path)) eqn:E.
  - inversion H; subst. exists k. repeat split; auto; try lia.
  - rewrite <- up_S in H.
    destruct (IH fs path (S k) (up k path) a c) as (n & Hle & Ha & Hd & Hm & H1 & H2);
      auto.
    { intros m Hm. destruct (Nat.eq_dec m k) as [->|]; [exact E|]. apply Hk. lia. }
    exists n. repeat split; auto; try lia.
    intros j Hj Hkj. destruct (Nat.eq_dec j k) as [->|Hne].
    + apply H1. exact Hj.
    + apply H2; [exact Hj|lia].
Qed.

(** C7. When the root of the target is a directory, [watchLocation] returns;
    and whatever it returns is such that the directory to watch is the first
    directory met walking upward from the target (it is a directory, and no
    path below it on the way is one), and the expected child is the path one
    step below it on the way to the target, hence a direct child of it and
    different from it; when the target itself is a directory, both are the
    target. *)
Theorem watchLocation_resolves (fs : FS) (path : Path) :
  (is_dir fs (mkPath (isAbs path) []) = true ->
   exists anchor child, watchLocation (walk_fuel path) fs path = Some (anchor, child)) /\
  (forall fuel anchor child,
     watchLocation fuel fs path = Some (anchor, child) ->
     exists n,
       anchor = up n path /\
       is_dir fs anchor = true /\
       (forall m, (m < n)%nat -> is_dir fs (up m path) = false) /\
       (n = O -> child = path) /\
       (forall j, n = S j ->
                  child = up j path /\ Dir child = anchor /\ child <> anchor)).
Proof.
  split.
  - intros Hroot.
    destruct (@watchLocation_loop_total (walk_fuel path) fs path path Hroot)
      as (a & c & H & _); [unfold walk_fuel; lia|].
    exists a, c. exact H.
  - intros fuel anchor child H.
    destruct (@watchLocation_loop_spec fuel fs path 0 path anchor child)
      as (n & _ & Ha & Hd & Hm & H1 & H2).
    + intros m Hm. lia.
    + exact H.
    + exists n. repeat split; auto.
      * apply H2; [assumption|lia].
      * rewrite (H2 j) by (auto; lia). subst n. rewrite Ha. reflexivity.
      * intros Heq. rewrite (H2 j) in Heq by (auto; lia).
        assert (Hf : is_dir fs (up j path) = false) by (apply Hm; lia).
        rewrite Heq in Hf. congruence.
Qed.

Lemma watchLocation_resolves_witness :
  is_dir fs_shallow (mkPath (isAbs f_target) []) = true /\
  watchLocation (walk_fuel f_target) fs_shallow f_target = Some (d_path, d_to) /\
  exists n,
    d_path = up n f_target /\ is_dir fs_shallow d_path = true /\
    (forall m, (m < n)%nat -> is_dir fs_shallow (up m f_target) = false) /\
    (n = O -> d_to = f_target) /\
    (forall j, n = S j -> d_to = up j f_target /\ Dir d_to = d_path /\ d_to <> d_path).
Proof.
  destruct (watchLocation_resolves fs_shallow f_target) as (H1 & H2).
  split; [reflexivity|]. split; [reflexivity|].
  exact (H2 (walk_fuel f_target) d_path d_to eq_refl).
Defined.

(** *** The event stream *)

Lemma handleCreateEvent_cases fs w :
  let w' := handleCreateEvent fs w in
  filename w' = filename w /\ watcher w' = watcher w /\
  ((w' = w) \/
   (sent (updateCh w') = sent (updateCh w) ++ [Created] /\
    fileInfo w = None /\ fileInfo w' <> None /\ fileInfo w' = fs (filename w))).
Proof.
  unfold handleCreateEvent. cbv zeta.
  destruct (fs (filename w)) as [i|] eqn:E; destruct (fileInfo w) eqn:F; simpl; auto.
  do 2 (split; [reflexivity|]). right. repeat split; auto. discriminate.
Qed.

Lemma handleDeleteEvent_cases fs w :
  let w' := handleDeleteEvent fs w in
  filename w' = filename w /\ watcher w' = watcher w /\
  ((w' = w) \/
   (sent (updateCh w') = sent (updateCh w) ++ [Deleted] /\
    fileInfo w <> None /\ fileInfo w' = None /\ fs (filename w) = None)).
Proof.
  unfold handleDeleteEvent. cbv zeta.
  destruct (fs (filename w)) as [i|] eqn:E; destruct (fileInfo w) eqn:F; simpl; auto.
  do 2 (split; [reflexivity|]). right. repeat split; auto. discriminate.
Qed.

Lemma step_transition st e st' : step st e = Some st' -> transition st e st'.
Proof.
  destruct st as [w p]. unfold step, transition, events. simpl.
  destruct p as [|path target targetStat|]; destruct e as [fs|fs ev| |];
    try discriminate; intros H.
  - (* the outer loop *)
    unfold resolve in H.
    destruct (watchLocation (walk_fuel (filename w)) fs (filename w)) as [[pa ta]|];
      [|discriminate].
    destruct (Add fs pa (watcher w)) as [n ok]. destruct ok; cbn [negb] in H.
    + destruct (watchParents (walk_fuel pa) fs n pa); inversion H; subst; simpl; auto.
    + inversion H; subst; simpl; auto.
  - (* a notification *)
    inversion H; subst; clear H. unfold on_event.
    destruct (negb (Z.land (Op ev) Remove =? 0)).
    { destruct (handleDeleteEvent_cases fs w) as (Hf & _ & [Hw | (Hs & H1 & H2 & H3)]).
      - simpl. rewrite Hw. auto.
      - simpl. split; [exact Hf|]. right. right. right. eauto 10. }
    destruct (negb (Z.land (Op ev) Create =? 0)).
    { destruct (handleCreateEvent_cases fs w) as (Hf & _ & [Hw | (Hs & H1 & H2 & H3)]).
      - rewrite Hw. destruct (negb (path_eqb target (filename w))); simpl; auto.
      - destruct (negb (path_eqb target (filename (handleCreateEvent fs w)))); simpl;
          (split; [exact Hf|]); right; left; eauto 10. }
    destruct (SameFile targetStat (fs (Name ev))); [|simpl; auto].
    destruct (negb (path_eqb target (filename w))); simpl; auto.
    split; [reflexivity|]. right. right. left. eauto 10.
  - inversion H; subst; simpl; auto.
  - inversion H; subst; simpl; auto.
Qed.

Lemma last_event_snoc l x : last_event (l ++ [x]) = Some x.
Proof. unfold last_event. rewrite map_app. simpl. apply last_last. Qed.

Lemma no_stutter_snoc l x :
  no_stutter (l ++ [x]) =
  no_stutter l &&
  match last_event l with Some y => negb (stutter y x) | None => true end.
Proof.
  induction l as [|a l IH]; [reflexivity|].
  destruct l as [|b l].
  - simpl. destruct (stutter a x); reflexivity.
  - change ((a :: b :: l) ++ [x]) with (a :: (b :: l) ++ [x]).
    change (no_stutter (a :: (b :: l) ++ [x]))
      with (negb (stutter a b) && no_stutter ((b :: l) ++ [x])).
    rewrite IH.
    change (no_stutter (a :: b :: l)) with (negb (stutter a b) && no_stutter (b :: l)).
    change (last_event (a :: b :: l)) with (last_event (b :: l)).
    rewrite andb_assoc. reflexivity.
Qed.

Lemma transition_keeps st e st' :
  recorded st /\ no_stutter (events st) = true ->
  transition st e st' ->
  recorded st' /\ no_stutter (events st') = true.
Proof.
  unfold recorded. intros [Hr Hn] (_ & [(He & Hf) | [(He & H0 & H1 & _) |
                                   [(He & _) | (He & H0 & H1 & _)]]]).
  - rewrite He, Hf. auto.
  - rewrite He, last_event_snoc, no_stutter_snoc, Hn. split; [exact H1|].
    destruct (last_event (events st)) as [[| |]|]; simpl; auto; congruence.
  - rewrite He, last_event_snoc, no_stutter_snoc, Hn. split; [exact I|].
    destruct (last_event (events st)) as [[| |]|]; reflexivity.
  - rewrite He, last_event_snoc, no_stutter_snoc, Hn. split; [exact H1|].
    destruct (last_event (events st)) as [[| |]|]; simpl; auto; congruence.
Qed.

Lemma run_keeps es :
  forall st st',
    recorded st /\ no_stutter (events st) = true ->
    run es st = Some st' ->
    recorded st' /\ no_stutter (events st') = true.
Proof.
  induction es as [|e es IH]; intros st st' Hinv H; simpl in H.
  - inversion H; subst. exact Hinv.
  - destruct (step st e) as [st1|] eqn:E; [|discriminate].
    apply (IH st1); [|exact H].
    eapply transition_keeps; [exact Hinv|]. apply step_transition. exact E.
Qed.

Lemma handleCreateEvent_again fs w :
  handleCreateEvent fs (handleCreateEvent fs w) = handleCreateEvent fs w.
Proof.
  unfold handleCreateEvent.
  destruct (fs (filename w)) as [i|] eqn:E; destruct (fileInfo w) eqn:F; simpl;
    rewrite ?E, ?F; reflexivity.
Qed.

Lemma handleDeleteEvent_again fs w :
  handleDeleteEvent fs (handleDeleteEvent fs w) = handleDeleteEvent fs w.
Proof.
  unfold handleDeleteEvent.
  destruct (fs (filename w)) as [i|] eqn:E; destruct (fileInfo w) eqn:F; simpl;
    rewrite ?E, ?F; reflexivity.
Qed.

(** C3. In every run of a watcher, each step sends at most one event;
    [Created] is sent only by a step that finds [fileInfo] nil and the target
    present, and it records the [fileInfo]; [Deleted] only by a step that
    finds a recorded [fileInfo] and the target absent, and it makes
    [fileInfo] nil. Hence the stream never has [Created] twice in a row nor
    [Deleted] twice in a row, and handling again the notification of the same
    cause sends nothing more. *)
Theorem events_follow_transitions (fs0 : FS) (target : Path) (es : list Env)
        (st : State) (e : Env) (st' : State) :
  run es (init fs0 target) = Some st ->
  step st e = Some st' ->
  transition st e st' /\
  recorded st' /\
  no_stutter (events st') = true /\
  (forall fs w, handleCreateEvent fs (handleCreateEvent fs w) = handleCreateEvent fs w) /\
  (forall fs w, handleDeleteEvent fs (handleDeleteEvent fs w) = handleDeleteEvent fs w).
Proof.
  intros Hrun Hstep.
  assert (Ht : transition st e st') by (apply step_transition; exact Hstep).
  assert (Hinv : recorded st /\ no_stutter (events st) = true).
  { eapply run_keeps; [|exact Hrun]. split; [exact I|reflexivity]. }
  destruct (transition_keeps Hinv Ht) as [Hr Hn].
  auto using handleCreateEvent_again, handleDeleteEvent_again.
Qed.

Lemma events_follow_transitions_witness :
  let es := [Resolve fs_absent] in
  let e := OnEvent fs_created (mkEvent f_target Create) in
  match run es (init fs_absent f_target) with
  | Some st =>
      match step st e with
      | Some st' =>
          events st' = [Created] /\
          transition st e st' /\ recorded st' /\ no_stutter (events st') = true
      | None => False
      end
  | None => False
  end.
Proof.
  intros es e.
  assert (Hev : option_map events
                  (match run es (init fs_absent f_target) with
                   | Some st => step st e
                   | None => None
                   end) = Some [Created]) by (vm_compute; reflexivity).
  destruct (run es (init fs_absent f_target)) as [st|] eqn:Hrun;
    [|discriminate Hev].
  destruct (step st e) as [st'|] eqn:Hstep; [|discriminate Hev].
  destruct (events_follow_transitions fs_absent f_target es e Hrun Hstep)
    as (Ht & Hr & Hn & _).
  simpl in Hev. injection Hev as Hev.
  split; [exact Hev|]. split; [exact Ht|]. split; [exact Hr|exact Hn].
Defined.

(** *** Modifications of the target *)

(** At the [select], with the location fully resolved: a notification that
    is neither a removal nor a creation sends exactly one [Updated] and
    refreshes [fileInfo] when the file it names is the one of the snapshot
    [targetStat], and does nothing otherwise. *)
Lemma modify_event_spec fs ev w path targetStat :
  Z.land (Op ev) Remove = 0 ->
  Z.land (Op ev) Create = 0 ->
  let st' := on_event fs ev w path (filename w) targetStat in
  pc st' = AtSelect path (filename w) targetStat /\
  (if SameFile targetStat (fs (Name ev))
   then events st' = sent (updateCh w) ++ [Updated] /\
        fileInfo (fw st') = fs (filename w)
   else fw st' = w).
Proof.
  intros Hr Hc. unfold on_event. rewrite Hr, Hc. simpl.
  destruct (SameFile targetStat (fs (Name ev))).
  - replace (path_eqb (filename w) (filename w)) with true
      by (symmetry; apply path_eqb_eq; reflexivity).
    simpl. auto.
  - simpl. auto.
Qed.

(** The snapshot is taken by the outer loop only. *)
Lemma create_keeps_snapshot fs ev w path targetStat :
  Z.land (Op ev) Remove = 0 ->
  Z.land (Op ev) Create <> 0 ->
  pc (on_event fs ev w path (filename w) targetStat) =
  AtSelect path (filename w) targetStat.
Proof.
  intros Hr Hc. unfold on_event. rewrite Hr. simpl.
  apply Z.eqb_neq in Hc. rewrite Hc. simpl.
  destruct (handleCreateEvent_cases fs w) as (Hf & _).
  rewrite Hf.
  replace (path_eqb (filename w) (filename w)) with true
    by (symmetry; apply path_eqb_eq; reflexivity).
  reflexivity.
Qed.

(** C1. A target that exists when the watcher is constructed: a write to it
    sends one [Updated] and refreshes [fileInfo], the creation of a sibling
    sends nothing. A target created afterwards in its existing directory:
    [Created] is sent and [fileInfo] recorded, but the write that follows
    sends nothing, because the snapshot that the write is compared with was
    taken before the creation and is still nil. *)
Theorem modify_after_create_is_dropped :
  let create := OnEvent fs_created (mkEvent f_target Create) in
  let write := OnEvent fs_written (mkEvent f_target Write) in
  let sibling := OnEvent fs_sibling (mkEvent f_other Create) in
  option_map events (run [Resolve fs_created; write; sibling] (init fs_created f_target))
  = Some [Updated] /\
  option_map (fun st => fileInfo (fw st))
             (run [Resolve fs_created; write] (init fs_created f_target))
  = Some (fs_written f_target) /\
  option_map events (run [Resolve fs_absent; create; write] (init fs_absent f_target))
  = Some [Created] /\
  option_map (fun st => fileInfo (fw st))
             (run [Resolve fs_absent; create; write] (init fs_absent f_target))
  = Some (fs_created f_target) /\
  option_map pc (run [Resolve fs_absent; create] (init fs_absent f_target))
  = Some (AtSelect d_to f_target None).
Proof. cbv zeta. repeat split; vm_compute; reflexivity. Qed.

(* ------------------------------------------------------------------------ *)
(** * Further properties of the debounce workers *)

Import DebounceSpec.

(** *** Nothing is lost, nothing is counted twice *)

Lemma total_snoc l x : total (l ++ [x]) = total l + x.
Proof. induction l as [|y l IH]; simpl; [lia|]. rewrite IH. lia. Qed.

Lemma NewCounted_accounts (tr : Trace unit) :
  forall w : Worker Z Z,
    closed (out w) = false ->
    0 <= acc w ->
    acc w + Z.of_nat (length tr) < GoInt.half ->
    let w1 := NewCounted_loop tr w in
    total (sent (out w1)) + (if closed (out w1) then 0 else acc w1) =
    total (sent (out w)) + acc w + len (received tr).
Proof.
  induction tr as [|[now c] tr IH]; intros w Ho H0 Hb; cbv zeta.
  - simpl. rewrite Ho. unfold len. simpl. lia.
  - unfold NewCounted_loop. rewrite run_loop_cons by apply NewCounted_select_break.
    change (length ((now, c) :: tr)) with (S (length tr)) in Hb.
    rewrite Nat2Z.inj_succ in Hb.
    destruct c; simpl is_break; cbv iota.
    + assert (Hi : GoInt.incr (acc w) = acc w + 1) by (apply incr_small; lia).
      pose proof (IH (fst (NewCounted_select now (InValue v) w))) as H.
      unfold NewCounted_loop in H. cbv zeta in H. rewrite H; simpl; try lia; auto.
      rewrite Hi. unfold len. simpl length. rewrite Nat2Z.inj_succ. lia.
    + unfold NewCounted_exit. simpl.
      destruct (acc w =? 0) eqn:E; simpl.
      * apply Z.eqb_eq in E. unfold len. simpl. lia.
      * rewrite total_snoc. unfold len. simpl. lia.
    + pose proof (IH (fst (NewCounted_select now IntervalC w))) as H.
      unfold NewCounted_loop in H. cbv zeta in H. rewrite H; simpl; try lia; auto.
      rewrite total_snoc. lia.
    + pose proof (IH (fst (NewCounted_select now MaxDelayC w))) as H.
      unfold NewCounted_loop in H. cbv zeta in H. rewrite H; simpl; try lia; auto.
      rewrite total_snoc. lia.
Qed.

(** X1. The counted worker neither loses nor invents an event: at every point
    of every run (within the range of the counter) the counts sent so far
    plus the counter add up to the number of events received, and once the
    input is closed the counts sent add up to that number. *)
Theorem counted_conserves (interval maxDelay : Z) (tr : Trace unit) :
  Z.of_nat (length tr) < GoInt.half ->
  let w := NewCounted interval maxDelay tr in
  total (sent (out w)) + (if closed (out w) then 0 else acc w) = len (received tr).
Proof.
  intros Hb. cbv zeta. unfold NewCounted.
  rewrite NewCounted_accounts; simpl; auto; lia.
Qed.

Lemma counted_conserves_witness :
  let tr := [(0, InValue tt); (1, InValue tt); (3, IntervalC); (4, InValue tt);
             (4, InClosed)] in
  Z.of_nat (length tr) < GoInt.half /\
  sent (out (NewCounted 2 0 tr)) = [2; 1] /\
  total (sent (out (NewCounted 2 0 tr))) + 0 = len (received tr).
Proof.
  intros tr. split; [reflexivity|]. split; [reflexivity|].
  exact (@counted_conserves 2 0 tr eq_refl).
Defined.

(** *** Every flush carries an input *)

Lemma length_concat_nonempty (X : Type) (ls : list (list X)) :
  Forall (fun l => l <> []) ls -> (length ls <= length (concat ls))%nat.
Proof.
  induction 1 as [|l ls Hl _ IH]; simpl; [lia|].
  rewrite length_app. destruct l; [congruence|]. simpl. lia.
Qed.

(** X2. In every run the runtime can produce, each value sent by the grouped
    worker and each signal sent by the signal worker stands for at least one
    input of its own: there are never more outputs than inputs received; and
    once the input is closed, a run that received an input has sent an
    output. *)
Theorem flushes_carry_inputs (V : Type) (interval maxDelay : Z) (tr : Trace (iface V)) :
  enabled tr (timers0 interval maxDelay) = true ->
  let g := NewGrouped interval maxDelay tr in
  let s := New interval maxDelay (erase tr) in
  (length (sent (out g)) <= length (received tr))%nat /\
  (length (sent (out s)) <= length (received tr))%nat /\
  (closed (out g) = true -> received tr <> [] ->
   sent (out g) <> [] /\ sent (out s) <> []).
Proof.
  intros He. cbv zeta.
  destruct (NewGrouped_conserves tr (start [] interval maxDelay)) as [Hc|Hc];
    [|discriminate Hc].
  cbv zeta in Hc. simpl in Hc. fold (NewGrouped interval maxDelay tr) in Hc.
  destruct (@NewGrouped_pending V tr (start [] interval maxDelay)) as (Hne & _);
    [exact He|discriminate|constructor|].
  fold (NewGrouped interval maxDelay tr) in Hne.
  destruct (@sim_New V tr (start false interval maxDelay) (start [] interval maxDelay))
    as (Hs & _); [exact He|discriminate|reflexivity|reflexivity|reflexivity|].
  fold (NewGrouped interval maxDelay tr) in Hs.
  fold (New interval maxDelay (erase tr)) in Hs.
  assert (Hlen : (length (sent (out (NewGrouped interval maxDelay tr)))
                  <= length (received tr))%nat).
  { apply length_concat_nonempty in Hne. rewrite <- Hc, length_app. lia. }
  split; [exact Hlen|]. split.
  - rewrite Hs, length_map. exact Hlen.
  - intros Hcl Hr. rewrite Hcl, app_nil_r in Hc.
    assert (Hg : sent (out (NewGrouped interval maxDelay tr)) <> []).
    { intros E. rewrite E in Hc. simpl in Hc. congruence. }
    split; [exact Hg|]. rewrite Hs.
    destruct (sent (out (NewGrouped interval maxDelay tr))); [congruence|discriminate].
Qed.

Lemma flushes_carry_inputs_witness :
  let tr := [(0, InValue (Some 7%nat)); (1, InValue (Some 8%nat)); (3, IntervalC);
             (4, InValue (Some 9%nat)); (4, InClosed)] in
  enabled tr (timers0 2 20) = true /\
  (length (sent (out (NewGrouped 2 20 tr))) <= length (received tr))%nat /\
  (length (sent (out (New 2 20 (erase tr)))) <= length (received tr))%nat.
Proof.
  intros tr.
  destruct (@flushes_carry_inputs nat 2 20 tr eq_refl) as (H1 & H2 & _).
  split; [reflexivity|]. split; [exact H1|exact H2].
Defined.

(** *** The last-value worker sends inputs, in order *)

Lemma subseq_nil_l (X : Type) (l : list X) : subseq [] l.
Proof. destruct l; exact I. Qed.

Lemma subseq_skip (X : Type) (s l : list X) y : subseq s l -> subseq s (y :: l).
Proof. destruct s; simpl; auto. Qed.

Lemma subseq_app_r (X : Type) (s l : list X) x : subseq s l -> subseq s (l ++ [x]).
Proof.
  revert s. induction l as [|y l IH]; intros s H.
  - destruct s; [exact I|destruct H].
  - destruct s as [|z s]; [exact I|]. simpl in *.
    destruct H as [[-> H]|H]; [left|right]; auto.
Qed.

Lemma subseq_snoc (X : Type) (s l : list X) x : subseq s l -> subseq (s ++ [x]) (l ++ [x]).
Proof.
  revert s. induction l as [|y l IH]; intros s H.
  - destruct s; [|destruct H]. simpl. left. auto.
  - destruct s as [|z s].
    + simpl. right. apply (IH []). apply subseq_nil_l.
    + simpl in *. destruct H as [[-> H]|H]; [left|right]; auto.
      apply (IH (z :: s)). exact H.
Qed.

Lemma armed_after_input V now (v : V) t : armed (timers_select now (InValue v) t) = true.
Proof.
  unfold armed. destruct (timers_select_InValue now v t) as (_ & _ & Hi & _).
  rewrite Hi. reflexivity.
Qed.

Lemma NewLast_in_order V (tr : Trace (iface V)) :
  forall (w : Worker (iface V) (iface V)) (rec : list (iface V)),
    enabled tr (timers w) = true ->
    subseq (sent (out w)) rec ->
    (armed (timers w) = true -> subseq (sent (out w) ++ [acc w]) rec) ->
    (acc w <> None -> armed (timers w) = true) ->
    subseq (sent (out (NewLast_loop tr w))) (rec ++ received tr).
Proof.
  induction tr as [|[now c] tr IH]; intros w rec He Ha Hb Hc.
  - simpl. rewrite app_nil_r. exact Ha.
  - apply enabled_cons in He. destruct He as [Hr He].
    unfold NewLast_loop. rewrite run_loop_cons by apply NewLast_select_break.
    pose proof (NewLast_select_timers now c w) as Ht.
    destruct c as [v| | |]; simpl is_break in *; cbv iota in *.
    + change (received ((now, InValue v) :: tr)) with (v :: received tr).
      replace (rec ++ v :: received tr) with ((rec ++ [v]) ++ received tr)
        by (rewrite <- app_assoc; reflexivity).
      apply IH.
      * rewrite Ht. exact He.
      * simpl. apply subseq_app_r. exact Ha.
      * intros _. simpl. apply subseq_snoc. exact Ha.
      * intros _. rewrite Ht. apply armed_after_input.
    + simpl received. rewrite app_nil_r. unfold NewLast_exit.
      destruct w as [a t o]. simpl in *. destruct a as [x|]; simpl.
      * apply Hb. apply Hc. discriminate.
      * exact Ha.
    + assert (Harm : armed (timers w) = true).
      { eapply ready_armed; [|exact Hr]. auto. }
      change (received ((now, @IntervalC (iface V)) :: tr)) with (received tr).
      apply IH.
      * rewrite Ht. exact He.
      * simpl. apply Hb. exact Harm.
      * rewrite Ht, armed_after_timer by auto. discriminate.
      * simpl. congruence.
    + assert (Harm : armed (timers w) = true).
      { eapply ready_armed; [|exact Hr]. auto. }
      change (received ((now, @MaxDelayC (iface V)) :: tr)) with (received tr).
      apply IH.
      * rewrite Ht. exact He.
      * destruct w as [a t o]. simpl in *. destruct a as [x|]; simpl.
        -- apply Hb. exact Harm.
        -- exact Ha.
      * rewrite Ht, armed_after_timer by auto. discriminate.
      * simpl. congruence.
Qed.

(** X3. In every run the runtime can produce, the values sent by the
    last-value worker are inputs it received, in the order it received them
    (each input at most once); and when the input is closed right after an
    input that is not nil, that input is the last value sent. *)
Theorem last_sends_inputs_in_order (V : Type) (interval maxDelay : Z) :
  (forall tr : Trace (iface V),
     enabled tr (timers0 interval maxDelay) = true ->
     subseq (sent (out (NewLast interval maxDelay tr))) (received tr)) /\
  (forall (pre : Trace (iface V)) (tau tau' : Z) (v : V) (rest : Trace (iface V)),
     no_close pre = true ->
     last (sent (out (NewLast interval maxDelay
                        (pre ++ (tau, InValue (Some v)) :: (tau', InClosed) :: rest))))
          None = Some v).
Proof.
  split.
  - intros tr He.
    apply (@NewLast_in_order V tr (start None interval maxDelay) []);
      [exact He|exact I|discriminate|simpl; congruence].
  - intros pre tau tau' v rest Hpre.
    unfold NewLast, NewLast_loop.
    rewrite run_loop_app by (auto using NewLast_select_break).
    rewrite !run_loop_cons by apply NewLast_select_break.
    simpl. apply last_last.
Qed.

Lemma last_sends_inputs_in_order_witness :
  let tr := [(0, InValue (Some 7%nat)); (1, InValue None); (3, IntervalC);
             (4, InValue (Some 9%nat)); (4, InClosed)] in
  enabled tr (timers0 2 20) = true /\
  sent (out (NewLast 2 20 tr)) = [None; Some 9%nat] /\
  subseq (sent (out (NewLast 2 20 tr))) (received tr).
Proof.
  intros tr. split; [reflexivity|]. split; [reflexivity|].
  exact (proj1 (last_sends_inputs_in_order nat 2 20) tr eq_refl).
Defined.

(** *** When the timers deliver *)

Lemma interval_due_after_input V (pre : Trace V) interval maxDelay d :
  due (intervalTimer (timers_run pre (timers0 interval maxDelay))) = Some d ->
  exists pre' tau v, pre = pre' ++ [(tau, InValue v)] /\ d = tau + Z.max interval 0.
Proof.
  intros Hd.
  destruct (@exists_last _ pre) as (pre' & [tau e] & ->).
  { intros ->. discriminate Hd. }
  rewrite timers_run_snoc in Hd.
  set (tp := timers_run pre' (timers0 interval maxDelay)) in *.
  destruct e as [v| | |].
  - exists pre', tau, v. split; [reflexivity|].
    destruct (timers_select_InValue tau v tp) as (_ & _ & Ht & _).
    rewrite Ht in Hd. simpl in Hd.
    destruct (timers_run_config pre' (timers0 interval maxDelay)) as (Hc & _).
    fold tp in Hc. rewrite Hc in Hd. simpl in Hd. congruence.
  - destruct (timers_select_InClosed V tau tp) as (_ & _ & Ht & _).
    rewrite Ht in Hd. discriminate Hd.
  - destruct (timers_select_IntervalC V tau tp) as (_ & _ & Ht & _).
    rewrite Ht, drain_due in Hd. discriminate Hd.
  - destruct (timers_select_MaxDelayC V tau tp) as (_ & _ & Ht & _).
    rewrite Ht in Hd. discriminate Hd.
Qed.

Lemma max_delay_due_since V interval maxDelay (pre : Trace V) :
  forall d,
    no_close pre = true ->
    due (maxDelayTimer (timers_run pre (timers0 interval maxDelay))) = Some d ->
    exists p1 tau v p2,
      pre = p1 ++ (tau, InValue v) :: p2 /\
      Forall (@is_value V) p2 /\
      due (maxDelayTimer (timers_run p1 (timers0 interval maxDelay))) = None /\
      d = tau + Z.max maxDelay 0.
Proof.
  induction pre as [|[now c] pre IH] using rev_ind; intros d Hnc Hd.
  - discriminate Hd.
  - rewrite no_close_app in Hnc. apply andb_prop in Hnc. destruct Hnc as [Hnc Hc].
    rewrite timers_run_snoc in Hd.
    set (tp := timers_run pre (timers0 interval maxDelay)) in *.
    destruct c as [v| | |].
    + destruct (timers_select_InValue now v tp) as (_ & _ & _ & Ht).
      rewrite Ht in Hd.
      destruct (maxDelayTimer tp) as [x|] eqn:Em.
      * destruct (IH d Hnc) as (p1 & tau & u & p2 & Hp & Hall & Hn & Hdd).
        { exact Hd. }
        exists p1, tau, u, (p2 ++ [(now, InValue v)]).
        split; [rewrite Hp, <- app_assoc; reflexivity|].
        split; [|auto].
        apply Forall_app. split; [exact Hall|].
        constructor; [exists v; reflexivity|constructor].
      * exists pre, now, v, []. split; [reflexivity|]. split; [constructor|].
        split; [unfold tp in Em; rewrite Em; reflexivity|].
        destruct (timers_run_config pre (timers0 interval maxDelay)) as (_ & Hm).
        fold tp in Hm. rewrite Hm in Hd. simpl in Hd.
        destruct (maxDelay =? 0); [discriminate Hd|]. simpl in Hd. congruence.
    + discriminate Hc.
    + destruct (timers_select_IntervalC V now tp) as (_ & _ & _ & Ht).
      rewrite Ht in Hd. discriminate Hd.
    + destruct (timers_select_MaxDelayC V now tp) as (_ & _ & _ & Ht).
      rewrite Ht in Hd. discriminate Hd.
Qed.

Section SendsWhenDue.
Variables A T V : Type.
Variable body : Z -> Select V -> Worker A T -> Worker A T * bool.
Variable after : Worker A T -> Worker A T.
Hypothesis body_timers : forall now c w,
  timers (fst (body now c w)) = timers_select now c (timers w).
Hypothesis body_break : forall now c w, snd (body now c w) = is_break c.
Hypothesis input_silent : forall now v w,
  sent (out (fst (body now (InValue v) w))) = sent (out w).

Lemma sends_only_when_due_loop (a : A) interval maxDelay :
  sends_only_when_due (fun tr => run_loop body after tr (start a interval maxDelay))
                      (timers0 interval maxDelay).
Proof.
  intros pre now c He Hs.
  apply enabled_app in He. destruct He as (Hpre & _ & He).
  apply enabled_cons in He. destruct He as [Hr _].
  rewrite run_loop_snoc in Hs by auto. cbv zeta in Hs.
  destruct c as [v| | |]; simpl is_break in Hs; cbv iota in Hs.
  - rewrite input_silent in Hs. congruence.
  - left. reflexivity.
  - right. left. split; [reflexivity|].
    simpl in Hr. apply fired_due in Hr. destruct Hr as (d & Hd & Hle).
    apply interval_due_after_input in Hd.
    destruct Hd as (pre' & tau & v & Hp & ->).
    exists pre', tau, v. auto.
  - right. right. split; [reflexivity|].
    simpl in Hr. apply fired_due in Hr. destruct Hr as (d & Hd & Hle).
    apply max_delay_due_since in Hd; [|exact Hpre].
    destruct Hd as (p1 & tau & v & p2 & Hp & Hall & Hn & ->).
    exists p1, tau, v, p2. auto.
Qed.

End SendsWhenDue.

(** X4. In every run the runtime can produce, each of the four workers sends
    only at the close of its input, at an interval case that comes right
    after an input at least [interval] old, or at a max-delay case that ends
    a burst whose first input is at least [maxDelay] old: an output is never
    ahead of its deadline. *)
Theorem outputs_wait_for_deadlines (V : Type) (interval maxDelay : Z) :
  sends_only_when_due (New interval maxDelay) (timers0 interval maxDelay) /\
  sends_only_when_due (NewGrouped (V:=V) interval maxDelay) (timers0 interval maxDelay) /\
  sends_only_when_due (NewLast (V:=V) interval maxDelay) (timers0 interval maxDelay) /\
  sends_only_when_due (NewCounted interval maxDelay) (timers0 interval maxDelay).
Proof.
  split; [|split; [|split]].
  - apply sends_only_when_due_loop;
      auto using New_select_timers, New_select_break.
  - apply sends_only_when_due_loop;
      auto using NewGrouped_select_timers, NewGrouped_select_break.
  - apply sends_only_when_due_loop;
      auto using NewLast_select_timers, NewLast_select_break.
  - apply sends_only_when_due_loop;
      auto using NewCounted_select_timers, NewCounted_select_break.
Qed.

Lemma outputs_wait_for_deadlines_witness :
  let pre := [(0, InValue tt); (1, InValue tt); (2, InValue tt); (3, InValue tt);
              (4, InValue tt)] in
  enabled (pre ++ [(5, MaxDelayC)]) (timers0 2 5) = true /\
  sent (out (NewCounted 2 5 (pre ++ [(5, MaxDelayC)]))) <> sent (out (NewCounted 2 5 pre)) /\
  burst_since (timers0 2 5) pre 5.
Proof.
  intros pre.
  assert (He : enabled (pre ++ [(5, MaxDelayC)]) (timers0 2 5) = true) by reflexivity.
  assert (Hs : sent (out (NewCounted 2 5 (pre ++ [(5, MaxDelayC)])))
               <> sent (out (NewCounted 2 5 pre))) by discriminate.
  split; [exact He|]. split; [exact Hs|].
  destruct (outputs_wait_for_deadlines unit 2 5) as (_ & _ & _ & H).
  destruct (H pre 5 MaxDelayC He Hs) as [Hc|[(Hc & _)|(_ & Hb)]];
    [discriminate Hc|discriminate Hc|exact Hb].
Defined.

(** X5. In a run in which the worker is never late, the timer cases are
    taken at their deadlines exactly: the interval case [interval] after the
    last input, the max-delay case [maxDelay] after the first input of the
    burst; and no input is followed by more than [interval] without a case
    being taken. *)
Theorem timers_fire_on_time (V : Type) (interval maxDelay clock : Z)
        (pre : Trace V) (now : Z) (c : Select V) :
  enabled (pre ++ [(now, c)]) (timers0 interval maxDelay) = true ->
  timely clock (pre ++ [(now, c)]) (timers0 interval maxDelay) = true ->
  (c = IntervalC ->
   exists pre' tau v,
     pre = pre' ++ [(tau, InValue v)] /\ now = tau + Z.max interval 0) /\
  (c = MaxDelayC ->
   exists p1 tau v p2,
     pre = p1 ++ (tau, InValue v) :: p2 /\ Forall (@is_value V) p2 /\
     due (maxDelayTimer (timers_run p1 (timers0 interval maxDelay))) = None /\
     now = tau + Z.max maxDelay 0) /\
  (forall pre' tau v,
     pre = pre' ++ [(tau, InValue v)] -> now <= tau + Z.max interval 0).
Proof.
  intros He Ht.
  apply enabled_app in He. destruct He as (Hpre & _ & He).
  apply enabled_cons in He. destruct He as [Hr _].
  apply timely_app in Ht. destruct Ht as (clock' & _ & Ht).
  apply timely_head in Ht. destruct Ht as (_ & Hi & Hm & _).
  split; [|split].
  - intros ->. simpl in Hr. apply fired_due in Hr. destruct Hr as (d & Hd & Hle).
    specialize (Hi d Hd).
    apply interval_due_after_input in Hd.
    destruct Hd as (pre' & tau & v & Hp & ->).
    exists pre', tau, v. split; [exact Hp|lia].
  - intros ->. simpl in Hr. apply fired_due in Hr. destruct Hr as (d & Hd & Hle).
    specialize (Hm d Hd).
    apply max_delay_due_since in Hd; [|exact Hpre].
    destruct Hd as (p1 & tau & v & p2 & Hp & Hall & Hn & ->).
    exists p1, tau, v, p2. repeat split; auto. lia.
  - intros pre' tau v ->. apply Hi.
    rewrite timers_run_snoc.
    destruct (timers_select_InValue tau v (timers_run pre' (timers0 interval maxDelay)))
      as (_ & _ & Hit & _).
    rewrite Hit. simpl.
    destruct (timers_run_config pre' (timers0 interval maxDelay)) as (Hc & _).
    rewrite Hc. reflexivity.
Qed.

Lemma timers_fire_on_time_witness :
  let pre := [(0, InValue tt); (1, InValue tt)] in
  enabled (pre ++ [(3, IntervalC)]) (timers0 2 5) = true /\
  timely 0 (pre ++ [(3, IntervalC)]) (timers0 2 5) = true /\
  exists pre' tau v, pre = pre' ++ [(tau, InValue v)] /\ 3 = tau + Z.max 2 0.
Proof.
  intros pre. split; [reflexivity|]. split; [reflexivity|].
  destruct (@timers_fire_on_time unit 2 5 0 pre 3 IntervalC eq_refl eq_refl) as (H & _).
  exact (H eq_refl).
Defined.

(* ------------------------------------------------------------------------ *)
(** * Further properties of the watcher *)

Import WatchSpec.

(** *** The ancestors registered *)

Lemma up_Dir k p : up k (Dir p) = Dir (up k p).
Proof.
  induction k as [|k IH]; [reflexivity|].
  rewrite !up_S, IH. reflexivity.
Qed.

Lemma up_length k p : (length (elems (up k p)) <= length (elems p))%nat.
Proof.
  induction k as [|k IH]; [simpl; lia|].
  rewrite up_S.
  assert (H : (length (elems (Dir (up k p))) <= length (elems (up k p)))%nat).
  { destruct (elems (up k p)) eqn:E.
    - unfold Dir. rewrite E. simpl. lia.
    - assert (Hne : elems (up k p) <> []) by (rewrite E; discriminate).
      pose proof (Dir_shorter _ Hne) as Hs. rewrite E in Hs. lia. }
  lia.
Qed.

Lemma up_fixed k p : Dir p = p -> up k p = p.
Proof.
  intros H. induction k as [|k IH]; [reflexivity|]. rewrite up_S, IH. exact H.
Qed.

Lemma up_proper k p : Dir p <> p -> up (S k) p <> p.
Proof.
  intros H E.
  assert (Hne : elems p <> []).
  { intros Hn. apply H. apply Dir_fixed. exact Hn. }
  pose proof (Dir_shorter _ Hne) as H1.
  pose proof (up_length k (Dir p)) as H2.
  rewrite up_S, <- up_Dir in E. rewrite E in H2. lia.
Qed.

Lemma In_Add fs p n q :
  In q (fst (Add fs p n)) <-> In q n \/ (q = p /\ fs q <> None).
Proof.
  unfold Add. destruct (fs p) eqn:E; simpl.
  - split.
    + intros [<-|H]; [right; split; [reflexivity|congruence]|left; exact H].
    + intros [H|[-> _]]; auto.
  - split; [auto|]. intros [H|[-> H]]; [exact H|congruence].
Qed.

(** X6. When [watchParents] returns, the watcher holds what it held before
    and every proper ancestor of the path that exists, up to the root, and
    nothing else: the errors of [Add], which it drops, are those of the
    ancestors that do not exist. *)
Theorem watchParents_registers (fuel : nat) :
  forall (fs : FS) (n : Watcher) (path : Path) (n' : Watcher),
    watchParents fuel fs n path = Some n' ->
    forall q,
      In q n' <->
      In q n \/ (exists k, q = up k path /\ q <> path /\ fs q <> None).
Proof.
  induction fuel as [|fuel IH]; intros fs n path n' H q; [discriminate|].
  simpl in H. destruct (path_eqb (Dir path) path) eqn:E.
  - inversion H; subst. apply path_eqb_eq in E. split; [auto|].
    intros [Hq|(k & Hk & Hne & _)]; [exact Hq|].
    rewrite up_fixed in Hk by exact E. congruence.
  - assert (Hd : Dir path <> path).
    { intros Hp. apply path_eqb_eq in Hp. congruence. }
    rewrite (IH _ _ _ _ H q), In_Add. split.
    + intros [[Hq|(-> & Hf)]|(k & Hk & Hne & Hf)].
      * auto.
      * right. exists 1%nat. repeat split; auto.
      * right. exists (S k). rewrite up_S, <- up_Dir. repeat split; auto.
        rewrite Hk, up_Dir, <- up_S. apply up_proper. exact Hd.
    + intros [Hq|(k & Hk & Hne & Hf)]; [auto|].
      destruct k as [|k]; [simpl in Hk; congruence|].
      rewrite up_S, <- up_Dir in Hk.
      destruct (path_eqb q (Dir path)) eqn:Eq.
      * apply path_eqb_eq in Eq. left. right. auto.
      * right. exists k. repeat split; auto.
        intros Hp. apply path_eqb_eq in Hp. congruence.
Qed.

Lemma watchParents_registers_witness :
  watchParents 4 fs_shallow [d_to] d_to = Some [root; d_path; d_to] /\
  (In root [root; d_path; d_to] <->
   In root [d_to] \/
   (exists k, root = up k d_to /\ root <> d_to /\ fs_shallow root <> None)).
Proof.
  split; [reflexivity|].
  exact (@watchParents_registers 4 fs_shallow [d_to] d_to [root; d_path; d_to]
           eq_refl root).
Defined.

(** *** What the goroutine keeps while it runs *)

Lemma watchParents_keeps fuel :
  forall fs n path n' q,
    watchParents fuel fs n path = Some n' -> In q n -> In q n'.
Proof.
  induction fuel as [|fuel IH]; intros fs n path n' q H Hq; [discriminate|].
  simpl in H. destruct (path_eqb (Dir path) path).
  - inversion H; subst. exact Hq.
  - eapply IH; [exact H|]. apply In_Add. left. exact Hq.
Qed.

Lemma resolve_resolved fs w st' :
  resolve fs w = Some st' ->
  filename (fw st') = filename w /\ fileInfo (fw st') = fileInfo w /\
  updateCh (fw st') = updateCh w /\ resolved st' /\
  (pc st' = AtOuter \/
   exists path target, pc st' = AtSelect path target (fs target) /\
                       is_dir fs path = true).
Proof.
  unfold resolve. intros H.
  destruct (watchLocation (walk_fuel (filename w)) fs (filename w)) as [[pa ta]|] eqn:Ew;
    [|discriminate].
  destruct (@watchLocation_loop_spec (walk_fuel (filename w)) fs (filename w) 0
              (filename w) pa ta)
    as (n & _ & Ha & Hd & _ & H1 & H2); [intros m Hm; lia|exact Ew|].
  destruct (Add fs pa (watcher w)) as [nw ok] eqn:Eadd. destruct ok; cbn [negb] in H.
  - destruct (watchParents (walk_fuel pa) fs nw pa) as [n'|] eqn:Ep;
      [|discriminate H].
    injection H as <-. do 3 (split; [reflexivity|]). split.
    + unfold resolved. simpl. split.
      * eapply watchParents_keeps; [exact Ep|].
        unfold Add in Eadd. destruct (fs pa); inversion Eadd; subst.
        left. reflexivity.
      * exists n. split; [exact Ha|]. split; [exact H1|].
        intros j Hj. apply H2; [exact Hj|lia].
    + right. exists pa, ta. simpl. split; [reflexivity|exact Hd].
  - injection H as <-. do 3 (split; [reflexivity|]). split; [exact I|].
    left. reflexivity.
Qed.

Lemma handlers_keep fs w :
  filename (handleEvent fs w) = filename w /\ watcher (handleEvent fs w) = watcher w /\
  filename (handleCreateEvent fs w) = filename w /\
  watcher (handleCreateEvent fs w) = watcher w /\
  filename (handleDeleteEvent fs w) = filename w /\
  watcher (handleDeleteEvent fs w) = watcher w.
Proof.
  destruct (handleCreateEvent_cases fs w) as (H1 & H2 & _).
  destruct (handleDeleteEvent_cases fs w) as (H3 & H4 & _).
  simpl. auto 10.
Qed.

Lemma on_event_resolved fs ev w path target ts :
  resolved (mkState w (AtSelect path target ts)) ->
  resolved (on_event fs ev w path target ts).
Proof.
  unfold resolved. simpl. intros (Hin & n & Hr).
  destruct (handlers_keep fs w) as (F1 & W1 & F2 & W2 & F3 & W3).
  unfold on_event.
  destruct (negb (Z.land (Op ev) Remove =? 0)); [exact I|].
  destruct (negb (Z.land (Op ev) Create =? 0)).
  { destruct (negb (path_eqb target (filename (handleCreateEvent fs w))));
      [exact I|].
    simpl. rewrite W2, F2. eauto. }
  destruct (SameFile ts (fs (Name ev))); [|simpl; eauto].
  destruct (negb (path_eqb target (filename w))); [exact I|].
  simpl. eauto.
Qed.

Lemma step_resolved st e st' :
  resolved st -> step st e = Some st' -> resolved st'.
Proof.
  destruct st as [w p]. unfold step. simpl.
  destruct p as [|path target ts|]; destruct e as [fs|fs ev| |];
    try discriminate; intros Hr H.
  - apply resolve_resolved in H. tauto.
  - inversion H; subst. apply on_event_resolved. exact Hr.
  - inversion H; subst. exact I.
  - inversion H; subst. exact I.
Qed.

(** X7. In every run of a watcher the watched file name never changes, and
    whenever the goroutine waits for notifications the directory it anchors
    on is registered with the notifier, that directory lies on the way up
    from the file name, and the expected child is the path one step below it
    on that way (or the file name itself when the file name is the anchor). *)
Theorem run_stays_anchored (fs0 : FS) (target : Path) (es : list Env) (st : State) :
  run es (init fs0 target) = Some st ->
  filename (fw st) = target /\ resolved st.
Proof.
  assert (G : forall es st0 st,
             run es st0 = Some st ->
             resolved st0 ->
             filename (fw st) = filename (fw st0) /\ resolved st).
  { clear. induction es as [|e es IH]; intros st0 st H Hr; simpl in H.
    - inversion H; subst. auto.
    - destruct (step st0 e) as [st1|] eqn:E; [|discriminate].
      destruct (IH st1 st H (@step_resolved st0 e st1 Hr E)) as (Hf & Hr').
      split; [|exact Hr'].
      rewrite Hf. apply step_transition in E. destruct E as (E & _). exact E. }
  intros H. apply (G es (init fs0 target) st H). exact I.
Qed.

Lemma run_stays_anchored_witness :
  match run [Resolve fs_shallow] (init fs_shallow f_target) with
  | Some st =>
      pc st = AtSelect d_path d_to None /\
      filename (fw st) = f_target /\ resolved st
  | None => False
  end.
Proof.
  destruct (run [Resolve fs_shallow] (init fs_shallow f_target)) as [st|] eqn:E.
  - destruct (run_stays_anchored fs_shallow f_target [Resolve fs_shallow] E) as (Hf & Hr).
    split; [|split; [exact Hf|exact Hr]].
    assert (Hp : option_map pc (run [Resolve fs_shallow] (init fs_shallow f_target))
                 = Some (AtSelect d_path d_to None)) by (vm_compute; reflexivity).
    rewrite E in Hp. simpl in Hp. congruence.
  - assert (Hp : option_map pc (run [Resolve fs_shallow] (init fs_shallow f_target))
                 = Some (AtSelect d_path d_to None)) by (vm_compute; reflexivity).
    rewrite E in Hp. discriminate Hp.
Defined.

(** *** The first event *)

Lemma first_event_step info0 st e st' :
  first_event_fits info0 (events st) /\ (events st = [] -> fileInfo (fw st) = info0) ->
  transition st e st' ->
  first_event_fits info0 (events st') /\ (events st' = [] -> fileInfo (fw st') = info0).
Proof.
  intros (Hf & H0) (_ & [(He & Hi) | [(He & Hn & Hs & _) |
                         [(He & _) | (He & Hs & Hn & _)]]]).
  - rewrite He, Hi. auto.
  - rewrite He. split; [|intros E; destruct (events st); discriminate E].
    destruct (events st) as [|x l] eqn:E; [|exact Hf].
    simpl. rewrite <- (H0 eq_refl), Hn. discriminate.
  - rewrite He. split; [|intros E; destruct (events st); discriminate E].
    destruct (events st) as [|x l] eqn:E; [|exact Hf].
    simpl. destruct info0; discriminate.
  - rewrite He. split; [|intros E; destruct (events st); discriminate E].
    destruct (events st) as [|x l] eqn:E; [|exact Hf].
    simpl. rewrite <- (H0 eq_refl). destruct (fileInfo (fw st)); [discriminate|congruence].
Qed.

(** X8. A watcher records at its construction the [FileInfo] of the target
    when the target is there and is not a directory. The first event of its
    stream goes with that: it is never [Created] when a [FileInfo] was
    recorded, never [Deleted] when none was; and until the first event
    [Info] stays what it was at construction. *)
Theorem first_event_fits_construction (fs0 : FS) (target : Path)
        (es : list Env) (st : State) :
  run es (init fs0 target) = Some st ->
  let info0 := Info (NewFileWatcher fs0 target) in
  (info0 <> None <-> exists i, fs0 target = Some i /\ IsDir i = false) /\
  first_event_fits info0 (events st) /\
  (events st = [] -> Info (fw st) = info0).
Proof.
  intros H. cbv zeta. split.
  - unfold Info, NewFileWatcher. simpl. destruct (fs0 target) as [i|] eqn:E.
    + destruct (IsDir i) eqn:Ed; simpl; split.
      * congruence.
      * intros (j & Hj & Hd). congruence.
      * intros _. eauto.
      * discriminate.
    + split; [congruence|]. intros (j & Hj & _). discriminate Hj.
  - assert (G : forall es st0 st info0,
               run es st0 = Some st ->
               first_event_fits info0 (events st0) /\
               (events st0 = [] -> fileInfo (fw st0) = info0) ->
               first_event_fits info0 (events st) /\
               (events st = [] -> fileInfo (fw st) = info0)).
    { clear. induction es as [|e es IH]; intros st0 st info0 H Hinv; simpl in H.
      - inversion H; subst. exact Hinv.
      - destruct (step st0 e) as [st1|] eqn:E; [|discriminate].
        apply (IH st1 st info0 H).
        eapply first_event_step; [exact Hinv|]. apply step_transition. exact E. }
    apply (G es (init fs0 target) st _ H). split; [exact I|reflexivity].
Qed.

Lemma first_event_fits_construction_witness :
  let es := [Resolve fs_created; OnEvent fs_written (mkEvent f_target Write)] in
  match run es (init fs_created f_target) with
  | Some st =>
      events st = [Updated] /\
      first_event_fits (Info (NewFileWatcher fs_created f_target)) (events st)
  | None => False
  end.
Proof.
  intros es.
  assert (Hev : option_map events (run es (init fs_created f_target)) = Some [Updated])
    by (vm_compute; reflexivity).
  destruct (run es (init fs_created f_target)) as [st|] eqn:E; [|discriminate Hev].
  simpl in Hev. injection Hev as Hev. split; [exact Hev|].
  exact (proj1 (proj2 (first_event_fits_construction fs_created f_target es E))).
Defined.

(** *** Closing the watcher *)

Lemma step_closed st e st' :
  step st e = Some st' ->
  (closed (updateCh (fw st)) = true <-> pc st = Returned) ->
  (closed (updateCh (fw st')) = true <-> pc st' = Returned) /\
  (pc st' = Returned -> watcher (fw st') = []).
Proof.
  destruct st as [w p]. unfold step. simpl.
  destruct p as [|path target ts|]; destruct e as [fs|fs ev| |];
    try discriminate; intros H Hc.
  - destruct (resolve_resolved _ _ H) as (_ & _ & Hu & _ & [Hp|(pa & ta & Hp & _)]);
      rewrite Hu, Hp; split; try discriminate;
      (split; [intros E; apply Hc in E; discriminate E|discriminate]).
  - inversion H; subst; clear H.
    assert (Hcl : closed (updateCh w) = false).
    { destruct (closed (updateCh w)); [|reflexivity].
      destruct Hc as [Hc _]. discriminate (Hc eq_refl). }
    assert (Hh : closed (updateCh (handleDeleteEvent fs w)) = false /\
                 closed (updateCh (handleCreateEvent fs w)) = false).
    { unfold handleDeleteEvent, handleCreateEvent.
      destruct (fs (filename w)); destruct (fileInfo w); simpl; auto. }
    destruct Hh as (Hd & Hcr).
    unfold on_event.
    destruct (negb (Z.land (Op ev) Remove =? 0)).
    { simpl. rewrite Hd. split; [split; discriminate|discriminate]. }
    destruct (negb (Z.land (Op ev) Create =? 0)).
    { destruct (negb (path_eqb target (filename (handleCreateEvent fs w)))); simpl;
        rewrite Hcr; (split; [split; discriminate|discriminate]). }
    destruct (SameFile ts (fs (Name ev)));
      [destruct (negb (path_eqb target (filename w)))|]; simpl; rewrite ?Hcl;
      (split; [split; discriminate|discriminate]).
  - inversion H; subst; simpl.
    split; [|discriminate].
    split; [intros E; apply Hc in E; discriminate E|discriminate].
  - inversion H; subst; simpl. split; [split; reflexivity|reflexivity].
Qed.

(** X9. In every run of a watcher, the update channel is closed exactly when
    the goroutine has returned, which it does only on the cancellation of its
    context; the watches have then been released, and the goroutine takes no
    further step: nothing is sent and nothing is registered after the
    close. *)
Theorem close_is_final (fs0 : FS) (target : Path) (es : list Env) (st : State) :
  run es (init fs0 target) = Some st ->
  (closed (updateCh (fw st)) = true <-> pc st = Returned) /\
  (pc st = Returned ->
   watcher (fw st) = [] /\
   (exists es', es = es' ++ [OnDone]) /\
   forall e es', run (e :: es') st = None).
Proof.
  revert st. induction es as [|e es IH] using rev_ind; intros st H.
  - inversion H; subst. simpl. split; [split; discriminate|discriminate].
  - assert (Hsplit : exists st1, run es (init fs0 target) = Some st1 /\
                                 step st1 e = Some st).
    { clear IH. revert H. generalize (init fs0 target).
      induction es as [|x es IHes]; intros s0 H; simpl in *.
      - destruct (step s0 e) as [s|] eqn:E; [|discriminate].
        inversion H; subst. eauto.
      - destruct (step s0 x) as [s1|]; [|discriminate]. apply IHes. exact H. }
    destruct Hsplit as (st1 & Hrun & Hstep).
    destruct (IH st1 Hrun) as (Hc1 & _).
    destruct (step_closed _ _ Hstep Hc1) as (Hc & Hw).
    split; [exact Hc|]. intros Hp. split; [exact (Hw Hp)|]. split.
    + exists es. f_equal.
      destruct st1 as [w1 p1]. unfold step in Hstep. simpl in Hstep.
      destruct p1 as [|pa ta ts|]; destruct e as [fs|fs ev| |]; try discriminate;
        try reflexivity; exfalso.
      * apply resolve_resolved in Hstep.
        destruct Hstep as (_ & _ & _ & _ & [Hq|(a & b & Hq & _)]); congruence.
      * inversion Hstep; subst. revert Hp. unfold on_event.
        destruct (negb (Z.land (Op ev) Remove =? 0)); [discriminate|].
        destruct (negb (Z.land (Op ev) Create =? 0)).
        { destruct (negb (path_eqb ta (filename (handleCreateEvent fs w1))));
            discriminate. }
        destruct (SameFile ts (fs (Name ev)));
          [destruct (negb (path_eqb ta (filename w1)))|]; discriminate.
      * inversion Hstep; subst. discriminate Hp.
    + intros e' es'. simpl. unfold step. rewrite Hp. destruct e'; reflexivity.
Qed.

Lemma close_is_final_witness :
  let es := [Resolve fs_created; OnEvent fs_written (mkEvent f_target Write); OnDone] in
  match run es (init fs_created f_target) with
  | Some st =>
      pc st = Returned /\ closed (updateCh (fw st)) = true /\
      events st = [Updated] /\ watcher (fw st) = []
  | None => False
  end.
Proof.
  intros es.
  assert (Hev : option_map (fun st => (pc st, events st))
                  (run es (init fs_created f_target)) = Some (Returned, [Updated]))
    by (vm_compute; reflexivity).
  destruct (run es (init fs_created f_target)) as [st|] eqn:E; [|discriminate Hev].
  simpl in Hev. injection Hev as Hp Hev.
  destruct (close_is_final fs_created f_target es E) as (Hc & Hf).
  split; [exact Hp|]. split; [apply Hc; exact Hp|]. split; [exact Hev|].
  exact (proj1 (Hf Hp)).
Defined.

(** *** The names of the events *)

(** X10. [EventType.String] gives each of the three events its own name,
    none of them the name of the zero value, and panics exactly on the
    integers outside 0..3; it never panics on an event sent by a watcher. *)
Theorem event_names :
  (forall e : EventType,
     String (code e) =
       Some (match e with
             | Created => "Created"%string
             | Updated => "Updated"%string
             | Deleted => "Deleted"%string
             end)) /\
  (forall e e' : EventType, String (code e) = String (code e') -> e = e') /\
  String 0 = Some "Invalid"%string /\
  (forall z : Z, String z = None <-> z < 0 \/ 3 < z).
Proof.
  split; [|split; [|split]].
  - intros []; reflexivity.
  - intros [] []; simpl; intros H; try reflexivity; discriminate H.
  - reflexivity.
  - intros z. unfold String. destruct (z <? 0) eqn:E.
    + apply Z.ltb_lt in E. split; auto.
    + apply Z.ltb_ge in E. split.
      * intros H. right. apply nth_error_None in H. simpl in H. lia.
      * intros [H|H]; [lia|]. apply nth_error_None. simpl. lia.
Qed.

(** *** Resolving again *)

(** X11. Resolving the location again after the expected child has become a
    directory anchors at that child or below it: the walk never stays above
    a directory that stands on the way to the target. *)
Theorem resolution_descends (fs fs' : FS) (path : Path) (fuel fuel' : nat)
        (anchor child anchor' child' : Path) :
  watchLocation fuel fs path = Some (anchor, child) ->
  watchLocation fuel' fs' path = Some (anchor', child') ->
  is_dir fs' child = true ->
  exists j n',
    child = up j path /\ anchor' = up n' path /\ (n' <= j)%nat /\
    (anchor <> path -> anchor = up (S j) path).
Proof.
  intros H H' Hd.
  destruct (@watchLocation_loop_spec fuel fs path 0 path anchor child)
    as (n & _ & Ha & _ & _ & H1 & H2); [intros m Hm; lia|exact H|].
  destruct (@watchLocation_loop_spec fuel' fs' path 0 path anchor' child')
    as (n' & _ & Ha' & _ & Hm' & _ & _); [intros m Hm; lia|exact H'|].
  destruct n as [|j].
  - exists 0%nat, n'. rewrite (H1 eq_refl). split; [reflexivity|].
    split; [exact Ha'|]. split.
    + destruct (Nat.le_gt_cases n' 0) as [Hle|Hgt]; [exact Hle|].
      rewrite (H1 eq_refl) in Hd.
      specialize (Hm' 0%nat Hgt). simpl in Hm'. congruence.
    + intros Hne. simpl in Ha. congruence.
  - exists j, n'. rewrite (H2 j eq_refl) by lia. split; [reflexivity|].
    split; [exact Ha'|]. split; [|intros _; exact Ha].
    destruct (Nat.le_gt_cases n' j) as [Hle|Hgt]; [exact Hle|].
    rewrite (H2 j eq_refl) in Hd by lia.
    specialize (Hm' j Hgt). congruence.
Qed.

Lemma resolution_descends_witness :
  watchLocation 4 fs_shallow f_target = Some (d_path, d_to) /\
  watchLocation 4 fs_absent f_target = Some (d_to, f_target) /\
  is_dir fs_absent d_to = true /\
  exists j n',
    d_to = up j f_target /\ d_to = up n' f_target /\ (n' <= j)%nat /\
    (d_path <> f_target -> d_path = up (S j) f_target).
Proof.
  split; [reflexivity|]. split; [reflexivity|]. split; [reflexivity|].
  exact (@resolution_descends fs_shallow fs_absent f_target 4 4
           d_path d_to d_to f_target eq_refl eq_refl eq_refl).
Defined.

(** *** When [Updated] is sent *)

Lemma snoc_not_same (X : Type) (l : list X) x : l = l ++ [x] -> False.
Proof.
  intros H. apply (f_equal (@length X)) in H. rewrite length_app in H. simpl in H. lia.
Qed.

(** X12. A step of the goroutine sends [Updated] only from its [select],
    with the location fully resolved (the expected child is the watched file
    name), on a notification that is neither a removal nor a creation and
    that names a file which [os.SameFile] identifies with the snapshot taken
    when the location was resolved (hence a snapshot that is not nil); the
    goroutine then stays in its [select] and [Info] is the [os.Stat] of the
    file name at that instant. *)
Theorem updated_only_for_same_file (st : State) (e : Env) (st' : State) :
  step st e = Some st' ->
  events st' = events st ++ [Updated] ->
  exists path ts fs ev,
    pc st = AtSelect path (filename (fw st)) ts /\
    e = OnEvent fs ev /\
    Z.land (Op ev) Remove = 0 /\ Z.land (Op ev) Create = 0 /\
    SameFile ts (fs (Name ev)) = true /\ ts <> None /\
    pc st' = pc st /\
    Info (fw st') = fs (filename (fw st)).
Proof.
  destruct st as [w p]. unfold step, events. simpl.
  destruct p as [|path target ts|]; destruct e as [fs|fs ev| |];
    try discriminate; intros H Hev.
  - exfalso. apply resolve_resolved in H. destruct H as (_ & _ & Hu & _).
    rewrite Hu in Hev. apply snoc_not_same in Hev; destruct Hev.
  - inversion H; subst; clear H. revert Hev. unfold on_event.
    destruct (Z.land (Op ev) Remove =? 0) eqn:Er; simpl negb; cbv iota.
    2:{ intros Hev. exfalso. simpl in Hev.
        destruct (handleDeleteEvent_cases fs w) as (_ & _ & [Hw | (Hs & _)]).
        - rewrite Hw in Hev. apply snoc_not_same in Hev; destruct Hev.
        - rewrite Hs in Hev. apply app_inv_head in Hev. discriminate Hev. }
    destruct (Z.land (Op ev) Create =? 0) eqn:Ec; simpl negb; cbv iota.
    2:{ intros Hev. exfalso.
        assert (Hev' : sent (updateCh (handleCreateEvent fs w))
                       = sent (updateCh w) ++ [Updated]).
        { destruct (negb (path_eqb target (filename (handleCreateEvent fs w))));
            exact Hev. }
        destruct (handleCreateEvent_cases fs w) as (_ & _ & [Hw | (Hs & _)]).
        - rewrite Hw in Hev'. apply snoc_not_same in Hev'; destruct Hev'.
        - rewrite Hs in Hev'. apply app_inv_head in Hev'. discriminate Hev'. }
    destruct (SameFile ts (fs (Name ev))) eqn:Es.
    2:{ simpl. intros Hev. apply snoc_not_same in Hev; destruct Hev. }
    destruct (path_eqb target (filename w)) eqn:Ep; simpl negb; cbv iota.
    2:{ simpl. intros Hev. apply snoc_not_same in Hev; destruct Hev. }
    intros _. apply path_eqb_eq in Ep. subst target.
    exists path, ts, fs, ev. simpl.
    repeat split; auto; try (apply Z.eqb_eq; assumption).
    intros ->. discriminate Es.
  - exfalso. inversion H; subst. simpl in Hev. apply snoc_not_same in Hev; destruct Hev.
  - exfalso. inversion H; subst. simpl in Hev. apply snoc_not_same in Hev; destruct Hev.
Qed.

Lemma event_names_witness :
  String (code Deleted) = String (code Deleted) /\ Deleted = Deleted.
Proof.
  split; [reflexivity|].
  exact (proj1 (proj2 event_names) Deleted Deleted eq_refl).
Defined.

Lemma updated_only_for_same_file_witness :
  let e := OnEvent fs_written (mkEvent f_target Write) in
  match run [Resolve fs_created] (init fs_created f_target) with
  | Some st =>
      match step st e with
      | Some st' =>
          events st' = events st ++ [Updated] /\
          exists path ts fs ev,
            pc st = AtSelect path (filename (fw st)) ts /\
            e = OnEvent fs ev /\
            Z.land (Op ev) Remove = 0 /\ Z.land (Op ev) Create = 0 /\
            SameFile ts (fs (Name ev)) = true /\ ts <> None /\
            pc st' = pc st /\
            Info (fw st') = fs (filename (fw st))
      | None => False
      end
  | None => False
  end.
Proof.
  intros e.
  assert (Hev : option_map
                  (fun st => (events st, option_map events (step st e)))
                  (run [Resolve fs_created] (init fs_created f_target))
                = Some ([], Some [Updated])) by (vm_compute; reflexivity).
  destruct (run [Resolve fs_created] (init fs_created f_target)) as [st|] eqn:E;
    [|discriminate Hev].
  simpl in Hev. injection Hev as Hev0 Hev1.
  destruct (step st e) as [st'|] eqn:Es; [|discriminate Hev1].
  simpl in Hev1. injection Hev1 as Hev1.
  assert (Hs : events st' = events st ++ [Updated]) by (rewrite Hev0, Hev1; reflexivity).
  split; [exact Hs|].
  exact (updated_only_for_same_file st e Es Hs).
Defined.

(** *** A snapshot that is nil *)

Import WatchRuns.

Lemma nil_snapshot_step path w e :
  not_removal e ->
  let st := mkState w (AtSelect path (filename w) None) in
  exists st',
    step st e = Some st' /\
    pc st' = AtSelect path (filename (fw st')) None /\
    (events st' = events st \/ events st' = events st ++ [Created]).
Proof.
  intros (fs & ev & -> & Hr). cbv zeta. unfold step. simpl.
  eexists. split; [reflexivity|].
  unfold on_event. rewrite Hr. simpl negb. cbv iota.
  destruct (Z.land (Op ev) Create =? 0) eqn:Ec; simpl negb; cbv iota.
  - simpl. auto.
  - destruct (handleCreateEvent_cases fs w) as (Hf & _ & [Hw | (Hs & _)]).
    + rewrite Hw.
      replace (path_eqb (filename w) (filename w)) with true
        by (symmetry; apply path_eqb_eq; reflexivity).
      simpl. auto.
    + rewrite Hf.
      replace (path_eqb (filename w) (filename w)) with true
        by (symmetry; apply path_eqb_eq; reflexivity).
      simpl. unfold events. simpl. rewrite Hf. auto.
Qed.

(** X13. While the goroutine waits fully resolved on a target that did not
    exist when the location was resolved (the snapshot is nil), no sequence
    of creations and modifications notified to it makes it send [Updated] or
    [Deleted], nor makes it leave its [select] or renew the snapshot: all it
    can send is [Created]. Only a removal or an error from the notifier makes
    it resolve the location again. *)
Theorem nil_snapshot_mutes_updates (es : list Env) :
  forall (path : Path) (w : FileWatcher),
    Forall not_removal es ->
    let st := mkState w (AtSelect path (filename w) None) in
    exists st' l,
      run es st = Some st' /\
      pc st' = AtSelect path (filename (fw st')) None /\
      events st' = events st ++ l /\
      Forall (fun x => x = Created) l.
Proof.
  induction es as [|e es IH]; intros path w Hall; cbv zeta.
  - exists (mkState w (AtSelect path (filename w) None)), [].
    simpl. split; [reflexivity|]. split; [reflexivity|].
    rewrite app_nil_r. auto.
  - inversion Hall as [|? ? He Hes]; subst.
    destruct (nil_snapshot_step path w He) as (st1 & Hs & Hp & Hev).
    destruct st1 as [w1 p1]. simpl in Hp. subst p1.
    destruct (IH path w1 Hes) as (st' & l & Hrun & Hp' & Hev' & Hl).
    simpl run. rewrite Hs.
    destruct Hev as [Hev|Hev].
    + exists st', l. repeat split; auto. rewrite Hev', Hev. reflexivity.
    + exists st', (Created :: l). repeat split; auto.
      rewrite Hev', Hev, <- app_assoc. reflexivity.
Qed.

Lemma nil_snapshot_mutes_updates_witness :
  let es := [OnEvent fs_created (mkEvent f_target Create);
             OnEvent fs_written (mkEvent f_target Write);
             OnEvent fs_written (mkEvent f_target Chmod)] in
  Forall not_removal es /\
  exists st' l,
    run es (mkState (NewFileWatcher fs_absent f_target)
                    (AtSelect d_to f_target None)) = Some st' /\
    pc st' = AtSelect d_to (filename (fw st')) None /\
    events st' = [] ++ l /\
    Forall (fun x => x = Created) l.
Proof.
  intros es.
  assert (Hall : Forall not_removal es).
  { repeat constructor; eexists; eexists; split; reflexivity. }
  split; [exact Hall|].
  exact (@nil_snapshot_mutes_updates es d_to (NewFileWatcher fs_absent f_target) Hall).
Defined.

(* ------------------------------------------------------------------------ *)
(** * The configuration loader *)

Section LoaderFacts.
Variables World Ref Err Bytes : Type.
Variable nil : Ref.
Variable cloneStruct : Ref -> World -> Ref * World.
Variable ReadFile : Watch.Path -> World -> Bytes + Err.
Variable Unmarshal : Bytes -> Ref -> bool -> World -> option Err * World.

Local Abbreviation Loader := (Config.Loader World Ref Err).
Local Abbreviation Opt := (Config.Opt World Ref Err).
Local Abbreviation reloadConfig := (Config.reloadConfig nil cloneStruct ReadFile Unmarshal).
Local Abbreviation reloads := (Config.reloads nil cloneStruct ReadFile Unmarshal).
Local Abbreviation NewLoader := (Config.NewLoader nil cloneStruct ReadFile Unmarshal).
Local Abbreviation validate_all := (Config.validate_all nil).

(** *** Options *)

Lemma configure_cons (o : Opt) os (c : Loader) :
  Config.configure (o :: os) c = Config.configure os (Config.option_of o c).
Proof. reflexivity. Qed.

Lemma configure_settings (os : list Opt) :
  forall c : Loader,
    let c' := Config.configure os c in
    Config.reloadHandlers c' = Config.reloadHandlers c ++ Config.reload_fns os /\
    Config.errorHandlers c' = Config.errorHandlers c ++ Config.error_fns os /\
    Config.validationHandlers c' =
      Config.validationHandlers c ++ Config.validation_fns os /\
    Config.strictParsing c' = Config.strictParsing c || Config.has_strict os /\
    Config.keepLastValid c' = Config.keepLastValid c || Config.has_keep_latest os /\
    Config.debounceInterval c' = Config.last_interval os (Config.debounceInterval c) /\
    Config.debounceMaxDelay c' = Config.last_max_delay os (Config.debounceMaxDelay c) /\
    Config.filename c' = Config.filename c /\
    Config.defaultConfig c' = Config.defaultConfig c /\
    Config.config c' = Config.config c.
Proof.
  induction os as [|o os IH]; intros c; cbv zeta.
  - simpl. rewrite !app_nil_r, !orb_false_r. repeat split; reflexivity.
  - rewrite configure_cons.
    destruct (IH (Config.option_of o c))
      as (H1 & H2 & H3 & H4 & H5 & H6 & H7 & H8 & H9 & H10).
    rewrite H1, H2, H3, H4, H5, H6, H7, H8, H9, H10.
    destruct o; simpl; rewrite <- ?app_assoc, ?orb_true_r, ?orb_true_l;
      repeat split; reflexivity.
Qed.

(** X14. The options of the package compose: after any list of them the
    handlers of each kind are those registered, in the order of the list;
    the two flags are set exactly when their option occurs; the debounce
    interval and max delay are those of the last option that sets them. A
    loader made by [NewLoader] starts from an interval and a max delay both
    equal to [DefaultDebounceInterval] (one second), and puts a debounce stage
    before its reloads exactly when its interval is not zero. *)
Theorem options_compose (os : list Opt) (file : Watch.Path) (fw : Watch.FileWatcher)
        (defaults : Ref) (w : World) :
  let c := fst (NewLoader file fw defaults (map (@Config.option_of _ _ _) os) w) in
  Config.reloadHandlers c = Config.reload_fns os /\
  Config.errorHandlers c = Config.error_fns os /\
  Config.validationHandlers c = Config.validation_fns os /\
  Config.strictParsing c = Config.has_strict os /\
  Config.keepLastValid c = Config.has_keep_latest os /\
  Config.debounceInterval c =
    Config.last_interval os Config.DefaultDebounceInterval /\
  Config.debounceMaxDelay c =
    Config.last_max_delay os Config.DefaultDebounceInterval /\
  Config.debounced c =
    negb (Config.last_interval os Config.DefaultDebounceInterval =? 0) /\
  Config.GetDefaults c = defaults.
Proof.
  cbv zeta. unfold Config.NewLoader.
  set (c0 := Config.mkLoader file defaults None fw [] [] [] false false
                             Config.DefaultDebounceInterval
                             Config.DefaultDebounceInterval).
  fold (Config.configure os c0).
  destruct (configure_settings os c0)
    as (H1 & H2 & H3 & H4 & H5 & H6 & H7 & H8 & H9 & H10).
  set (c1 := Config.configure os c0) in *.
  destruct (cloneStruct (Config.defaultConfig c1) w) as [cfg w1].
  destruct (Config.loadConfigFile ReadFile Unmarshal c1 file cfg w1) as [err w2].
  match goal with
  | |- context [Config.applyValidations ?a ?b ?c ?d] =>
      destruct (Config.applyValidations a b c d) as [r w3]
  end.
  simpl. unfold Config.debounced, Config.GetDefaults. simpl.
  rewrite H1, H2, H3, H4, H5, H6, H7, H9. simpl. repeat split; reflexivity.
Qed.

(** *** Validation handlers *)

Lemma validate_all_app hs1 :
  forall hs2 (cfg : Ref) (w : World),
    validate_all (hs1 ++ hs2) cfg w =
    match validate_all hs1 cfg w return (Ref * option Err) * World with
    | ((c1, None), w1) => validate_all hs2 c1 w1
    | ((c1, Some e), w1) => ((c1, Some e), w1)
    end.
Proof.
  induction hs1 as [|h hs1 IH]; intros hs2 cfg w; [reflexivity|].
  simpl. destruct (h cfg w) as [[c1 [e|]] w1]; [reflexivity|]. apply IH.
Qed.

Lemma validate_all_error hs :
  forall (cfg : Ref) (w : World) r (e : Err) w',
    validate_all hs cfg w = ((r, Some e), w') -> r = nil.
Proof.
  induction hs as [|h hs IH]; intros cfg w r e w' H; simpl in H.
  - discriminate H.
  - destruct (h cfg w) as [[c1 [e1|]] w1].
    + inversion H; subst. reflexivity.
    + eapply IH. exact H.
Qed.

(** X15. [applyValidations] runs the validation handlers in order, each on
    the object returned by the one before it; it stops at the first handler
    that returns an error and returns nil with that error, the handlers after
    it being left out (the world is as the failing handler left it); the
    object it returns with an error is always nil. *)
Theorem validations_stop_at_first_error :
  (forall hs1 hs2 (cfg : Ref) (w : World),
     validate_all (hs1 ++ hs2) cfg w =
     match validate_all hs1 cfg w return (Ref * option Err) * World with
     | ((c1, None), w1) => validate_all hs2 c1 w1
     | ((c1, Some e), w1) => ((c1, Some e), w1)
     end) /\
  (forall hs1 (h : Config.ValidationFn World Ref Err) hs2 cfg w c1 w1 c2 e w2,
     validate_all hs1 cfg w = ((c1, None), w1) ->
     h c1 w1 = ((c2, Some e), w2) ->
     validate_all (hs1 ++ h :: hs2) cfg w = ((nil, Some e), w2)) /\
  (forall (c : Loader) cfg w r e w',
     Config.applyValidations nil c cfg w = ((r, Some e), w') -> r = nil).
Proof.
  split; [|split].
  - intros. apply validate_all_app.
  - intros hs1 h hs2 cfg w c1 w1 c2 e w2 H1 H2.
    rewrite validate_all_app, H1. simpl. rewrite H2. reflexivity.
  - intros c cfg w r e w' H. eapply validate_all_error. exact H.
Qed.

(** *** What is stored *)

Lemma reloadConfig_keeps (c : Loader) (w : World) :
  let c' := fst (reloadConfig c w) in
  Config.defaultConfig c' = Config.defaultConfig c /\
  (Config.config c' = Config.config c \/
   exists cfg, Config.config c' = Some cfg /\
               Config.is_clone_of cloneStruct (Config.defaultConfig c) cfg).
Proof.
  cbv zeta. unfold Config.reloadConfig.
  destruct (cloneStruct (Config.defaultConfig c) w) as [cfg w1] eqn:E1.
  destruct (Config.loadConfigFile ReadFile Unmarshal c (Config.filename c) cfg w1)
    as [[e|] w2].
  - destruct (Config.keepLastValid c); [simpl; auto|].
    destruct (cloneStruct (Config.defaultConfig c) (Config.handleError c e w2))
      as [cfg' w3] eqn:E2.
    destruct (Config.applyValidations nil c cfg' w3) as [r w4].
    simpl. split; [reflexivity|]. right. exists cfg'. split; [reflexivity|].
    exists (Config.handleError c e w2). rewrite E2. reflexivity.
  - destruct (Config.applyValidations nil c cfg w2) as [r w3].
    simpl. split; [reflexivity|]. right. exists cfg. split; [reflexivity|].
    exists w. rewrite E1. reflexivity.
Qed.

Lemma reloads_keep n :
  forall (c : Loader) (w : World) cfg,
    Config.config c = Some cfg ->
    Config.is_clone_of cloneStruct (Config.defaultConfig c) cfg ->
    let c' := fst (reloads n c w) in
    Config.defaultConfig c' = Config.defaultConfig c /\
    exists cfg', Config.config c' = Some cfg' /\
                 Config.is_clone_of cloneStruct (Config.defaultConfig c) cfg'.
Proof.
  induction n as [|n IH]; intros c w cfg Hc Hcl; cbv zeta.
  - simpl. eauto.
  - simpl. destruct (reloadConfig c w) as [c1 w1] eqn:E.
    pose proof (reloadConfig_keeps c w) as H. cbv zeta in H. rewrite E in H.
    simpl in H. destruct H as (Hd & Hk).
    assert (H1 : exists cfg1, Config.config c1 = Some cfg1 /\
                   Config.is_clone_of cloneStruct (Config.defaultConfig c1) cfg1).
    { destruct Hk as [Hk|(cfg1 & Hk & Hcl1)].
      - exists cfg. rewrite Hk, Hd. auto.
      - exists cfg1. rewrite Hd. auto. }
    destruct H1 as (cfg1 & Hc1 & Hcl1).
    destruct (IH c1 w1 cfg1 Hc1 Hcl1) as (Hd' & cfg' & Hc' & Hcl').
    rewrite Hd in Hd', Hcl'. eauto.
Qed.


End LoaderFacts.

Lemma validations_stop_at_first_error_witness :
  let ok : Config.ValidationFn nat nat nat := fun c w => ((c + 1, None), w + 1)%nat in
  let bad : Config.ValidationFn nat nat nat := fun c w => ((c, Some 7), w + 10)%nat in
  Config.validate_all 0%nat [ok] 5%nat 0%nat = ((6, None), 1)%nat /\
  bad 6%nat 1%nat = ((6, Some 7), 11)%nat /\
  Config.validate_all 0%nat ([ok] ++ bad :: [ok]) 5%nat 0%nat = ((0, Some 7), 11)%nat.
Proof.
  intros ok bad. split; [reflexivity|]. split; [reflexivity|].
  exact (proj1 (proj2 (@validations_stop_at_first_error nat nat nat 0%nat))
           [ok] bad [ok] 5%nat 0%nat 6%nat 1%nat 6%nat 7%nat 11%nat eq_refl eq_refl).
Defined.

(** *** A watcher on a directory *)

(** X17. A watcher constructed on a path that is a directory records no
    [FileInfo] for it ([Info] is nil although the path exists) and anchors on
    that directory itself; the first creation notified to it then, whatever
    was created, makes it send [Created] and record the directory, provided
    the directory is still there. *)
Theorem directory_target_reports_created (fs0 fs : FS) (target : Path) (ev : Event) :
  is_dir fs0 target = true ->
  Z.land (Op ev) Remove = 0 ->
  Z.land (Op ev) Create <> 0 ->
  fs target <> None ->
  Info (NewFileWatcher fs0 target) = None /\
  exists st,
    run [Resolve fs0; OnEvent fs ev] (init fs0 target) = Some st /\
    pc st = AtSelect target target (fs0 target) /\
    events st = [Created] /\
    Info (fw st) = fs target.
Proof.
  intros Hd Hr Hc Hf.
  assert (Hs : exists i, fs0 target = Some i /\ IsDir i = true).
  { unfold is_dir in Hd. destruct (fs0 target) as [i|]; [eauto|discriminate]. }
  destruct Hs as (i & Hi & Hdi).
  assert (Hinfo : Info (NewFileWatcher fs0 target) = None).
  { unfold Info, NewFileWatcher. simpl. rewrite Hi, Hdi. reflexivity. }
  split; [exact Hinfo|].
  destruct (@watchParents_total (walk_fuel target) fs0 [target] target) as (n' & Hp);
    [unfold walk_fuel; lia|].
  assert (Hres : resolve fs0 (NewFileWatcher fs0 target)
                 = Some (mkState (with_watcher n' (NewFileWatcher fs0 target))
                                 (AtSelect target target (fs0 target)))).
  { unfold resolve. change (filename (NewFileWatcher fs0 target)) with target.
    unfold watchLocation, walk_fuel. simpl watchLocation_loop. rewrite Hd.
    change (watcher (NewFileWatcher fs0 target)) with (@nil Path).
    unfold Add. rewrite Hi. cbn [negb].
    fold (walk_fuel target). rewrite Hp. reflexivity. }
  simpl run. unfold init, step at 1. simpl pc. simpl fw. rewrite Hres.
  unfold step. simpl pc. simpl fw.
  eexists. split; [reflexivity|].
  unfold on_event. rewrite Hr. simpl negb. cbv iota.
  apply Z.eqb_neq in Hc. rewrite Hc. simpl negb. cbv iota.
  assert (Hh : handleCreateEvent fs (with_watcher n' (NewFileWatcher fs0 target))
               = mkWatcher target (fs target) n' (send Created make)).
  { unfold handleCreateEvent. simpl. rewrite Hi, Hdi. simpl.
    destruct (fs target); [reflexivity|congruence]. }
  rewrite Hh. simpl filename.
  replace (path_eqb target target) with true
    by (symmetry; apply path_eqb_eq; reflexivity).
  simpl. auto.
Qed.

Lemma directory_target_reports_created_witness :
  is_dir fs_absent d_to = true /\
  Z.land (Op (mkEvent f_target Create)) Remove = 0 /\
  Z.land (Op (mkEvent f_target Create)) Create <> 0 /\
  fs_created d_to <> None /\
  exists st,
    run [Resolve fs_absent; OnEvent fs_created (mkEvent f_target Create)]
        (init fs_absent d_to) = Some st /\
    pc st = AtSelect d_to d_to (fs_absent d_to) /\
    events st = [Created] /\
    Info (fw st) = fs_created d_to.
Proof.
  assert (H1 : is_dir fs_absent d_to = true) by reflexivity.
  assert (H2 : Z.land (Op (mkEvent f_target Create)) Remove = 0) by reflexivity.
  assert (H3 : Z.land (Op (mkEvent f_target Create)) Create <> 0) by discriminate.
  assert (H4 : fs_created d_to <> None) by discriminate.
  split; [exact H1|]. split; [exact H2|]. split; [exact H3|]. split; [exact H4|].
  exact (proj2 (directory_target_reports_created fs_absent fs_created d_to
                  (mkEvent f_target Create) H1 H2 H3 H4)).
Defined.
